(** * A shallow embedding of the Statsig lite server SDK core

    The development follows three classes of the TypeScript sources:
    [SpecStore] (the catalog of gates, configs and layers and its
    synchroniser), [Evaluator] (rule interpretation, overrides, delegation,
    the client initialize response) and the module-level memo table behind
    [computeUserHash].

    Conventions.
    - A JavaScript value that may be [undefined] is an [option]; [null] is
      the constructor [JNull].
    - A plain object used as a dictionary and walked with [Object.entries]
      is the association list of its own properties, in the order the
      engine lists them ([Rec]); dictionaries that are only probed by key
      are stdpp [gmap]s of their own properties.  Where the key of a lookup
      is a user ID, an ID type or a name handed to the override methods,
      the lookup also sees what every plain object inherits from
      [Object.prototype] ([plain_index]).  The dictionaries of the catalog
      and the attribute maps of a user are modelled through their own
      properties only; statements that look a name up in them say which
      names they are about.
    - Mutable fields of a class instance are threaded explicitly: a method
      takes the instance state and returns the new one.
    - Integral quantities (byte counts, sampling rates, 64-bit hashes, the
      clock) are [Z], and so are the numbers inside JSON values, which the
      code only compares with bounds or passes along; [passPercentage] is
      a binary64 [float] because the code multiplies and compares it as
      such.  The two update times of the store are JSON values: the code
      stores the [time] of a payload without looking at its type. *)

From Stdlib Require Import ZArith Lia List Ascii Floats Uint63.
From stdpp Require Import gmap strings list pretty.
Import ListNotations.
Open Scope Z_scope.

(** ** JavaScript values

    The values [JSON.parse] yields.  An object is the list of its own
    properties, in the order the engine lists them; a number is an
    integer, and never [NaN], which no JSON text denotes. *)

#[warnings="-register-all"]
Inductive JSON : Type :=
| JNull
| JBool (b : bool)
| JNum (n : Z)
| JStr (s : string)
| JArr (elems : list JSON)
| JObj (fields : list (string * JSON)).

(** A dictionary object, [Record<string, V>]: its own properties, in the
    order the engine lists them, which is the order of insertion for the
    keys that do not spell an array index. *)
Definition Rec (V : Type) : Type := list (string * V).

Fixpoint rec_get {V} (r : Rec V) (k : string) : option V :=
  match r with
  | [] => None
  | (k', v) :: r' => if String.eqb k k' then Some v else rec_get r' k
  end.

(** [r[k] = v]: an existing key keeps its position, a new key is appended. *)
Fixpoint rec_set {V} (r : Rec V) (k : string) (v : V) : Rec V :=
  match r with
  | [] => [(k, v)]
  | (k', v') :: r' =>
      if String.eqb k k' then (k, v) :: r' else (k', v') :: rec_set r' k v
  end.

Definition rec_keys {V} (r : Rec V) : list string := map fst r.

(** The names of the properties a plain object inherits from
    [Object.prototype]: the methods of the language, and the accessor and
    the four legacy methods every engine ships next to them. *)
Definition Object_prototype_keys : list string :=
  ["constructor"; "hasOwnProperty"; "isPrototypeOf"; "propertyIsEnumerable";
   "toLocaleString"; "toString"; "valueOf"; "__proto__";
   "__defineGetter__"; "__defineSetter__"; "__lookupGetter__";
   "__lookupSetter__"].

(** What [object[key]] finds on a plain object: a property of its own, or,
    under one of the names above, the built-in function (for [__proto__],
    the prototype object) that it inherits.  The built-in is neither
    [null] nor [undefined]; the model records that the lookup landed on
    it and follows it no further. *)
Inductive Found (V : Type) : Type :=
| Own (v : V)
| Inherited (key : string).
Arguments Own {V} v.
Arguments Inherited {V} key.

(** [object[key]], given what the object holds under [key] as its own. *)
Definition plain_index {V} (own : option V) (key : string)
  : option (Found V) :=
  match own with
  | Some v => Some (Own v)
  | None =>
      if bool_decide (key ∈ Object_prototype_keys)
      then Some (Inherited key)
      else None
  end.

(** Property access [v[k]] on a parsed JSON value: only objects carry the
    keys the code asks for. *)
Definition js_get (v : JSON) (k : string) : option JSON :=
  match v with
  | JObj fields => rec_get fields k
  | _ => None
  end.

(** [!!v] *)
Definition truthy (v : option JSON) : bool :=
  match v with
  | None | Some JNull => false
  | Some (JBool b) => b
  | Some (JNum n) => negb (n =? 0)
  | Some (JStr s) => negb (String.eqb s "")
  | Some (JArr _) | Some (JObj _) => true
  end.

(** [v == null], true of [null] and [undefined]. *)
Definition nullish (v : option JSON) : bool :=
  match v with
  | None | Some JNull => true
  | _ => false
  end.

(** [a ?? b] *)
Definition coalesce (a b : option JSON) : option JSON :=
  if nullish a then b else a.

Definition join_comma (parts : list string) : string :=
  match parts with
  | [] => ""
  | p :: ps => fold_left (fun acc q => acc +:+ "," +:+ q) ps p
  end.

(** [String(v)] *)
Fixpoint String_ (v : JSON) : string :=
  match v with
  | JNull => "null"
  | JBool true => "true"
  | JBool false => "false"
  | JNum n => pretty n
  | JStr s => s
  | JArr elems =>
      join_comma
        (map (fun e => match e with JNull => "" | _ => String_ e end) elems)
  | JObj _ => "[object Object]"
  end.

Definition String_bool (b : bool) : string := if b then "true" else "false".

(** [s.startsWith(p)] *)
Definition startsWith (s p : string) : bool := String.prefix p s.

(** The outcome of a call that may throw. *)
Inductive completion (A : Type) : Type :=
| Return (a : A)
| Throw (msg : string).
Arguments Return {A} a.
Arguments Throw {A} msg.

(** ** The spec model: [ConfigSpec], [ConfigRule], [ConfigCondition]

    The records list the fields the store and the evaluator read. *)

Record ConfigCondition : Type := {
  cond_type : string;
  targetValue : option JSON;
  operator : option string;
  field : option string;
  cond_idType : option string;
  additionalValues : Rec JSON;
}.

Record ConfigRule : Type := {
  rule_id_ : string;
  rule_salt : option string;
  passPercentage : float;
  returnValue : JSON;
  rule_idType : option string;
  groupName : option string;
  isExperimentGroup : option bool;
  configDelegate : option string;
  conditions : list ConfigCondition;
}.

Record ConfigSpec : Type := {
  name : string;
  entity : string;
  enabled : bool;
  salt : string;
  defaultValue : JSON;
  idType : option string;
  rules : list ConfigRule;
  explicitParameters : option (list string);
  hasSharedParams : bool;
  isActive : option bool;
  version : option Z;
}.

(** A number that may be [NaN]: what [parseInt] returns and what a counter
    fed from it holds. *)
Inductive number : Type :=
| Num (z : Z)
| NaN.

Definition number_add (a b : number) : number :=
  match a, b with
  | Num x, Num y => Num (x + y)
  | _, _ => NaN
  end.

(** [typeof n === 'number'], which holds of [NaN] as well. *)
(** [a < b], false as soon as one side is [NaN]. *)
Definition number_ltb (a b : number) : bool :=
  match a, b with
  | Num x, Num y => x <? y
  | _, _ => false
  end.

Definition typeof_is_number (n : number) : bool :=
  match n with
  | Num _ => true
  | NaN => true
  end.

Record IDList : Type := {
  ids : gset string;
  readBytes : number;
  url : string;
  fileID : string;
  creationTime : Z;
}.

Record ConfigStore : Type := {
  gates : Rec ConfigSpec;
  configs : Rec ConfigSpec;
  idLists : gmap string IDList;
  layers : Rec ConfigSpec;
  experimentToLayer : Rec string;
}.

Record DiagnosticsSamplingRate : Type := {
  dcs : Z;
  log : Z;
  idlist : Z;
  initialize : Z;
}.

Inductive EvaluationReason : Type :=
| Network | LocalOverride | Unrecognized | Uninitialized | Bootstrap
| DataAdapter | Unsupported.

(** Modelled from the spec: [MAX_SAMPLING_RATE] is a constant of the
    Diagnostics module, whose source is missing; the table of constants
    gives 10000. *)
Definition MAX_SAMPLING_RATE : Z := 10000.

(** ** Collaborators outside the modelled classes

    [ConfigSpec]'s constructor, the [Hashing] and [IDListUtil] helpers and
    the user-agent parser belong to modules whose source is missing;
    [JSON.parse], [parseInt], [Date.now], the conversion [Number] of a
    string and the string method [toLowerCase], which folds case over
    the whole of Unicode, are built-ins.  They are the
    operations of the class below, and every definition that calls one of
    them is stated over an arbitrary instance. *)

(** The specs payload, [Record<string, unknown>], through the keys
    [_process] reads.  The code names [time] a number
    ([specsJSON.time as number]) without checking that it is one. *)
Record SpecsJSON : Type := {
  has_updates : option JSON;
  time : option JSON;
  feature_gates : option JSON;
  dynamic_configs : option JSON;
  layer_configs : option JSON;
  specs_layers : option JSON;
  diagnostics : option JSON;
}.

Inductive HashingAlgorithm : Type := sha256 | djb2 | none.

(** The parts of a parsed user agent the evaluator looks at. *)
Record UserAgent : Type := {
  os_name : option string;
  os_version : option string;
  browser_name : option string;
  browser_version : option string;
}.

Class Externals : Type := {
  (** [new ConfigSpec(json)]; [None] when the constructor throws. *)
  ConfigSpec_new : JSON -> option ConfigSpec;
  (** [JSON.parse(s)]; [None] when it throws a [SyntaxError]. *)
  JSON_parse : string -> option SpecsJSON;
  (** [parseInt(s)] *)
  parseInt : string -> number;
  (** [s.toLowerCase()] *)
  toLowerCase : string -> string;
  (** [Number(s)] for a string [s] *)
  Number_of_string : string -> number;
  (** [IDListUtil.updateIdList(idLists, name, data)] *)
  updateIdList : gmap string IDList -> string -> string -> gmap string IDList;
  (** [sha256Hash(s)], the bytes of the resulting [DataView]. *)
  sha256Hash : string -> list Byte.byte;
  (** [hashString(s, algorithm)] *)
  hashString : string -> option HashingAlgorithm -> string;
  (** [parseUserAgent(ua)] *)
  parseUserAgent : string -> UserAgent;
  (** [getSDKType()] and [getSDKVersion()] *)
  getSDKType : string;
  getSDKVersion : string;
  (** [Date.now()], read once for the span of an evaluation. *)
  now : Z;
  (** The operator table that closes [_evalCondition]: the comparison named
      by the lower-cased [operator], applied to the extracted value and the
      condition's target, with the ID lists at hand for the segment
      operators.  The comparisons rest on [Number], [RegExp], [Date] and
      loose equality; [None] is the [default:] branch, an operator the
      evaluator does not support. *)
  applyOperator :
    gmap string IDList -> option string -> option JSON -> option JSON ->
    option bool;
}.

(** ** SpecStore *)

Record SpecStore : Type := {
  initReason : EvaluationReason;
  initialUpdateTime : JSON;
  lastUpdateTime : JSON;
  store : ConfigStore;
  samplingRates : DiagnosticsSamplingRate;
}.

Definition set_lastUpdateTime (this : SpecStore) (t : JSON) : SpecStore :=
  {| initReason := initReason this;
     initialUpdateTime := initialUpdateTime this;
     lastUpdateTime := t;
     store := store this;
     samplingRates := samplingRates this |}.

Definition set_store (this : SpecStore) (s : ConfigStore) : SpecStore :=
  {| initReason := initReason this;
     initialUpdateTime := initialUpdateTime this;
     lastUpdateTime := lastUpdateTime this;
     store := s;
     samplingRates := samplingRates this |}.

Definition set_samplingRates (this : SpecStore) (r : DiagnosticsSamplingRate)
  : SpecStore :=
  {| initReason := initReason this;
     initialUpdateTime := initialUpdateTime this;
     lastUpdateTime := lastUpdateTime this;
     store := store this;
     samplingRates := r |}.

Definition set_initReason (this : SpecStore) (r : EvaluationReason)
  : SpecStore :=
  {| initReason := r;
     initialUpdateTime := initialUpdateTime this;
     lastUpdateTime := lastUpdateTime this;
     store := store this;
     samplingRates := samplingRates this |}.

Definition set_initialUpdateTime (this : SpecStore) (t : JSON)
  : SpecStore :=
  {| initReason := initReason this;
     initialUpdateTime := t;
     lastUpdateTime := lastUpdateTime this;
     store := store this;
     samplingRates := samplingRates this |}.

(** The state the constructor leaves. *)
Definition SpecStore_new : SpecStore :=
  {| initReason := Uninitialized;
     initialUpdateTime := JNum 0;
     lastUpdateTime := JNum 0;
     store := {| gates := []; configs := []; idLists := ∅; layers := [];
                 experimentToLayer := [] |};
     samplingRates := {| dcs := 0; log := 0; idlist := 0;
                         initialize := MAX_SAMPLING_RATE |} |}.

Definition getInitReason (this : SpecStore) : EvaluationReason :=
  initReason this.
Definition getInitialUpdateTime (this : SpecStore) : JSON :=
  initialUpdateTime this.
Definition getLastUpdateTime (this : SpecStore) : JSON := lastUpdateTime this.
Definition getGate (this : SpecStore) (gateName : string) : option ConfigSpec :=
  rec_get (gates (store this)) gateName.
Definition getConfig (this : SpecStore) (configName : string)
  : option ConfigSpec :=
  rec_get (configs (store this)) configName.
Definition getLayer (this : SpecStore) (layerName : string)
  : option ConfigSpec :=
  rec_get (layers (store this)) layerName.
Definition getExperimentLayer (this : SpecStore) (experimentName : string)
  : option string :=
  rec_get (experimentToLayer (store this)) experimentName.
Definition getIDList (this : SpecStore) (listName : string) : option IDList :=
  idLists (store this) !! listName.
Definition getAllGates (this : SpecStore) : Rec ConfigSpec :=
  gates (store this).
Definition getAllConfigs (this : SpecStore) : Rec ConfigSpec :=
  configs (store this).
Definition getAllLayers (this : SpecStore) : Rec ConfigSpec :=
  layers (store this).
(** [v === 0] *)
Definition is_zero (v : JSON) : bool :=
  match v with
  | JNum n => n =? 0
  | _ => false
  end.

Definition isServingChecks (this : SpecStore) : bool :=
  negb (is_zero (lastUpdateTime this)).

Inductive RateKey : Type := K_dcs | K_log | K_idlist | K_initialize.

Definition rate_assign (r : DiagnosticsSamplingRate) (key : RateKey) (v : Z)
  : DiagnosticsSamplingRate :=
  match key with
  | K_dcs => {| dcs := v; log := log r; idlist := idlist r;
                initialize := initialize r |}
  | K_log => {| dcs := dcs r; log := v; idlist := idlist r;
                initialize := initialize r |}
  | K_idlist => {| dcs := dcs r; log := log r; idlist := v;
                   initialize := initialize r |}
  | K_initialize => {| dcs := dcs r; log := log r; idlist := idlist r;
                       initialize := v |}
  end.

(** [safeSet], for a [value] out of a JSON text.  ([NaN], which only a
    payload handed over as an object could carry, is of type number and
    neither below [0] nor above the maximum: it would be stored.) *)
Definition safeSet (samplingRates : DiagnosticsSamplingRate) (key : RateKey)
    (value : option JSON) : DiagnosticsSamplingRate :=
  match value with
  | Some (JNum value) =>
      if value <? 0 then rate_assign samplingRates key 0
      else if value >? MAX_SAMPLING_RATE
           then rate_assign samplingRates key MAX_SAMPLING_RATE
           else rate_assign samplingRates key value
  | _ => samplingRates
  end.

Definition updateSamplingRates (this : SpecStore) (obj : option JSON)
  : SpecStore :=
  match obj with
  | Some (JObj _ as o) | Some (JArr _ as o) =>
      let r := samplingRates this in
      let r := safeSet r K_dcs (js_get o "dcs") in
      let r := safeSet r K_idlist (js_get o "idlist") in
      let r := safeSet r K_initialize (js_get o "initialize") in
      let r := safeSet r K_log (js_get o "log") in
      set_samplingRates this r
  | _ => this
  end.

(** The characters of a string, as [for (const c of s)] yields them. *)
Fixpoint string_chars (s : string) : list string :=
  match s with
  | EmptyString => []
  | String c s' => String c EmptyString :: string_chars s'
  end.

(** [Object.entries(v)] for an object, whose properties are held in the
    order of the listing, or an array. *)
Definition Object_entries (v : JSON) : list (string * JSON) :=
  match v with
  | JObj fields => fields
  | JArr elems => imap (fun i e => (pretty i, e)) elems
  | _ => []
  end.

(** [for (const x of v)]: arrays and strings are iterable, anything else
    raises a [TypeError]. *)
Definition iterate (v : JSON) : completion (list JSON) :=
  match v with
  | JArr elems => Return elems
  | JStr s => Return (map JStr (string_chars s))
  | _ => Throw "TypeError: experiments is not iterable"
  end.

Fixpoint reverse_entries (entries : list (string * JSON))
    (reverseMapping : Rec string) : completion (Rec string) :=
  match entries with
  | [] => Return reverseMapping
  | (layerName, experiments) :: rest =>
      match iterate experiments with
      | Throw e => Throw e
      | Return names =>
          reverse_entries rest
            (fold_left
               (fun acc experimentName =>
                  rec_set acc (String_ experimentName) layerName)
               names reverseMapping)
      end
  end.

Definition _reverseLayerExperimentMapping (layersMapping : option JSON)
  : completion (Rec string) :=
  match layersMapping with
  | Some (JObj _ as m) | Some (JArr _ as m) =>
      reverse_entries (Object_entries m) []
  | _ => Return []
  end.

Section SpecStoreMethods.
Context `{Externals}.

(** One of the three construction loops of [_process]: [None] when a
    constructor throws, which the loop answers with [return false]. *)
Fixpoint build_specs (array : list JSON) (updated : Rec ConfigSpec)
  : option (Rec ConfigSpec) :=
  match array with
  | [] => Some updated
  | json :: rest =>
      match ConfigSpec_new json with
      | None => None
      | Some spec => build_specs rest (rec_set updated (name spec) spec)
      end
  end.

(** The string an object or an array turns into when a conversion needs
    a primitive.  An array joins its elements, [null] counting for
    nothing; an object is ["[object Object]"], unless it holds a
    [toString] of its own, which in a JSON value is not a function and
    leaves the conversion with nothing to call. *)
Definition unconvertible : string :=
  "TypeError: Cannot convert object to primitive value".

Fixpoint ToString (v : JSON) : completion string :=
  match v with
  | JNull => Return "null"
  | JBool b => Return (String_bool b)
  | JNum n => Return (pretty n)
  | JStr s => Return s
  | JArr elems =>
      (fix join (elems : list JSON) (first : bool) (acc : string)
         : completion string :=
         match elems with
         | [] => Return acc
         | e :: rest =>
             let acc := if first then acc else acc +:+ "," in
             match e with
             | JNull => join rest false acc
             | _ =>
                 match ToString e with
                 | Throw err => Throw err
                 | Return s => join rest false (acc +:+ s)
                 end
             end
         end) elems true ""
  | JObj fields =>
      match rec_get fields "toString" with
      | Some _ => Throw unconvertible
      | None => Return "[object Object]"
      end
  end.

(** [Number(v)], and the number [v] stands for on the right of [<] when
    the left is a number. *)
Definition Number_ (v : JSON) : completion number :=
  match v with
  | JNull => Return (Num 0)
  | JBool b => Return (Num (if b then 1 else 0))
  | JNum n => Return (Num n)
  | JStr s => Return (Number_of_string s)
  | JArr _ | JObj _ =>
      match ToString v with
      | Throw err => Throw err
      | Return s => Return (Number_of_string s)
      end
  end.

(** [specsJSON?.time !== undefined &&
     Number(specsJSON.time) < this.lastUpdateTime] *)
Definition time_is_older (this : SpecStore) (specsJSON : SpecsJSON)
  : completion bool :=
  match time specsJSON with
  | None => Return false
  | Some time =>
      match Number_ time with
      | Throw err => Throw err
      | Return time =>
          match Number_ (lastUpdateTime this) with
          | Throw err => Throw err
          | Return last => Return (number_ltb time last)
          end
      end
  end.

(** [(specsJSON.time as number) ?? this.lastUpdateTime] *)
Definition time_or_last (this : SpecStore) (specsJSON : SpecsJSON) : JSON :=
  match time specsJSON with
  | None | Some JNull => lastUpdateTime this
  | Some time => time
  end.

Definition _process (this : SpecStore) (specsJSON : SpecsJSON)
  : completion bool * SpecStore :=
  if negb (truthy (has_updates specsJSON)) then (Return false, this)
  else
  match time_is_older this specsJSON with
  | Throw err => (Throw err, this)
  | Return true => (Return false, this)
  | Return false =>
    let gateArray := feature_gates specsJSON in
    let configArray := dynamic_configs specsJSON in
    let layersArray := layer_configs specsJSON in
    let layerToExperimentMap := specs_layers specsJSON in
    let samplingRates := diagnostics specsJSON in
    let this := updateSamplingRates this samplingRates in
    match gateArray, configArray, layersArray with
    | Some (JArr gateArray), Some (JArr configArray),
      Some (JArr layersArray) =>
        match build_specs gateArray [] with
        | None => (Return false, this)
        | Some updatedGates =>
        match build_specs configArray [] with
        | None => (Return false, this)
        | Some updatedConfigs =>
        match build_specs layersArray [] with
        | None => (Return false, this)
        | Some updatedLayers =>
        match _reverseLayerExperimentMapping layerToExperimentMap with
        | Throw e => (Throw e, this)
        | Return updatedExpToLayer =>
            let this' :=
              set_store this
                {| gates := updatedGates;
                   configs := updatedConfigs;
                   idLists := idLists (store this);
                   layers := updatedLayers;
                   experimentToLayer := updatedExpToLayer |} in
            (Return true,
             set_lastUpdateTime this' (time_or_last this' specsJSON))
        end end end end
    | _, _, _ => (Return false, this)
    end
  end.

Definition syncBootstrapValues (this : SpecStore) (bootstrapValues : string)
  : completion bool * SpecStore :=
  match JSON_parse bootstrapValues with
  | None => (Throw "SyntaxError", this)
  | Some specsJSON => _process this specsJSON
  end.

Definition setInitialUpdateTime (this : SpecStore) : SpecStore :=
  set_initialUpdateTime this
    (if is_zero (lastUpdateTime this) then JNum (-1)
     else lastUpdateTime this).

End SpecStoreMethods.

(** *** Fetching one ID list

    The observable effects of [genFetchIDList] besides the store update are
    the diagnostics markers and the logger's warnings; they are collected
    in order. *)

Inductive MarkerValue : Type :=
| MV_status (n : Z)
| MV_bool (b : bool).

Inductive Effect : Type :=
| Marker (key action step : string) (value : option MarkerValue)
    (metadata_url : string)
| Warn (msg : string).

(** What [genFetchIDList] reads off a [Response]. *)
Record Response : Type := {
  status : Z;
  content_length : option string;
  text : string;
}.

Definition set_idLists (this : SpecStore) (l : gmap string IDList)
  : SpecStore :=
  set_store this
    {| gates := gates (store this);
       configs := configs (store this);
       idLists := l;
       layers := layers (store this);
       experimentToLayer := experimentToLayer (store this) |}.

Definition add_readBytes (l : IDList) (length : number) : IDList :=
  {| ids := ids l;
     readBytes := number_add (readBytes l) length;
     url := url l;
     fileID := fileID l;
     creationTime := creationTime l |}.

Section FetchIDList.
Context `{Externals}.

Definition invalid_length : string :=
  "Content-Length for the id list is invalid.".

(** The part of the [try] block after the response has arrived. *)
Definition process_id_list_response (this : SpecStore) (name : string)
    (res : Response) : completion unit * SpecStore :=
  let contentLength := content_length res in
  match contentLength with
  | None => (Throw invalid_length, this)
  | Some contentLength =>
      let length := parseInt contentLength in
      if typeof_is_number length then
        match idLists (store this) !! name with
        | None => (Throw "TypeError: cannot read readBytes", this)
        | Some l =>
            let this :=
              set_idLists this
                (<[name := add_readBytes l length]> (idLists (store this))) in
            (Return tt,
             set_idLists this
               (updateIdList (idLists (store this)) name (text res)))
        end
      else
        (Throw invalid_length,
         set_idLists this (delete name (idLists (store this))))
  end.

(** [fetched] is what awaiting [safeFetch] produces: a response, or the
    error of a rejected promise. *)
Definition genFetchIDList (this : SpecStore) (name url : string)
    (readSize : number) (fetched : completion Response)
  : SpecStore * list Effect :=
  let start := [Marker "get_id_list" "start" "network_request" None url] in
  match fetched with
  | Throw e =>
      (this,
       start ++ [Warn e;
                 Marker "get_id_list" "end" "process" (Some (MV_bool false))
                   url])
  | Return res =>
      let marks :=
        start ++
        [Marker "get_id_list" "end" "network_request"
           (Some (MV_status (status res))) url;
         Marker "get_id_list" "start" "process" None url] in
      match process_id_list_response this name res with
      | (Return _, this) =>
          (this,
           marks ++ [Marker "get_id_list" "end" "process"
                       (Some (MV_bool true)) url])
      | (Throw e, this) =>
          (this,
           marks ++ [Warn e;
                     Marker "get_id_list" "end" "process"
                       (Some (MV_bool false)) url])
      end
  end.

End FetchIDList.

(** ** The memo table of [computeUserHash]

    [hashLookupTable] is a module-level [Map<string, bigint>].  Code that
    reaches it runs in the monad below: a computation takes the table,
    and either yields a value with the new table or yields nothing, which
    stands for a call that returns no value the model has: an uncaught
    error, recursion that never bottoms out, or a run that goes on with a
    built-in in the place of a stored value (the [Inherited] of
    [plain_index]). *)

Abbreviation HashTable := (gmap string Z).

Definition M (A : Type) : Type := HashTable -> option (A * HashTable).

Definition ret {A} (a : A) : M A := fun tbl => Some (a, tbl).

Definition bind {A B} (m : M A) (k : A -> M B) : M B :=
  fun tbl =>
    match m tbl with
    | None => None
    | Some (a, tbl') => k a tbl'
    end.

Definition raise {A} : M A := fun _ => None.

Definition lift {A} (o : option A) : M A :=
  match o with
  | Some a => ret a
  | None => raise
  end.

Declare Scope eval_scope.
Delimit Scope eval_scope with eval.
Notation "'let*' x ':=' m 'in' k" := (bind m (fun x => k))
  (at level 10, x name, m at level 100, k at level 200) : eval_scope.
Open Scope eval_scope.

(** Every computation in sequence, collecting the values. *)
Fixpoint run_all {A B} (f : A -> M B) (l : list A) : M (list B) :=
  match l with
  | [] => ret []
  | a :: l' =>
      let* b := f a in
      let* bs := run_all f l' in
      ret (b :: bs)
  end.

Definition be_u64 (bytes : list Byte.byte) : Z :=
  fold_left (fun acc b => acc * 256 + Z.of_N (Byte.to_N b)) bytes 0.

(** [view.getBigUint64(byteOffset, false)]: the eight bytes from
    [byteOffset] on, most significant first; a [RangeError] when the view
    is too short. *)
Definition getBigUint64 (view : list Byte.byte) (byteOffset : nat)
  : option Z :=
  let window := firstn 8 (skipn byteOffset view) in
  if Nat.eqb (length window) 8 then Some (be_u64 window) else None.

(** [if (existingHash)]: an entry counts only when it is a non-zero
    bigint. *)
Definition if_truthy (existingHash : option Z) : option Z :=
  match existingHash with
  | Some h => if h =? 0 then None else Some h
  | None => None
  end.

Section HashLookup.
Context `{Externals}.

Definition computeUserHash (userHash : string) : M Z :=
  fun hashLookupTable =>
    let existingHash := hashLookupTable !! userHash in
    match if_truthy existingHash with
    | Some existingHash => Some (existingHash, hashLookupTable)
    | None =>
        match getBigUint64 (sha256Hash userHash) 0 with
        | None => None
        | Some hash =>
            let hashLookupTable :=
              if Z.of_nat (size hashLookupTable) >? 100000 then ∅
              else hashLookupTable in
            Some (hash, <[userHash := hash]> hashLookupTable)
        end
    end.

(** A sequence of calls, results discarded. *)
Fixpoint computeUserHash_all (inputs : list string) : M unit :=
  match inputs with
  | [] => ret tt
  | s :: rest =>
      let* _ := computeUserHash s in
      computeUserHash_all rest
  end.

End HashLookup.

(** ** Evaluator: results, users, overrides *)

Record SecondaryExposure : Type := {
  gate : string;
  gateValue : string;
  ruleID : string;
}.

Record EvaluationDetails : Type := {
  configSyncTime : JSON;
  initTime : JSON;
  serverTime : Z;
  reason : EvaluationReason;
}.

Record ConfigEvaluation : Type := {
  value : bool;
  rule_id : string;
  secondary_exposures : list SecondaryExposure;
  json_value : JSON;
  explicit_parameters : option (list string);
  config_delegate : option string;
  unsupported : bool;
  undelegated_secondary_exposures : option (list SecondaryExposure);
  is_experiment_group : bool;
  group_name : option string;
  evaluation_details : option EvaluationDetails;
  configVersion : option Z;
}.

(** The constructor, with every defaulted parameter spelled out. *)
Definition ConfigEvaluation_new (value : bool) (rule_id : string)
    (group_name : option string)
    (secondary_exposures : list SecondaryExposure) (json_value : JSON)
    (explicit_parameters : option (list string))
    (config_delegate : option string) (configVersion : option Z)
    (unsupported : bool) : ConfigEvaluation :=
  {| value := value;
     rule_id := rule_id;
     secondary_exposures := secondary_exposures;
     json_value := match json_value with
                   | JBool _ => JObj []
                   | _ => json_value
                   end;
     explicit_parameters := explicit_parameters;
     config_delegate := config_delegate;
     unsupported := unsupported;
     undelegated_secondary_exposures := Some secondary_exposures;
     is_experiment_group := false;
     group_name := group_name;
     evaluation_details := None;
     configVersion := configVersion |}.

Definition withEvaluationDetails (this : ConfigEvaluation)
    (evaulationDetails : EvaluationDetails) : ConfigEvaluation :=
  {| value := value this;
     rule_id := rule_id this;
     secondary_exposures := secondary_exposures this;
     json_value := json_value this;
     explicit_parameters := explicit_parameters this;
     config_delegate := config_delegate this;
     unsupported := unsupported this;
     undelegated_secondary_exposures := undelegated_secondary_exposures this;
     is_experiment_group := is_experiment_group this;
     group_name := group_name this;
     evaluation_details := Some evaulationDetails;
     configVersion := configVersion this |}.

Definition setIsExperimentGroup (this : ConfigEvaluation)
    (isExperimentGroup : bool) : ConfigEvaluation :=
  {| value := value this;
     rule_id := rule_id this;
     secondary_exposures := secondary_exposures this;
     json_value := json_value this;
     explicit_parameters := explicit_parameters this;
     config_delegate := config_delegate this;
     unsupported := unsupported this;
     undelegated_secondary_exposures := undelegated_secondary_exposures this;
     is_experiment_group := isExperimentGroup;
     group_name := group_name this;
     evaluation_details := evaluation_details this;
     configVersion := configVersion this |}.

Definition set_secondary_exposures (this : ConfigEvaluation)
    (exposures : list SecondaryExposure) : ConfigEvaluation :=
  {| value := value this;
     rule_id := rule_id this;
     secondary_exposures := exposures;
     json_value := json_value this;
     explicit_parameters := explicit_parameters this;
     config_delegate := config_delegate this;
     unsupported := unsupported this;
     undelegated_secondary_exposures := undelegated_secondary_exposures this;
     is_experiment_group := is_experiment_group this;
     group_name := group_name this;
     evaluation_details := evaluation_details this;
     configVersion := configVersion this |}.

(** A user.  The named fields are the ones the evaluator addresses
    directly; [otherFields] holds whatever else the object carries
    ([userAgent], [email], [ip], ...), reached only by indexing. *)
Record StatsigUser : Type := {
  userID : option string;
  customIDs : option (Rec string);
  custom : option (Rec JSON);
  privateAttributes : option (Rec JSON);
  statsigEnvironment : option (Rec string);
  otherFields : Rec JSON;
}.

Definition strings_object (r : Rec string) : JSON :=
  JObj (map (fun kv => (fst kv, JStr (snd kv))) r).

(** [user[key]] *)
Definition user_index (user : StatsigUser) (key : string) : option JSON :=
  if String.eqb key "userID" then JStr <$> userID user
  else if String.eqb key "customIDs" then strings_object <$> customIDs user
  else if String.eqb key "custom" then JObj <$> custom user
  else if String.eqb key "privateAttributes"
       then JObj <$> privateAttributes user
  else if String.eqb key "statsigEnvironment"
       then strings_object <$> statsigEnvironment user
  else rec_get (otherFields user) key.

(** [delete user.privateAttributes] *)
Definition delete_privateAttributes (user : StatsigUser) : StatsigUser :=
  {| userID := userID user;
     customIDs := customIDs user;
     custom := custom user;
     privateAttributes := None;
     statsigEnvironment := statsigEnvironment user;
     otherFields := otherFields user |}.

Record Evaluator : Type := {
  gateOverrides : gmap string (gmap string bool);
  configOverrides : gmap string (gmap string (Rec JSON));
  layerOverrides : gmap string (gmap string (Rec JSON));
  specStore : SpecStore;
}.

Definition Evaluator_new : Evaluator :=
  {| gateOverrides := ∅; configOverrides := ∅; layerOverrides := ∅;
     specStore := SpecStore_new |}.

(** [userID == null ? '' : userID] *)
Definition override_key (userID : option string) : string :=
  match userID with
  | None => ""
  | Some userID => userID
  end.

(** [overrides[key] = value] for a boolean [value].  Under [__proto__]
    the assignment reaches the accessor of [Object.prototype], which
    ignores anything that is not an object: no property is created. *)
Definition assign_flag (overrides : gmap string bool) (key : string)
    (value : bool) : gmap string bool :=
  if String.eqb key "__proto__" then overrides
  else <[key := value]> overrides.

(** The three setters.  [this.gateOverrides[gateName] ?? {}] lands on a
    built-in when [gateName] is the name of an inherited property that
    the object does not hold itself; the assignments that follow then
    write onto that built-in, for every object of the program to see.
    Likewise an object assigned under [__proto__] becomes the prototype
    of the map of overrides.  The model follows neither: the answer is
    [None]. *)
Definition overrideGate (this : Evaluator) (gateName : string) (value : bool)
    (userID : option string) : option Evaluator :=
  match plain_index (gateOverrides this !! gateName) gateName with
  | Some (Inherited _) => None
  | found =>
      let overrides :=
        match found with
        | Some (Own overrides) => overrides
        | _ => ∅
        end in
      let overrides := assign_flag overrides (override_key userID) value in
      Some {| gateOverrides := <[gateName := overrides]> (gateOverrides this);
              configOverrides := configOverrides this;
              layerOverrides := layerOverrides this;
              specStore := specStore this |}
  end.

Definition overrideConfig (this : Evaluator) (configName : string)
    (value : Rec JSON) (userID : option string) : option Evaluator :=
  match plain_index (configOverrides this !! configName) configName with
  | Some (Inherited _) => None
  | found =>
      let overrides :=
        match found with
        | Some (Own overrides) => overrides
        | _ => ∅
        end in
      if String.eqb (override_key userID) "__proto__" then None
      else
        let overrides := <[override_key userID := value]> overrides in
        Some {| gateOverrides := gateOverrides this;
                configOverrides :=
                  <[configName := overrides]> (configOverrides this);
                layerOverrides := layerOverrides this;
                specStore := specStore this |}
  end.

Definition overrideLayer (this : Evaluator) (layerName : string)
    (value : Rec JSON) (userID : option string) : option Evaluator :=
  match plain_index (layerOverrides this !! layerName) layerName with
  | Some (Inherited _) => None
  | found =>
      let overrides :=
        match found with
        | Some (Own overrides) => overrides
        | _ => ∅
        end in
      if String.eqb (override_key userID) "__proto__" then None
      else
        let overrides := <[override_key userID := value]> overrides in
        Some {| gateOverrides := gateOverrides this;
                configOverrides := configOverrides this;
                layerOverrides :=
                  <[layerName := overrides]> (layerOverrides this);
                specStore := specStore this |}
  end.

(** The lookups.  [Some (Own e)] is the evaluation [e] built around a
    stored entry.  [Some (Inherited key)] says that the lookup left the
    stored entries through the property every object inherits under
    [key]: either the map of the name is itself such a built-in, or
    the test [!= null] has accepted one in the place of an entry, and
    the evaluation returned is built around it. *)
Definition lookupGateOverride (this : Evaluator) (user : StatsigUser)
    (gateName : string) : option (Found ConfigEvaluation) :=
  match plain_index (gateOverrides this !! gateName) gateName with
  | None => None
  | Some (Inherited key) => Some (Inherited key)
  | Some (Own overrides) =>
      let userOverride :=
        match userID user with
        | Some id => plain_index (overrides !! id) id
        | None => None
        end in
      match userOverride with
      | Some (Own userOverride) =>
          Some (Own (ConfigEvaluation_new userOverride "override" None []
                       (JObj []) None None None false))
      | Some (Inherited key) => Some (Inherited key)
      | None =>
          let allOverride := plain_index (overrides !! "") "" in
          match allOverride with
          | Some (Own allOverride) =>
              Some (Own (ConfigEvaluation_new allOverride "override" None []
                           (JObj []) None None None false))
          | Some (Inherited key) => Some (Inherited key)
          | None => None
          end
      end
  end.

Definition lookupConfigBasedOverride (user : StatsigUser)
    (overrides : option (Found (gmap string (Rec JSON))))
  : option (Found ConfigEvaluation) :=
  match overrides with
  | None => None
  | Some (Inherited key) => Some (Inherited key)
  | Some (Own overrides) =>
      let userOverride :=
        match userID user with
        | Some id => plain_index (overrides !! id) id
        | None => None
        end in
      match userOverride with
      | Some (Own userOverride) =>
          Some (Own (ConfigEvaluation_new true "override" None []
                       (JObj userOverride) None None None false))
      | Some (Inherited key) => Some (Inherited key)
      | None =>
          let allOverride := plain_index (overrides !! "") "" in
          match allOverride with
          | Some (Own allOverride) =>
              Some (Own (ConfigEvaluation_new true "override" None []
                           (JObj allOverride) None None None false))
          | Some (Inherited key) => Some (Inherited key)
          | None => None
          end
      end
  end.

Definition lookupConfigOverride (this : Evaluator) (user : StatsigUser)
    (configName : string) : option (Found ConfigEvaluation) :=
  let overrides :=
    plain_index (configOverrides this !! configName) configName in
  lookupConfigBasedOverride user overrides.

Definition lookupLayerOverride (this : Evaluator) (user : StatsigUser)
    (layerName : string) : option (Found ConfigEvaluation) :=
  let overrides :=
    plain_index (layerOverrides this !! layerName) layerName in
  lookupConfigBasedOverride user overrides.

(** ** Evaluator: interpretation of specs *)

Definition exposure_key (exposure : SecondaryExposure) : string :=
  gate exposure +:+ "|" +:+ gateValue exposure +:+ "|" +:+ ruleID exposure.

Fixpoint drop_seen (seen : gset string) (exposures : list SecondaryExposure)
  : list SecondaryExposure :=
  match exposures with
  | [] => []
  | exposure :: rest =>
      let key := exposure_key exposure in
      if decide (key ∈ seen) then drop_seen seen rest
      else exposure :: drop_seen ({[key]} ∪ seen) rest
  end.

Definition _cleanExposures (exposures : list SecondaryExposure)
  : list SecondaryExposure :=
  drop_seen ∅
    (List.filter (fun exposure => negb (startsWith (gate exposure) "segment:"))
       exposures).

Section Interpretation.
Context `{Externals}.

Definition getParameterCaseInsensitive {V} (object : option (Rec V))
    (key : string) : option V :=
  match object with
  | None => None
  | Some object =>
      let asLowercase := toLowerCase key in
      let keyMatch :=
        List.find (fun k => String.eqb (toLowerCase k) asLowercase)
          (rec_keys object) in
      match keyMatch with
      | None => None
      | Some keyMatch => rec_get object keyMatch
      end
  end.

(** [_getUnitID].  With [customIDs] a plain object, [customIDs[idType]]
    is [Inherited] when [idType] names an inherited property that the
    object does not hold itself: the method then returns the built-in,
    which is not [undefined]. *)
Definition _getUnitID (user : StatsigUser) (idType : option string)
  : option (Found string) :=
  match idType with
  | Some idType' =>
      if negb (String.eqb (toLowerCase idType') "userid") then
        let unitID :=
          match customIDs user with
          | Some ids => plain_index (rec_get ids idType') idType'
          | None => None
          end in
        match unitID with
        | Some unitID => Some unitID
        | None =>
            Own <$> getParameterCaseInsensitive (customIDs user) idType'
        end
      else Own <$> userID user
  | None => Own <$> userID user
  end.

(** [found ?? ''] at the places where the unit ID goes into the key of a
    hash.  A built-in would be spelled out there by the engine, in a text
    the model does not have: that run yields nothing. *)
Definition unit_or_empty (found : option (Found string)) : option string :=
  match found with
  | None => Some ""
  | Some (Own unitID) => Some unitID
  | Some (Inherited _) => None
  end.

(** [object?.[key]] *)
Definition opt_get (object : option (Rec JSON)) (key : string)
  : option JSON :=
  match object with
  | Some object => rec_get object key
  | None => None
  end.

(** [getFromUser(user, field)].  The outer [None] is the [TypeError] of
    [field.toLowerCase()] on a null [field], reached when [user[field]]
    itself is nullish. *)
Definition getFromUser (user : StatsigUser) (field : option string)
  : option (option JSON) :=
  let direct :=
    user_index user (match field with Some f => f | None => "null" end) in
  if negb (nullish direct) then Some direct
  else
    match field with
    | None => None
    | Some field =>
        Some (coalesce (user_index user (toLowerCase field))
             (coalesce (opt_get (custom user) field)
             (coalesce (opt_get (custom user) (toLowerCase field))
             (coalesce (opt_get (privateAttributes user) field)
                       (opt_get (privateAttributes user)
                          (toLowerCase field))))))
    end.

Definition getFromUserAgent (user : StatsigUser) (field : option string)
  : option (option JSON) :=
  match getFromUser user (Some "userAgent") with
  | None => None
  | Some ua =>
      if nullish ua then Some (Some JNull)
      else
        match ua with
        | Some (JStr ua) =>
            if (1000 <? String.length ua)%nat then Some (Some JNull)
            else
              let res := parseUserAgent ua in
              match field with
              | None => None
              | Some field =>
                  let f := toLowerCase field in
                  let pick (o : option string) : option (option JSON) :=
                    Some (Some (match o with
                                | Some s => JStr s
                                | None => JNull
                                end)) in
                  if String.eqb f "os_name" || String.eqb f "osname"
                  then pick (os_name res)
                  else if String.eqb f "os_version"
                          || String.eqb f "osversion"
                  then pick (os_version res)
                  else if String.eqb f "browser_name"
                          || String.eqb f "browsername"
                  then pick (browser_name res)
                  else if String.eqb f "browser_version"
                          || String.eqb f "browserversion"
                  then pick (browser_version res)
                  else Some (Some JNull)
              end
        | _ => Some (Some JNull)
        end
  end.

Definition getFromEnvironment (user : StatsigUser) (field : option string)
  : option (option JSON) :=
  match statsigEnvironment user with
  | None => Some None
  | Some env =>
      match field with
      | None => None
      | Some field =>
          Some (JStr <$> getParameterCaseInsensitive (Some env) field)
      end
  end.

Definition EvaluationDetails_make (configSyncTime initialUpdateTime : JSON)
    (reason : EvaluationReason) : EvaluationDetails :=
  {| configSyncTime := configSyncTime;
     initTime := initialUpdateTime;
     serverTime := now;
     reason := reason |}.

Definition EvaluationDetails_uninitialized : EvaluationDetails :=
  EvaluationDetails_make (JNum 0) (JNum 0) Uninitialized.

Definition EvaluationDetails_unsupported
    (configSyncTime initialUpdateTime : JSON) : EvaluationDetails :=
  EvaluationDetails_make configSyncTime initialUpdateTime Unsupported.

Definition ConfigEvaluation_unsupported
    (configSyncTime initialUpdateTime : JSON) (version : option Z)
  : ConfigEvaluation :=
  withEvaluationDetails
    (ConfigEvaluation_new false "" None [] (JObj []) None None version true)
    (EvaluationDetails_unsupported configSyncTime initialUpdateTime).

(** [Number(n)] for a bigint in the range where the conversion is exact. *)
Definition Number_of_bigint (n : Z) : float :=
  PrimFloat.of_uint63 (Uint63.of_Z n).

Definition CONDITION_SEGMENT_COUNT : Z := 10 * 1000.
Definition USER_BUCKET_COUNT : Z := 1000.

Definition _evalPassPercent (user : StatsigUser) (rule : ConfigRule)
    (config : ConfigSpec) : M bool :=
  let* unitID := lift (unit_or_empty (_getUnitID user (rule_idType rule))) in
  let* hash :=
    computeUserHash
      (salt config +:+ "." +:+
       default (rule_id_ rule) (rule_salt rule) +:+ "." +:+
       unitID) in
  ret (PrimFloat.ltb (Number_of_bigint (Z.rem hash CONDITION_SEGMENT_COUNT))
         (PrimFloat.mul (passPercentage rule) 100%float)).

End Interpretation.

Record ConditionResult : Type := {
  passes : bool;
  cond_unsupported : bool;
  exposures : option (list SecondaryExposure);
}.

Definition condition_passes (b : bool) : ConditionResult :=
  {| passes := b; cond_unsupported := false; exposures := None |}.

Definition condition_unsupported : ConditionResult :=
  {| passes := false; cond_unsupported := true; exposures := None |}.

(** [String(v)] for a value that may be [undefined]; also the property key
    such a value turns into. *)
Definition String_opt (v : option JSON) : string :=
  match v with
  | None => "undefined"
  | Some v => String_ v
  end.

Section Evaluation.
Context `{Externals}.
Variable this : Evaluator.

(** [this._eval], the recursive entry the methods below call back
    into. *)
Variable this_eval : StatsigUser -> ConfigSpec -> M ConfigEvaluation.

Definition _evalSpec (user : StatsigUser) (config : option ConfigSpec)
  : M ConfigEvaluation :=
  match config with
  | None =>
      ret (withEvaluationDetails
             (ConfigEvaluation_new false "" None [] (JObj []) None None None
                false)
             (EvaluationDetails_make
                (getLastUpdateTime (specStore this))
                (getInitialUpdateTime (specStore this))
                Unrecognized))
  | Some config =>
      let* evaulation := this_eval user config in
      let evaulation :=
        set_secondary_exposures evaulation
          (_cleanExposures (secondary_exposures evaulation)) in
      match evaluation_details evaulation with
      | Some _ => ret evaulation
      | None =>
          ret (withEvaluationDetails evaulation
                 (EvaluationDetails_make
                    (getLastUpdateTime (specStore this))
                    (getInitialUpdateTime (specStore this))
                    (getInitReason (specStore this))))
      end
  end.

Definition is_Uninitialized (r : EvaluationReason) : bool :=
  match r with
  | Uninitialized => true
  | _ => false
  end.

Definition override_details : EvaluationDetails :=
  EvaluationDetails_make
    (getLastUpdateTime (specStore this))
    (getInitialUpdateTime (specStore this))
    LocalOverride.

Definition uninitialized_evaluation : ConfigEvaluation :=
  withEvaluationDetails
    (ConfigEvaluation_new false "" None [] (JObj []) None None None false)
    EvaluationDetails_uninitialized.

(** The three public lookups.  An override that is not a stored one
    ([Inherited]) is where the model stops. *)
Definition checkGate (user : StatsigUser) (gateName : string)
  : M ConfigEvaluation :=
  match lookupGateOverride this user gateName with
  | Some (Own override) =>
      ret (withEvaluationDetails override override_details)
  | Some (Inherited _) => raise
  | None =>
      if is_Uninitialized (getInitReason (specStore this))
      then ret uninitialized_evaluation
      else _evalSpec user (getGate (specStore this) gateName)
  end.

Definition Evaluator_getConfig (user : StatsigUser) (configName : string)
  : M ConfigEvaluation :=
  match lookupConfigOverride this user configName with
  | Some (Own override) =>
      ret (withEvaluationDetails override override_details)
  | Some (Inherited _) => raise
  | None =>
      if is_Uninitialized (getInitReason (specStore this))
      then ret uninitialized_evaluation
      else _evalSpec user (getConfig (specStore this) configName)
  end.

Definition Evaluator_getLayer (user : StatsigUser) (layerName : string)
  : M ConfigEvaluation :=
  match lookupLayerOverride this user layerName with
  | Some (Own override) =>
      ret (withEvaluationDetails override override_details)
  | Some (Inherited _) => raise
  | None =>
      if is_Uninitialized (getInitReason (specStore this))
      then ret uninitialized_evaluation
      else _evalSpec user (getLayer (specStore this) layerName)
  end.

(** The loop of the [multi_pass_gate] / [multi_fail_gate] case. *)
Fixpoint multi_gate_loop (user : StatsigUser) (condition_type : string)
    (gateNames : list JSON) (exposures : list SecondaryExposure)
  : M ConditionResult :=
  match gateNames with
  | [] =>
      ret {| passes := false; cond_unsupported := false;
             exposures := Some exposures |}
  | gateName :: rest =>
      let* gateResult := checkGate user (String_ gateName) in
      if unsupported gateResult then ret condition_unsupported
      else
        let resValue :=
          if String.eqb condition_type "multi_pass_gate"
          then value gateResult
          else negb (value gateResult) in
        let exposures :=
          (exposures ++
           [{| gate := String_ gateName;
               gateValue := String_bool (value gateResult);
               ruleID := rule_id gateResult |}]) ++
          secondary_exposures gateResult in
        if resValue
        then ret {| passes := true; cond_unsupported := false;
                    exposures := Some exposures |}
        else multi_gate_loop user condition_type rest exposures
  end.

(** The value a non-gate condition compares; the outer [None] is the
    [default:] branch of the switch on the condition type. *)
Definition condition_value (user : StatsigUser)
    (condition : ConfigCondition) (type : string)
  : M (option (option JSON)) :=
  let field := field condition in
  let idType := cond_idType condition in
  if String.eqb type "ip_based" then
    let* value := lift (getFromUser user field) in ret (Some value)
  else if String.eqb type "ua_based" then
    let* value := lift (getFromUser user field) in
    if nullish value
    then let* value := lift (getFromUserAgent user field) in
         ret (Some value)
    else ret (Some value)
  else if String.eqb type "user_field" then
    let* value := lift (getFromUser user field) in ret (Some value)
  else if String.eqb type "environment_field" then
    let* value := lift (getFromEnvironment user field) in ret (Some value)
  else if String.eqb type "current_time" then
    ret (Some (Some (JNum now)))
  else if String.eqb type "user_bucket" then
    let salt := rec_get (additionalValues condition) "salt" in
    let* unitID := lift (unit_or_empty (_getUnitID user idType)) in
    let* userHash :=
      computeUserHash (String_opt salt +:+ "." +:+ unitID) in
    ret (Some (Some (JNum (Z.rem userHash USER_BUCKET_COUNT))))
  else if String.eqb type "unit_id" then
    match _getUnitID user idType with
    | Some (Inherited _) => raise
    | Some (Own unitID) => ret (Some (Some (JStr unitID)))
    | None => ret (Some None)
    end
  else ret None.

Definition _evalCondition (user : StatsigUser) (condition : ConfigCondition)
  : M ConditionResult :=
  let target := targetValue condition in
  let type := toLowerCase (cond_type condition) in
  if String.eqb type "public" then ret (condition_passes true)
  else if String.eqb type "fail_gate" || String.eqb type "pass_gate" then
    let* gateResult := checkGate user (String_opt target) in
    if unsupported gateResult then ret condition_unsupported
    else
      let value := value gateResult in
      let allExposures :=
        secondary_exposures gateResult ++
        [{| gate := String_opt target;
            gateValue := String_bool value;
            ruleID := rule_id gateResult |}] in
      ret {| passes := if String.eqb type "fail_gate"
                       then negb value else value;
             cond_unsupported := false;
             exposures := Some allExposures |}
  else if String.eqb type "multi_pass_gate"
          || String.eqb type "multi_fail_gate" then
    match target with
    | Some (JArr gateNames) =>
        multi_gate_loop user (cond_type condition) gateNames []
    | _ => ret condition_unsupported
    end
  else
    let* value := condition_value user condition type in
    match value with
    | None => ret condition_unsupported
    | Some value =>
        let op := toLowerCase <$> operator condition in
        match applyOperator (idLists (store (specStore this))) op value
                target with
        | None => ret condition_unsupported
        | Some evalResult => ret (condition_passes evalResult)
        end
    end.

(** The loop of [_evalRule]; [None] when a condition is unsupported. *)
Fixpoint rule_loop (user : StatsigUser) (conds : list ConfigCondition)
    (pass : bool) (secondaryExposures : list SecondaryExposure)
  : M (option (bool * list SecondaryExposure)) :=
  match conds with
  | [] => ret (Some (pass, secondaryExposures))
  | condition :: rest =>
      let* result := _evalCondition user condition in
      if cond_unsupported result then ret None
      else
        let pass := if negb (passes result) then false else pass in
        let secondaryExposures :=
          match exposures result with
          | Some exposures => secondaryExposures ++ exposures
          | None => secondaryExposures
          end in
        rule_loop user rest pass secondaryExposures
  end.

Definition _evalRule (user : StatsigUser) (rule : ConfigRule)
  : M ConfigEvaluation :=
  let* looped := rule_loop user (conditions rule) true [] in
  match looped with
  | None =>
      ret (ConfigEvaluation_unsupported
             (getLastUpdateTime (specStore this))
             (getInitialUpdateTime (specStore this))
             None)
  | Some (pass, secondaryExposures) =>
      let evaluation :=
        ConfigEvaluation_new pass (rule_id_ rule) (groupName rule)
          secondaryExposures (returnValue rule) None None None false in
      ret (setIsExperimentGroup evaluation
             (default false (isExperimentGroup rule)))
  end.

End Evaluation.

(** The five assignments [_evalDelegate] makes on the delegate's result. *)
Definition delegated (delegatedResult : ConfigEvaluation) (rule : ConfigRule)
    (config : ConfigSpec) (exposures : list SecondaryExposure)
  : ConfigEvaluation :=
  {| value := value delegatedResult;
     rule_id := rule_id delegatedResult;
     secondary_exposures := exposures ++ secondary_exposures delegatedResult;
     json_value := json_value delegatedResult;
     explicit_parameters := explicitParameters config;
     config_delegate := configDelegate rule;
     unsupported := unsupported delegatedResult;
     undelegated_secondary_exposures := Some exposures;
     is_experiment_group := is_experiment_group delegatedResult;
     group_name := match group_name delegatedResult with
                   | Some g => Some g
                   | None => groupName rule
                   end;
     evaluation_details := evaluation_details delegatedResult;
     configVersion := configVersion delegatedResult |}.

Section Eval.
Context `{Externals}.
Variable this : Evaluator.

Section Body.
Variable this_eval : StatsigUser -> ConfigSpec -> M ConfigEvaluation.

Definition _evalDelegate (user : StatsigUser) (rule : ConfigRule)
    (exposures : list SecondaryExposure) : M (option ConfigEvaluation) :=
  match configDelegate rule with
  | None => ret None
  | Some delegate =>
      match getConfig (specStore this) delegate with
      | None => ret None
      | Some config =>
          let* delegatedResult := this_eval user config in
          ret (Some (delegated delegatedResult rule config exposures))
      end
  end.

(** The loop of [_eval] over [config.rules], from the rule at hand on;
    [gathered] is the local [secondary_exposures]. *)
Fixpoint eval_rules (user : StatsigUser) (config : ConfigSpec)
    (rules : list ConfigRule)
    (gathered : list SecondaryExposure)
  : M ConfigEvaluation :=
  match rules with
  | [] =>
      ret (ConfigEvaluation_new false "default" None gathered
             (defaultValue config) (explicitParameters config) None
             (version config) false)
  | rule :: rest =>
      let* ruleResult := _evalRule this this_eval user rule in
      if unsupported ruleResult then
        ret (ConfigEvaluation_unsupported
               (getLastUpdateTime (specStore this))
               (getInitialUpdateTime (specStore this))
               (version config))
      else
        let gathered := gathered ++ secondary_exposures ruleResult in
        if value ruleResult then
          let* delegatedResult :=
            _evalDelegate user rule gathered in
          match delegatedResult with
          | Some delegatedResult => ret delegatedResult
          | None =>
              let* pass := _evalPassPercent user rule config in
              let evaluation :=
                ConfigEvaluation_new pass (rule_id ruleResult)
                  (group_name ruleResult) gathered
                  (if pass then json_value ruleResult
                   else defaultValue config)
                  (explicitParameters config)
                  (config_delegate ruleResult) (version config) false in
              ret (setIsExperimentGroup evaluation
                     (is_experiment_group ruleResult))
          end
        else eval_rules user config rest gathered
  end.

Definition _eval_body (user : StatsigUser) (config : ConfigSpec)
  : M ConfigEvaluation :=
  if negb (enabled config) then
    ret (ConfigEvaluation_new false "disabled" None []
           (defaultValue config) None None (version config) false)
  else eval_rules user config (rules config) [].

End Body.

(** [_eval], with the depth of nested [_eval] calls bounded by [fuel];
    running out yields nothing. *)
Fixpoint _eval (fuel : nat) (user : StatsigUser) (config : ConfigSpec)
  : M ConfigEvaluation :=
  match fuel with
  | O => raise
  | S fuel => _eval_body (_eval fuel) user config
  end.

End Eval.

(** ** Evaluator: the client initialize response

    [getClientInitializeResponse] receives its user by reference, deletes a
    property of that object, and returns the same reference inside the
    payload.  User objects therefore live in a heap addressed by location;
    the method takes the heap and the argument's location and returns the
    heap it leaves. *)

Definition loc : Type := positive.
Abbreviation Heap := (gmap loc StatsigUser).

Record GateResponse : Type := {
  gr_name : string;
  gr_value : bool;
  gr_rule_id : string;
  gr_secondary_exposures : list SecondaryExposure;
  gr_id_type : option string;
}.

Record InitializeResponse : Type := {
  ir_name : string;
  ir_value : JSON;
  ir_group : string;
  ir_rule_id : string;
  ir_is_device_based : bool;
  ir_secondary_exposures : list SecondaryExposure;
  ir_is_experiment_active : option bool;
  ir_is_user_in_experiment : option bool;
  ir_is_in_layer : option bool;
  ir_allocated_experiment_name : option string;
  ir_explicit_parameters : option (list string);
  ir_undelegated_secondary_exposures : option (list SecondaryExposure);
  ir_group_name : option string;
  ir_id_type : option string;
}.

Record ClientInitializeResponse : Type := {
  cir_feature_gates : Rec GateResponse;
  cir_dynamic_configs : Rec InitializeResponse;
  cir_layer_configs : Rec InitializeResponse;
  cir_sdkParams : Rec JSON;
  cir_has_updates : bool;
  cir_generator : string;
  cir_sdkInfo : string * string;
  cir_time : JSON;
  cir_evaluated_keys : Rec JSON;
  cir_hash_used : HashingAlgorithm;
  cir_user : loc;
}.

(** The own enumerable properties an object spread [{...v}] copies. *)
Definition spread_entries (v : JSON) : list (string * JSON) :=
  match v with
  | JStr s => imap (fun i c => (pretty i, JStr c)) (string_chars s)
  | _ => Object_entries v
  end.

(** [{...a, ...b}] *)
Definition spread2 (a b : JSON) : Rec JSON :=
  fold_left (fun acc kv => rec_set acc (fst kv) (snd kv))
    (spread_entries a ++ spread_entries b) [].

(** [Object.assign({}, ...items.map((item) => ({ [key(item)]: item })))] *)
Definition keyed {V} (key : V -> string) (items : list V) : Rec V :=
  fold_left (fun acc item => rec_set acc (key item) item) items [].

Definition _isExperimentActive (experimentConfig : option ConfigSpec) : bool :=
  match experimentConfig with
  | None => false
  | Some experimentConfig =>
      match isActive experimentConfig with
      | Some true => true
      | _ => false
      end
  end.

Section ClientInitialize.
Context `{Externals}.
Variable this : Evaluator.
Variable fuel : nat.

Definition _isUserAllocatedToExperiment (user : StatsigUser)
    (experimentConfig : option ConfigSpec) : M bool :=
  match experimentConfig with
  | None => ret false
  | Some experimentConfig =>
      let* evalResult := _eval this fuel user experimentConfig in
      ret (is_experiment_group evalResult)
  end.

Definition _specToInitializeResponse (spec : ConfigSpec)
    (res : ConfigEvaluation) (hash : option HashingAlgorithm)
  : InitializeResponse :=
  {| ir_name := hashString (name spec) hash;
     ir_value := if unsupported res then JObj [] else json_value res;
     ir_group := rule_id res;
     ir_rule_id := rule_id res;
     ir_is_device_based :=
       match idType spec with
       | Some t => String.eqb (toLowerCase t) "stableid"
       | None => false
       end;
     ir_secondary_exposures := _cleanExposures (secondary_exposures res);
     ir_is_experiment_active := None;
     ir_is_user_in_experiment := None;
     ir_is_in_layer := None;
     ir_allocated_experiment_name := None;
     ir_explicit_parameters :=
       match explicit_parameters res with
       | Some ps => Some ps
       | None => None
       end;
     ir_undelegated_secondary_exposures := None;
     ir_group_name :=
       match group_name res with
       | Some g => if String.eqb g "" then None else Some g
       | None => None
       end;
     ir_id_type := None |}.

Definition gate_entry (user : StatsigUser) (hash : option HashingAlgorithm)
    (entry : string * ConfigSpec) : M (option GateResponse) :=
  let '(gate, spec) := entry in
  if String.eqb (entity spec) "segment" || String.eqb (entity spec) "holdout"
  then ret None
  else
    let* res := _eval this fuel user spec in
    ret (Some {| gr_name := hashString gate hash;
                 gr_value := if unsupported res then false else value res;
                 gr_rule_id := rule_id res;
                 gr_secondary_exposures :=
                   _cleanExposures (secondary_exposures res);
                 gr_id_type := idType spec |}).

Definition config_entry (user : StatsigUser)
    (hash : option HashingAlgorithm) (entry : string * ConfigSpec)
  : M InitializeResponse :=
  let '(config, spec) := entry in
  let* res := _eval this fuel user spec in
  let format := _specToInitializeResponse spec res hash in
  let id_type :=
    match idType spec with
    | Some t => Some t
    | None => ir_id_type format
    end in
  if negb (String.eqb (entity spec) "dynamic_config")
     && negb (String.eqb (entity spec) "autotune")
  then
    let* allocated := _isUserAllocatedToExperiment user (Some spec) in
    let active := _isExperimentActive (Some spec) in
    let layerValue :=
      match getExperimentLayer (specStore this) (name spec) with
      | Some layerName =>
          match getLayer (specStore this) layerName with
          | Some layer => defaultValue layer
          | None => JObj []
          end
      | None => JObj []
      end in
    ret {| ir_name := ir_name format;
           ir_value :=
             if hasSharedParams spec
             then JObj (spread2 layerValue (ir_value format))
             else ir_value format;
           ir_group := ir_group format;
           ir_rule_id := ir_rule_id format;
           ir_is_device_based := ir_is_device_based format;
           ir_secondary_exposures := ir_secondary_exposures format;
           ir_is_experiment_active := Some active;
           ir_is_user_in_experiment := Some allocated;
           ir_is_in_layer :=
             if hasSharedParams spec then Some true
             else ir_is_in_layer format;
           ir_allocated_experiment_name :=
             ir_allocated_experiment_name format;
           ir_explicit_parameters :=
             if hasSharedParams spec
             then Some (default [] (explicitParameters spec))
             else ir_explicit_parameters format;
           ir_undelegated_secondary_exposures :=
             ir_undelegated_secondary_exposures format;
           ir_group_name := ir_group_name format;
           ir_id_type := id_type |}
  else
    ret {| ir_name := ir_name format;
           ir_value := ir_value format;
           ir_group := ir_group format;
           ir_rule_id := ir_rule_id format;
           ir_is_device_based := ir_is_device_based format;
           ir_secondary_exposures := ir_secondary_exposures format;
           ir_is_experiment_active := ir_is_experiment_active format;
           ir_is_user_in_experiment := ir_is_user_in_experiment format;
           ir_is_in_layer := ir_is_in_layer format;
           ir_allocated_experiment_name :=
             ir_allocated_experiment_name format;
           ir_explicit_parameters := ir_explicit_parameters format;
           ir_undelegated_secondary_exposures :=
             ir_undelegated_secondary_exposures format;
           ir_group_name := ir_group_name format;
           ir_id_type := id_type |}.

Definition layer_entry (user : StatsigUser)
    (hash : option HashingAlgorithm) (entry : string * ConfigSpec)
  : M InitializeResponse :=
  let '(layer, spec) := entry in
  let* res := _eval this fuel user spec in
  let format := _specToInitializeResponse spec res hash in
  let undelegated :=
    _cleanExposures (default [] (undelegated_secondary_exposures res)) in
  let delegate :=
    match config_delegate res with
    | Some d => if String.eqb d "" then None else Some d
    | None => None
    end in
  match delegate with
  | Some config_delegate =>
      let delegateSpec := getConfig (specStore this) config_delegate in
      let active := _isExperimentActive delegateSpec in
      let* allocated := _isUserAllocatedToExperiment user delegateSpec in
      ret {| ir_name := ir_name format;
             ir_value := ir_value format;
             ir_group := ir_group format;
             ir_rule_id := ir_rule_id format;
             ir_is_device_based := ir_is_device_based format;
             ir_secondary_exposures := ir_secondary_exposures format;
             ir_is_experiment_active := Some active;
             ir_is_user_in_experiment := Some allocated;
             ir_is_in_layer := ir_is_in_layer format;
             ir_allocated_experiment_name :=
               Some (hashString config_delegate hash);
             ir_explicit_parameters :=
               Some (default []
                       (match delegateSpec with
                        | Some d => explicitParameters d
                        | None => None
                        end));
             ir_undelegated_secondary_exposures := Some undelegated;
             ir_group_name := ir_group_name format;
             ir_id_type := ir_id_type format |}
  | None =>
      ret {| ir_name := ir_name format;
             ir_value := ir_value format;
             ir_group := ir_group format;
             ir_rule_id := ir_rule_id format;
             ir_is_device_based := ir_is_device_based format;
             ir_secondary_exposures := ir_secondary_exposures format;
             ir_is_experiment_active := ir_is_experiment_active format;
             ir_is_user_in_experiment := ir_is_user_in_experiment format;
             ir_is_in_layer := ir_is_in_layer format;
             ir_allocated_experiment_name :=
               ir_allocated_experiment_name format;
             ir_explicit_parameters :=
               Some (default [] (explicitParameters spec));
             ir_undelegated_secondary_exposures := Some undelegated;
             ir_group_name := ir_group_name format;
             ir_id_type := ir_id_type format |}
  end.

Definition evaluated_keys_of (user : StatsigUser) : Rec JSON :=
  let evaluatedKeys : Rec JSON := [] in
  let evaluatedKeys :=
    match userID user with
    | Some id =>
        if negb (String.eqb id "")
        then rec_set evaluatedKeys "userID" (JStr id)
        else evaluatedKeys
    | None => evaluatedKeys
    end in
  match customIDs user with
  | Some ids =>
      if (0 <? length (rec_keys ids))%nat
      then rec_set evaluatedKeys "customIDs" (strings_object ids)
      else evaluatedKeys
  | None => evaluatedKeys
  end.

(** [user] is the location of the argument object in [heap]. *)
Definition getClientInitializeResponse (heap : Heap) (user : loc)
    (hash : option HashingAlgorithm)
  : M (option ClientInitializeResponse * Heap) :=
  if negb (isServingChecks (specStore this)) then ret (None, heap)
  else
    let* u := lift (heap !! user) in
    let* gates := run_all (gate_entry u hash) (getAllGates (specStore this)) in
    let gates := omap id gates in
    let* configs :=
      run_all (config_entry u hash) (getAllConfigs (specStore this)) in
    let* layers :=
      run_all (layer_entry u hash) (getAllLayers (specStore this)) in
    let evaluatedKeys := evaluated_keys_of u in
    let heap := <[user := delete_privateAttributes u]> heap in
    ret (Some {| cir_feature_gates := keyed gr_name gates;
                 cir_dynamic_configs := keyed ir_name configs;
                 cir_layer_configs := keyed ir_name layers;
                 cir_sdkParams := [];
                 cir_has_updates := true;
                 cir_generator := "statsig-node-lite-sdk";
                 cir_sdkInfo := (getSDKType, getSDKVersion);
                 cir_time := getLastUpdateTime (specStore this);
                 cir_evaluated_keys := evaluatedKeys;
                 cir_hash_used := default sha256 hash;
                 cir_user := user |},
         heap).

End ClientInitialize.

(** ** Evaluator: the catalog listings

    [getFeatureGateList], [getConfigsList] and [getLayerList] walk
    [Object.entries] of the store's dictionaries and keep the keys. *)

Definition getFeatureGateList (this : Evaluator) : list string :=
  let gates := getAllGates (specStore this) in
  map (fun entry => fst entry) gates.

Definition getConfigsList (this : Evaluator) (entityType : string)
  : list string :=
  let configs := getAllConfigs (specStore this) in
  map (fun entry => fst entry)
    (List.filter (fun entry => String.eqb (entity (snd entry)) entityType)
       configs).

Definition getLayerList (this : Evaluator) : list string :=
  let layers := getAllLayers (specStore this) in
  map (fun entry => fst entry) layers.

(** ** Evaluator: comparing versions

    [versionCompare] and the helpers around it.  [Number(s)] for a
    string is a built-in with a grammar of its own; it is a parameter
    here, with a binary64 ([NaN] included) as its result. *)

Section Versions.
Variable Number_ : string -> float.

(** [s.split(sep)] for a one-character separator. *)
Fixpoint split_on (sep : ascii) (s : string) : list string :=
  match s with
  | EmptyString => [EmptyString]
  | String c s' =>
      if Ascii.eqb c sep then EmptyString :: split_on sep s'
      else
        match split_on sep s' with
        | [] => [String c EmptyString]
        | part :: parts => String c part :: parts
        end
  end.

Definition removeVersionExtension (version : string) : string :=
  let hyphenIndex := String.index 0 "-" version in
  match hyphenIndex with
  | Some hyphenIndex => String.substring 0 hyphenIndex version
  | None => version
  end.

(** The loop of [versionCompare] from index [i] on, [steps] iterations
    of it.  A part the shorter array lacks is written as ["0"] when the
    loop reaches it, which leaves the bound of the loop as it was;
    [n1 > n2] is [n2 < n1]; a [Number] always has type number. *)
Fixpoint version_loop (steps i : nat) (parts1 parts2 : list string)
  : option Z :=
  match steps with
  | O => Some 0
  | S steps =>
      let part1 := nth i parts1 "0" in
      let part2 := nth i parts2 "0" in
      let n1 := Number_ part1 in
      let n2 := Number_ part2 in
      if PrimFloat.is_nan n1 || PrimFloat.is_nan n2 then None
      else if PrimFloat.ltb n1 n2 then Some (-1)
      else if PrimFloat.ltb n2 n1 then Some 1
      else version_loop steps (S i) parts1 parts2
  end.

(** [versionCompare(first, second)]; [None] is [null]. *)
Definition versionCompare (first second : option JSON) : option Z :=
  match first, second with
  | Some (JStr first), Some (JStr second) =>
      let version1 := removeVersionExtension first in
      let version2 := removeVersionExtension second in
      if (String.length version1 =? 0)%nat
         || (String.length version2 =? 0)%nat
      then None
      else
        let parts1 := split_on "." version1 in
        let parts2 := split_on "." version2 in
        version_loop (Nat.max (length parts1) (length parts2)) 0
          parts1 parts2
  | _, _ => None
  end.

Definition versionCompareHelper (fn : Z -> bool) (a b : option JSON)
  : bool :=
  let comparison := versionCompare a b in
  match comparison with
  | None => false
  | Some comparison => fn comparison
  end.

(** The six version cases of the operator switch that closes
    [_evalCondition]; [None] for any other operator. *)
Definition version_operator (op : string) (value target : option JSON)
  : option bool :=
  if String.eqb op "version_gt"
  then Some (versionCompareHelper (fun result => result >? 0) value target)
  else if String.eqb op "version_gte"
  then Some (versionCompareHelper (fun result => result >=? 0) value target)
  else if String.eqb op "version_lt"
  then Some (versionCompareHelper (fun result => result <? 0) value target)
  else if String.eqb op "version_lte"
  then Some (versionCompareHelper (fun result => result <=? 0) value target)
  else if String.eqb op "version_eq"
  then Some (versionCompareHelper (fun result => result =? 0) value target)
  else if String.eqb op "version_neq"
  then Some (versionCompareHelper (fun result => negb (result =? 0))
               value target)
  else None.

End Versions.

(** ** StatsigOptions

    The options object a caller passes is a dictionary of arbitrary
    values; [OptionsWithDefaults] reads each key through a getter that
    checks the type and falls back on a default. *)

Module StatsigOptions.

(** A value found under a key of the options object.  A number is a
    binary64, [NaN] and the infinities included; an environment is a
    plain object of strings; a logger or a data adapter is some other
    object, known by its identity only, and so is a function. *)
Inductive OptionValue : Type :=
| OptNull
| OptBoolean (b : bool)
| OptNumber (x : float)
| OptString (s : string)
| OptObject (fields : Rec string)
| OptOpaque (ref : positive)
| OptFunction (ref : positive).

Definition StatsigOptions : Type := Rec OptionValue.

(** [!!v] *)
Definition is_truthy (v : option OptionValue) : bool :=
  match v with
  | None | Some OptNull => false
  | Some (OptBoolean b) => b
  | Some (OptNumber x) => negb (PrimFloat.is_nan x || PrimFloat.is_zero x)
  | Some (OptString s) => negb (String.eqb s "")
  | Some (OptObject _) | Some (OptOpaque _) | Some (OptFunction _) => true
  end.

(** [Math.max(a, b)] and [Math.min(a, b)]: [NaN] when an argument is
    [NaN]; of two zeros, the positive one is the larger. *)
Definition Math_max (a b : float) : float :=
  if PrimFloat.is_nan a || PrimFloat.is_nan b then nan
  else if PrimFloat.ltb a b then b
  else if PrimFloat.ltb b a then a
  else if PrimFloat.get_sign a then b else a.

Definition Math_min (a b : float) : float :=
  if PrimFloat.is_nan a || PrimFloat.is_nan b then nan
  else if PrimFloat.ltb b a then b
  else if PrimFloat.ltb a b then a
  else if PrimFloat.get_sign a then a else b.

(** [s.endsWith(p)] *)
Definition endsWith (s p : string) : bool :=
  (String.length p <=? String.length s)%nat
  && String.eqb
       (String.substring (String.length s - String.length p)
          (String.length p) s) p.

(** [s.slice(0, -1)] *)
Definition slice_0_m1 (s : string) : string :=
  String.substring 0 (String.length s - 1) s.

Definition DEFAULT_API : string := "https://statsigapi.net/v1".
Definition DEFAULT_RULESETS_SYNC_INTERVAL : float := (10 * 1000)%float.
Definition MIN_RULESETS_SYNC_INTERVAL : float := (5 * 1000)%float.
Definition DEFAULT_ID_LISTS_SYNC_INTERVAL : float := (60 * 1000)%float.
Definition MIN_ID_LISTS_SYNC_INTERVAL : float := (30 * 1000)%float.
Definition DEFAULT_LOGGING_INTERVAL : float := (60 * 1000)%float.
Definition DEFAULT_MAX_LOGGING_BUFFER_SIZE : float := 1000%float.
Definition DEFAULT_LOG_DIAGNOSTICS : bool := false.
Definition DEFAULT_POST_LOGS_RETRY_LIMIT : float := 5%float.
Definition DEFAULT_POST_LOGS_RETRY_BACKOFF : float := 1000%float.

(** The global [console], the logger of last resort. *)
Definition console : OptionValue := OptOpaque 1%positive.

(** The options the SDK works with; a field that may be [null] is an
    [option]. *)
Record ExplicitStatsigOptions : Type := {
  api : string;
  apiForDownloadConfigSpecs : option string;
  bootstrapValues : option string;
  environment : option (Rec string);
  rulesUpdatedCallback : option OptionValue;
  logger : OptionValue;
  localMode : bool;
  initTimeoutMs : float;
  dataAdapter : option OptionValue;
  rulesetsSyncIntervalMs : float;
  idListsSyncIntervalMs : float;
  loggingIntervalMs : float;
  loggingMaxBufferSize : float;
  disableDiagnostics : bool;
  initStrategyForIP3Country : string;
  initStrategyForIDLists : string;
  postLogsRetryLimit : float;
  postLogsRetryBackoff : OptionValue;
}.

Definition getBoolean (inputOptions : StatsigOptions) (index : string)
    (defaultValue : bool) : bool :=
  let b := rec_get inputOptions index in
  match b with
  | Some (OptBoolean b) => b
  | _ => defaultValue
  end.

Definition getString (inputOptions : StatsigOptions) (index : string)
    (defaultValue : option string) : option string :=
  let str := rec_get inputOptions index in
  match str with
  | Some (OptString str) => Some str
  | _ => defaultValue
  end.

(** [getObject], with the cast of its result to [StatsigEnvironment]
    that the one call site applies: the string fields of the object, of
    which an object that is no dictionary of strings has none. *)
Definition getObject (inputOptions : StatsigOptions) (index : string)
    (defaultValue : Rec string) : Rec string :=
  let obj := rec_get inputOptions index in
  match obj with
  | Some (OptObject obj) => obj
  | Some (OptOpaque _) => []
  | _ => defaultValue
  end.

Definition getFunction (inputOptions : StatsigOptions) (index : string)
  : option OptionValue :=
  let func := rec_get inputOptions index in
  match func with
  | Some (OptFunction f) => Some (OptFunction f)
  | _ => None
  end.

Definition getNumber (inputOptions : StatsigOptions) (index : string)
    (defaultValue : float) : float :=
  let obj := rec_get inputOptions index in
  match obj with
  | Some (OptNumber obj) => obj
  | _ => defaultValue
  end.

Definition normalizeUrl (url : option string) : option string :=
  match url with
  | Some s =>
      if negb (String.eqb s "") && endsWith s "/"
      then Some (slice_0_m1 s) else url
  | None => url
  end.

(** [v ?? d] on an option value. *)
Definition or_else (v : option OptionValue) (d : OptionValue) : OptionValue :=
  match v with
  | None | Some OptNull => d
  | Some v => v
  end.

Definition OptionsWithDefaults (opts : StatsigOptions)
  : ExplicitStatsigOptions :=
  {| api :=
       default DEFAULT_API
         (normalizeUrl
            (Some (default DEFAULT_API
                     (getString opts "api" (Some DEFAULT_API)))));
     apiForDownloadConfigSpecs :=
       normalizeUrl (getString opts "apiForDownloadConfigSpecs" None);
     bootstrapValues := getString opts "bootstrapValues" None;
     environment :=
       if is_truthy (rec_get opts "environment")
       then Some (getObject opts "environment" [])
       else None;
     rulesUpdatedCallback :=
       if is_truthy (rec_get opts "rulesUpdatedCallback")
       then getFunction opts "rulesUpdatedCallback"
       else None;
     localMode := getBoolean opts "localMode" false;
     initTimeoutMs := getNumber opts "initTimeoutMs" 0%float;
     logger := or_else (rec_get opts "logger") console;
     dataAdapter :=
       match rec_get opts "dataAdapter" with
       | None | Some OptNull => None
       | Some v => Some v
       end;
     rulesetsSyncIntervalMs :=
       Math_max
         (getNumber opts "rulesetsSyncIntervalMs"
            DEFAULT_RULESETS_SYNC_INTERVAL)
         MIN_RULESETS_SYNC_INTERVAL;
     idListsSyncIntervalMs :=
       Math_max
         (getNumber opts "idListsSyncIntervalMs"
            DEFAULT_ID_LISTS_SYNC_INTERVAL)
         MIN_ID_LISTS_SYNC_INTERVAL;
     loggingIntervalMs :=
       getNumber opts "loggingIntervalMs" DEFAULT_LOGGING_INTERVAL;
     loggingMaxBufferSize :=
       Math_min
         (getNumber opts "loggingMaxBufferSize"
            DEFAULT_MAX_LOGGING_BUFFER_SIZE)
         DEFAULT_MAX_LOGGING_BUFFER_SIZE;
     disableDiagnostics :=
       getBoolean opts "disableDiagnostics" DEFAULT_LOG_DIAGNOSTICS;
     initStrategyForIP3Country :=
       default "await"
         (getString opts "initStrategyForIP3Country" (Some "await"));
     initStrategyForIDLists :=
       default "await"
         (getString opts "initStrategyForIDLists" (Some "await"));
     postLogsRetryLimit :=
       getNumber opts "postLogsRetryLimit" DEFAULT_POST_LOGS_RETRY_LIMIT;
     postLogsRetryBackoff :=
       or_else (rec_get opts "postLogsRetryBackoff")
         (OptNumber DEFAULT_POST_LOGS_RETRY_BACKOFF) |}.

End StatsigOptions.

(** ** StatsigServer: the user handed to the evaluator

    Before a user reaches the evaluator, [StatsigServer] trims it when it
    is too large and copies it through JSON.  Trimming assigns to the
    caller's object, so these functions work on the heap of user
    objects. *)

Module StatsigServer.

Definition MAX_VALUE_SIZE : Z := 64.
Definition MAX_OBJ_SIZE : Z := 2048.
Definition MAX_USER_SIZE : Z := 2048.

(** [approximateObjectSize(x)]: over [Object.entries(x)], the length of
    each key plus the size of its value, an object or array by recursion
    and anything else by the length of its string form. *)
Fixpoint approximateObjectSize (x : JSON) : Z :=
  match x with
  | JObj fields =>
      (fix loop (entries : list (string * JSON)) (size : Z) : Z :=
         match entries with
         | [] => size
         | (key, value) :: rest =>
             let size :=
               match value with
               | JObj _ | JArr _ => size + approximateObjectSize value
               | _ => size + Z.of_nat (String.length (String_ value))
               end in
             loop rest (size + Z.of_nat (String.length key))
         end) fields 0
  | JArr elems =>
      (fix loop (i : nat) (entries : list JSON) (size : Z) : Z :=
         match entries with
         | [] => size
         | value :: rest =>
             let size :=
               match value with
               | JObj _ | JArr _ => size + approximateObjectSize value
               | _ => size + Z.of_nat (String.length (String_ value))
               end in
             loop (S i) rest (size + Z.of_nat (String.length (pretty i)))
         end) 0%nat elems 0
  | JStr s =>
      fold_left
        (fun size entry =>
           size + Z.of_nat (String.length (String_ (snd entry)))
           + Z.of_nat (String.length (fst entry)))
        (spread_entries (JStr s)) 0
  | _ => 0
  end.

Definition shouldTrimParam (param : option JSON) (size : Z) : bool :=
  match param with
  | None | Some JNull => false
  | Some (JStr param) => Z.of_nat (String.length param) >? size
  | Some (JObj _ as param) | Some (JArr _ as param) =>
      approximateObjectSize param >? size
  | Some (JNum param) => Z.of_nat (String.length (pretty param)) >? size
  | Some (JBool _) => false
  end.

(** The user object as a value: its own properties. *)
Definition user_entries (user : StatsigUser) : list (string * JSON) :=
  match userID user with Some id => [("userID", JStr id)] | None => [] end
  ++ match customIDs user with
     | Some ids => [("customIDs", strings_object ids)]
     | None => []
     end
  ++ match custom user with Some c => [("custom", JObj c)] | None => [] end
  ++ match privateAttributes user with
     | Some p => [("privateAttributes", JObj p)]
     | None => []
     end
  ++ match statsigEnvironment user with
     | Some e => [("statsigEnvironment", strings_object e)]
     | None => []
     end
  ++ otherFields user.

Definition user_object (user : StatsigUser) : JSON :=
  JObj (user_entries user).

Definition set_userID (user : StatsigUser) (id : string) : StatsigUser :=
  {| userID := Some id;
     customIDs := customIDs user;
     custom := custom user;
     privateAttributes := privateAttributes user;
     statsigEnvironment := statsigEnvironment user;
     otherFields := otherFields user |}.

Definition set_custom (user : StatsigUser) (c : Rec JSON) : StatsigUser :=
  {| userID := userID user;
     customIDs := customIDs user;
     custom := Some c;
     privateAttributes := privateAttributes user;
     statsigEnvironment := statsigEnvironment user;
     otherFields := otherFields user |}.

Definition set_statsigEnvironment (user : StatsigUser) (e : Rec string)
  : StatsigUser :=
  {| userID := userID user;
     customIDs := customIDs user;
     custom := custom user;
     privateAttributes := privateAttributes user;
     statsigEnvironment := Some e;
     otherFields := otherFields user |}.

(** A new object: it goes to a location the heap does not use. *)
Definition alloc (heap : Heap) (user : StatsigUser) : Heap * loc :=
  let l := fresh (dom heap) in
  (<[l := user]> heap, l).

Definition user_id_too_large : string :=
  "statsigSDK> User ID is too large, trimming to 64".
Definition user_only_id : string :=
  "statsigSDK> User object is too large, only keeping the user ID.".
Definition user_custom_dropped : string :=
  "statsigSDK> User object is too large, dropping the custom property.".
Definition too_large_marker : Rec JSON :=
  [("statsig_error", JStr "User object length too large")].

(** [trimUserObjIfNeeded(user)]: the heap it leaves, the reference it
    returns and the warnings it logs.  [None] for a reference that
    points nowhere, which no caller can produce. *)
Definition trimUserObjIfNeeded (heap : Heap) (user : option loc)
  : option (Heap * loc * list Effect) :=
  match user with
  | None =>
      let '(heap, l) :=
        alloc heap {| userID := None; customIDs := Some []; custom := None;
                      privateAttributes := None; statsigEnvironment := None;
                      otherFields := [] |} in
      Some (heap, l, [])
  | Some user =>
      match heap !! user with
      | None => None
      | Some u =>
          let '(u, warned) :=
            match userID u with
            | Some id =>
                if shouldTrimParam (Some (JStr id)) MAX_VALUE_SIZE
                then (set_userID u
                        (String.substring 0 (Z.to_nat MAX_VALUE_SIZE) id),
                      [Warn user_id_too_large])
                else (u, [])
            | None => (u, [])
            end in
          if shouldTrimParam (Some (user_object u)) MAX_USER_SIZE then
            let u := set_custom u too_large_marker in
            if shouldTrimParam (Some (user_object u)) MAX_USER_SIZE then
              let '(heap, l) :=
                alloc (<[user := u]> heap)
                  {| userID := userID u;
                     customIDs := Some (default [] (customIDs u));
                     custom := None; privateAttributes := None;
                     statsigEnvironment := None; otherFields := [] |} in
              Some (heap, l, warned ++ [Warn user_only_id])
            else
              Some (<[user := u]> heap, user,
                    warned ++ [Warn user_custom_dropped])
          else Some (<[user := u]> heap, user, warned)
      end
  end.

(** [normalizeUser(user, options)]: trim, copy through JSON, stamp the
    environment of the options on the copy.  The values of the model
    come back from [JSON.parse(JSON.stringify(...))] as they went in, so
    the copy is a new object with the same fields. *)
Definition normalizeUser (heap : Heap) (user : option loc)
    (options : StatsigOptions.ExplicitStatsigOptions)
  : option (Heap * loc * list Effect) :=
  match trimUserObjIfNeeded heap user with
  | None => None
  | Some (heap, user, warned) =>
      match heap !! user with
      | None => None
      | Some u =>
          let copy :=
            match StatsigOptions.environment options with
            | Some e => set_statsigEnvironment u e
            | None => u
            end in
          let '(heap, l) := alloc heap copy in
          Some (heap, l, warned)
      end
  end.

Record StatsigServer : Type := {
  _ready : bool;
  _options : StatsigOptions.ExplicitStatsigOptions;
  _evaluator : Evaluator;
}.

(** The task [getClientInitializeResponse] hands to the error boundary:
    what it returns or throws, the heap and the warnings. *)
Definition getClientInitializeResponse `{Externals} (this : StatsigServer)
    (fuel : nat) (heap : Heap) (user : loc) (hash : option HashingAlgorithm)
  : M (completion (option ClientInitializeResponse) * Heap * list Effect) :=
  if negb (_ready this)
  then ret (Throw "StatsigUninitializedError", heap, [])
  else
    let* u := lift (heap !! user) in
    let* normalized :=
      match statsigEnvironment u with
      | None => lift (normalizeUser heap (Some user) (_options this))
      | Some _ => ret (heap, user, [])
      end in
    let '(heap, normalizedUser, warned) := normalized in
    let* response :=
      getClientInitializeResponse (_evaluator this) fuel heap
        normalizedUser hash in
    ret (Return (fst response), snd response, warned).

End StatsigServer.

(** ** Sha256

    The class behind [SHA256(input)].  Its numbers are the integers the
    code keeps them to: [+] and [-] are exact on them, and the bitwise
    operators convert their operands to 32 bits and give a signed 32-bit
    result ([>>>] an unsigned one).  A string is the list of its UTF-16
    code units, which is what [charCodeAt] reads. *)

Module Sha256.

Definition ToInt32 (x : Z) : Z := (x + 2147483648) mod 4294967296 - 2147483648.
Definition ToUint32 (x : Z) : Z := x mod 4294967296.

Declare Scope js_scope.
Delimit Scope js_scope with js.

(** [a | b], [a & b], [a ^ b], [~a], [a << n], [a >> n], [a >>> n] *)
Definition bit_or (a b : Z) : Z := ToInt32 (Z.lor (ToInt32 a) (ToInt32 b)).
Definition bit_and (a b : Z) : Z := ToInt32 (Z.land (ToInt32 a) (ToInt32 b)).
Definition bit_xor (a b : Z) : Z := ToInt32 (Z.lxor (ToInt32 a) (ToInt32 b)).
Definition bit_not (a : Z) : Z := ToInt32 (Z.lnot (ToInt32 a)).
Definition shift_left (a n : Z) : Z :=
  ToInt32 (Z.shiftl (ToInt32 a) (ToUint32 n mod 32)).
Definition shift_right (a n : Z) : Z :=
  Z.shiftr (ToInt32 a) (ToUint32 n mod 32).
Definition shift_right_unsigned (a n : Z) : Z :=
  Z.shiftr (ToUint32 a) (ToUint32 n mod 32).

Notation "a .| b" := (bit_or a b) (at level 50, left associativity) : js_scope.
Notation "a .^ b" := (bit_xor a b) (at level 50, left associativity) : js_scope.
Notation "a .& b" := (bit_and a b) (at level 50, left associativity) : js_scope.
Notation ".~ a" := (bit_not a) (at level 35, right associativity) : js_scope.
Notation "a .<< n" := (shift_left a n) (at level 50, left associativity) : js_scope.
Notation "a .>> n" := (shift_right a n) (at level 50, left associativity) : js_scope.
Notation "a .>>> n" := (shift_right_unsigned a n) (at level 50, left associativity) : js_scope.

(** [array[k]] for a [k] at which the array holds an element. *)
Definition get (array : list Z) (k : Z) : Z := nth (Z.to_nat k) array 0.

(** [array[k] = v]: an element is replaced, the index one past the end
    appends.  (An index further out would leave holes; the code has
    none.) *)
Definition set (array : list Z) (k : Z) (v : Z) : list Z :=
  if (Z.to_nat k <? length array)%nat then <[Z.to_nat k := v]> array
  else array ++ replicate (Z.to_nat k - length array) 0 ++ [v].

(** [array[k] |= v].  A negative [k] names a property of the array
    object, not an element: [undefined | v] goes to a place nothing
    reads, and the elements stay. *)
Definition or_at (array : list Z) (k : Z) (v : Z) : list Z :=
  if k <? 0 then array else set array k (bit_or (get array k) v).

Local Open Scope js_scope.

Definition EXTRA : list Z := [-2147483648; 8388608; 32768; 128].
Definition SHIFT : list Z := [24; 16; 8; 0].
(** The table [K], line by line as the source lays it out. *)
Definition K : list Z :=
  [0x428a2f98; 0x71374491; 0xb5c0fbcf; 0xe9b5dba5; 0x3956c25b; 0x59f111f1]
  ++ [0x923f82a4; 0xab1c5ed5; 0xd807aa98; 0x12835b01; 0x243185be; 0x550c7dc3]
  ++ [0x72be5d74; 0x80deb1fe; 0x9bdc06a7; 0xc19bf174; 0xe49b69c1; 0xefbe4786]
  ++ [0x0fc19dc6; 0x240ca1cc; 0x2de92c6f; 0x4a7484aa; 0x5cb0a9dc; 0x76f988da]
  ++ [0x983e5152; 0xa831c66d; 0xb00327c8; 0xbf597fc7; 0xc6e00bf3; 0xd5a79147]
  ++ [0x06ca6351; 0x14292967; 0x27b70a85; 0x2e1b2138; 0x4d2c6dfc; 0x53380d13]
  ++ [0x650a7354; 0x766a0abb; 0x81c2c92e; 0x92722c85; 0xa2bfe8a1; 0xa81a664b]
  ++ [0xc24b8b70; 0xc76c51a3; 0xd192e819; 0xd6990624; 0xf40e3585; 0x106aa070]
  ++ [0x19a4c116; 0x1e376c08; 0x2748774c; 0x34b0bcb5; 0x391c0cb3; 0x4ed8aa4a]
  ++ [0x5b9cca4f; 0x682e6ff3; 0x748f82ee; 0x78a5636f; 0x84c87814; 0x8cc70208]
  ++ [0x90befffa; 0xa4506ceb; 0xbef9a3f7; 0xc67178f2].

Record Sha256 : Type := {
  blocks : list Z;
  h0 : Z;
  h1 : Z;
  h2 : Z;
  h3 : Z;
  h4 : Z;
  h5 : Z;
  h6 : Z;
  h7 : Z;
  block : Z;
  start : Z;
  bytes : Z;
  hBytes : Z;
  finalized : bool;
  hashed : bool;
  first : bool;
  lastByteIndex : Z;
}.

(** [new Sha256()] *)
Definition Sha256_new : Sha256 :=
  {| blocks := [0; 0; 0; 0; 0; 0; 0; 0; 0; 0; 0; 0; 0; 0; 0; 0; 0];
     h0 := 0x6a09e667;
     h1 := 0xbb67ae85;
     h2 := 0x3c6ef372;
     h3 := 0xa54ff53a;
     h4 := 0x510e527f;
     h5 := 0x9b05688c;
     h6 := 0x1f83d9ab;
     h7 := 0x5be0cd19;
     block := 0; start := 0; bytes := 0; hBytes := 0;
     finalized := false; hashed := false;
     first := true;
     lastByteIndex := -1 |}.

(** The variables [a] to [h] and [bc] of [hash], which live from one
    turn of its second loop to the next. *)
Definition Registers : Type := Z * Z * Z * Z * Z * Z * Z * Z * Z.

(** One turn of the first loop of [hash]. *)
Definition extend (blocks : list Z) (j : Z) : list Z :=
  let t1 := get blocks (j - 15) in
  let s0 := ((t1 .>>> 7) .| (t1 .<< 25)) .^ ((t1 .>>> 18) .| (t1 .<< 14))
            .^ (t1 .>>> 3) in
  let t1 := get blocks (j - 2) in
  let s1 := ((t1 .>>> 17) .| (t1 .<< 15)) .^ ((t1 .>>> 19) .| (t1 .<< 13))
            .^ (t1 .>>> 10) in
  set blocks j ((get blocks (j - 16) + s0 + get blocks (j - 7) + s1) .<< 0).

(** The branch that opens a turn of the second loop: what it leaves in
    [ab], [h] and [d]. *)
Definition open_round (first : bool) (blocks : list Z) (j : Z)
    (r : Registers) : Z * Z * Z :=
  let '(a, b, c, d, e, f, g, h, bc) := r in
  if first then
    let ab := 704751109 in
    let t1 := get blocks 0 - 210244248 in
    let h := (t1 - 1521486534) .<< 0 in
    let d := (t1 + 143694565) .<< 0 in
    (ab, h, d)
  else
    let s0 := ((a .>>> 2) .| (a .<< 30)) .^ ((a .>>> 13) .| (a .<< 19))
              .^ ((a .>>> 22) .| (a .<< 10)) in
    let s1 := ((e .>>> 6) .| (e .<< 26)) .^ ((e .>>> 11) .| (e .<< 21))
              .^ ((e .>>> 25) .| (e .<< 7)) in
    let ab := a .& b in
    let maj := ab .^ (a .& c) .^ bc in
    let ch := (e .& f) .^ ((.~ e) .& g) in
    let t1 := h + s1 + ch + get K j + get blocks j in
    let t2 := s0 + maj in
    let h := (d + t1) .<< 0 in
    let d := (t1 + t2) .<< 0 in
    (ab, h, d).

(** One turn of the second loop of [hash]. *)
Definition round4 (first : bool) (blocks : list Z) (j : Z) (r : Registers)
  : Registers :=
  let '(ab, h, d) := open_round first blocks j r in
  let '(a, b, c, _, e, f, g, _, _) := r in
  let s0 := ((d .>>> 2) .| (d .<< 30)) .^ ((d .>>> 13) .| (d .<< 19))
            .^ ((d .>>> 22) .| (d .<< 10)) in
  let s1 := ((h .>>> 6) .| (h .<< 26)) .^ ((h .>>> 11) .| (h .<< 21))
            .^ ((h .>>> 25) .| (h .<< 7)) in
  let da := d .& a in
  let maj := da .^ (d .& b) .^ ab in
  let ch := (h .& e) .^ ((.~ h) .& f) in
  let t1 := g + s1 + ch + get K (j + 1) + get blocks (j + 1) in
  let t2 := s0 + maj in
  let g := (c + t1) .<< 0 in
  let c := (t1 + t2) .<< 0 in
  let s0 := ((c .>>> 2) .| (c .<< 30)) .^ ((c .>>> 13) .| (c .<< 19))
            .^ ((c .>>> 22) .| (c .<< 10)) in
  let s1 := ((g .>>> 6) .| (g .<< 26)) .^ ((g .>>> 11) .| (g .<< 21))
            .^ ((g .>>> 25) .| (g .<< 7)) in
  let cd := c .& d in
  let maj := cd .^ (c .& a) .^ da in
  let ch := (g .& h) .^ ((.~ g) .& e) in
  let t1 := f + s1 + ch + get K (j + 2) + get blocks (j + 2) in
  let t2 := s0 + maj in
  let f := (b + t1) .<< 0 in
  let b := (t1 + t2) .<< 0 in
  let s0 := ((b .>>> 2) .| (b .<< 30)) .^ ((b .>>> 13) .| (b .<< 19))
            .^ ((b .>>> 22) .| (b .<< 10)) in
  let s1 := ((f .>>> 6) .| (f .<< 26)) .^ ((f .>>> 11) .| (f .<< 21))
            .^ ((f .>>> 25) .| (f .<< 7)) in
  let bc := b .& c in
  let maj := bc .^ (b .& d) .^ cd in
  let ch := (f .& g) .^ ((.~ f) .& h) in
  let t1 := e + s1 + ch + get K (j + 3) + get blocks (j + 3) in
  let t2 := s0 + maj in
  let e := (a + t1) .<< 0 in
  let a := (t1 + t2) .<< 0 in
  (a, b, c, d, e, f, g, h, bc).

(** The second loop of [hash], from [j] on for [turns] turns;
    [this.first] is cleared by the first turn that finds it set. *)
Fixpoint rounds (turns : nat) (first : bool) (blocks : list Z) (j : Z)
    (r : Registers) : Registers :=
  match turns with
  | O => r
  | S turns => rounds turns false blocks (j + 4) (round4 first blocks j r)
  end.

(** [this.hash()] *)
Definition hash (this : Sha256) : Sha256 :=
  let blocks := fold_left extend (seqZ 16 48) (blocks this) in
  let bc := h1 this .& h2 this in
  let '(a, b, c, d, e, f, g, h, _) :=
    rounds 16 (first this) blocks 0
      (h0 this, h1 this, h2 this, h3 this, h4 this, h5 this, h6 this,
       h7 this, bc) in
  {| blocks := blocks;
     h0 := (h0 this + a) .<< 0;
     h1 := (h1 this + b) .<< 0;
     h2 := (h2 this + c) .<< 0;
     h3 := (h3 this + d) .<< 0;
     h4 := (h4 this + e) .<< 0;
     h5 := (h5 this + f) .<< 0;
     h6 := (h6 this + g) .<< 0;
     h7 := (h7 this + h) .<< 0;
     block := block this; start := start this; bytes := bytes this;
     hBytes := hBytes this; finalized := finalized this;
     hashed := hashed this;
     first := false;
     lastByteIndex := lastByteIndex this |}.

(** [blocks[0] = block; blocks[16] = blocks[1] = ... = blocks[15] = 0] *)
Definition restart (blocks : list Z) (block : Z) : list Z :=
  fold_left (fun blocks k => set blocks k 0)
    [15; 14; 13; 12; 11; 10; 9; 8; 7; 6; 5; 4; 3; 2; 1; 16]
    (set blocks 0 block).

(** [blocks[i >> 2] |= byte << SHIFT[i++ & 3]], the store of it. *)
Definition put (blocks : list Z) (i : Z) (byte : Z) : list Z :=
  or_at blocks (i .>> 2) (byte .<< get SHIFT (i .& 3)).

(** The [for] loop of [update]: from byte index [i], over what is left of
    the message; it gives the blocks, the index it stopped at and what it
    left of the message.  A lone leading surrogate at the end pairs with
    [charCodeAt] past the end, which is [NaN], [0] under [&]. *)
Fixpoint fill (blocks : list Z) (i : Z) (message : list Z)
  : list Z * Z * list Z :=
  match message with
  | [] => (blocks, i, [])
  | code :: rest =>
      if i <? 64 then
        if code <? 0x80 then
          let blocks := put blocks i code in
          fill blocks (i + 1) rest
        else if code <? 0x800 then
          let blocks := put blocks i (0xc0 .| (code .>> 6)) in
          let blocks := put blocks (i + 1) (0x80 .| (code .& 0x3f)) in
          fill blocks (i + 2) rest
        else if (code <? 0xd800) || (code >=? 0xe000) then
          let blocks := put blocks i (0xe0 .| (code .>> 12)) in
          let blocks :=
            put blocks (i + 1) (0x80 .| ((code .>> 6) .& 0x3f)) in
          let blocks := put blocks (i + 2) (0x80 .| (code .& 0x3f)) in
          fill blocks (i + 3) rest
        else
          let next := match rest with [] => 0 | next :: _ => next .& 0x3ff end in
          let code := 0x10000 + (((code .& 0x3ff) .<< 10) .| next) in
          let blocks := put blocks i (0xf0 .| (code .>> 18)) in
          let blocks :=
            put blocks (i + 1) (0x80 .| ((code .>> 12) .& 0x3f)) in
          let blocks :=
            put blocks (i + 2) (0x80 .| ((code .>> 6) .& 0x3f)) in
          let blocks := put blocks (i + 3) (0x80 .| (code .& 0x3f)) in
          match rest with
          | [] => (blocks, i + 4, [])
          | _ :: rest => fill blocks (i + 4) rest
          end
      else (blocks, i, message)
  end.

Definition with_blocks (this : Sha256) (blocks : list Z) : Sha256 :=
  {| blocks := blocks;
     h0 := h0 this; h1 := h1 this; h2 := h2 this; h3 := h3 this;
     h4 := h4 this; h5 := h5 this; h6 := h6 this; h7 := h7 this;
     block := block this; start := start this; bytes := bytes this;
     hBytes := hBytes this; finalized := finalized this;
     hashed := hashed this; first := first this;
     lastByteIndex := lastByteIndex this |}.

Definition with_block (this : Sha256) (block : Z) : Sha256 :=
  {| blocks := blocks this;
     h0 := h0 this; h1 := h1 this; h2 := h2 this; h3 := h3 this;
     h4 := h4 this; h5 := h5 this; h6 := h6 this; h7 := h7 this;
     block := block; start := start this; bytes := bytes this;
     hBytes := hBytes this; finalized := finalized this;
     hashed := hashed this; first := first this;
     lastByteIndex := lastByteIndex this |}.

Definition with_start (this : Sha256) (start : Z) : Sha256 :=
  {| blocks := blocks this;
     h0 := h0 this; h1 := h1 this; h2 := h2 this; h3 := h3 this;
     h4 := h4 this; h5 := h5 this; h6 := h6 this; h7 := h7 this;
     block := block this; start := start; bytes := bytes this;
     hBytes := hBytes this; finalized := finalized this;
     hashed := hashed this; first := first this;
     lastByteIndex := lastByteIndex this |}.

Definition with_bytes (this : Sha256) (hBytes bytes : Z) : Sha256 :=
  {| blocks := blocks this;
     h0 := h0 this; h1 := h1 this; h2 := h2 this; h3 := h3 this;
     h4 := h4 this; h5 := h5 this; h6 := h6 this; h7 := h7 this;
     block := block this; start := start this; bytes := bytes;
     hBytes := hBytes; finalized := finalized this;
     hashed := hashed this; first := first this;
     lastByteIndex := lastByteIndex this |}.

Definition with_hashed (this : Sha256) (hashed : bool) : Sha256 :=
  {| blocks := blocks this;
     h0 := h0 this; h1 := h1 this; h2 := h2 this; h3 := h3 this;
     h4 := h4 this; h5 := h5 this; h6 := h6 this; h7 := h7 this;
     block := block this; start := start this; bytes := bytes this;
     hBytes := hBytes this; finalized := finalized this;
     hashed := hashed; first := first this;
     lastByteIndex := lastByteIndex this |}.

Definition with_finalized (this : Sha256) (finalized : bool) : Sha256 :=
  {| blocks := blocks this;
     h0 := h0 this; h1 := h1 this; h2 := h2 this; h3 := h3 this;
     h4 := h4 this; h5 := h5 this; h6 := h6 this; h7 := h7 this;
     block := block this; start := start this; bytes := bytes this;
     hBytes := hBytes this; finalized := finalized;
     hashed := hashed this; first := first this;
     lastByteIndex := lastByteIndex this |}.

Definition with_lastByteIndex (this : Sha256) (i : Z) : Sha256 :=
  {| blocks := blocks this;
     h0 := h0 this; h1 := h1 this; h2 := h2 this; h3 := h3 this;
     h4 := h4 this; h5 := h5 this; h6 := h6 this; h7 := h7 this;
     block := block this; start := start this; bytes := bytes this;
     hBytes := hBytes this; finalized := finalized this;
     hashed := hashed this; first := first this;
     lastByteIndex := i |}.

(** One turn of the [while] loop of [update], on a message that has code
    units left: the object it leaves and the rest of the message. *)
Definition update_turn (this : Sha256) (message : list Z)
  : Sha256 * list Z :=
  let this :=
    if hashed this
    then with_blocks (with_hashed this false)
           (restart (blocks this) (block this))
    else this in
  let '(filled, i, rest) := fill (blocks this) (start this) message in
  let this := with_blocks this filled in
  let this := with_lastByteIndex this i in
  let this := with_bytes this (hBytes this) (bytes this + (i - start this)) in
  if i >=? 64 then
    let this := with_block this (get (blocks this) 16) in
    let this := with_start this (i - 64) in
    let this := hash this in
    (with_hashed this true, rest)
  else (with_start this i, rest).

(** The [while] loop of [update]; [None] when [turns] turns do not
    exhaust the message. *)
Fixpoint update_loop (turns : nat) (this : Sha256) (message : list Z)
  : option Sha256 :=
  match message with
  | [] => Some this
  | _ :: _ =>
      match turns with
      | O => None
      | S turns =>
          let '(this, rest) := update_turn this message in
          update_loop turns this rest
      end
  end.

(** [this.update(message)], for a [message] that is a string (anything
    else makes it throw).  A turn of the loop that starts below byte 64
    reads at least one code unit, so the loop takes no more turns than
    the message has code units. *)
Definition update (this : Sha256) (message : list Z) : option Sha256 :=
  if finalized this then Some this
  else
    match update_loop (length message) this message with
    | None => None
    | Some this =>
        if bytes this >? 4294967295 then
          Some (with_bytes this
                  (hBytes this + ((Z.quot (bytes this) 4294967296) .<< 0))
                  (Z.rem (bytes this) 4294967296))
        else Some this
    end.

(** [this.finalize()] *)
Definition finalize (this : Sha256) : Sha256 :=
  if finalized this then this
  else
    let this := with_finalized this true in
    let i := lastByteIndex this in
    let this := with_blocks this (set (blocks this) 16 (block this)) in
    let this :=
      with_blocks this (or_at (blocks this) (i .>> 2) (get EXTRA (i .& 3))) in
    let this := with_block this (get (blocks this) 16) in
    let this :=
      if i >=? 56 then
        let this := if negb (hashed this) then hash this else this in
        with_blocks this (restart (blocks this) (block this))
      else this in
    let this :=
      with_blocks this
        (set (blocks this) 14 ((hBytes this .<< 3) .| (bytes this .>>> 29))) in
    let this := with_blocks this (set (blocks this) 15 (bytes this .<< 3)) in
    hash this.

(** [dataView.setUint32(k, h)] for each of the eight words: four bytes
    each, the high one first. *)
Definition word_bytes (h : Z) : list Z :=
  let h := ToUint32 h in
  [Z.shiftr h 24 mod 256; Z.shiftr h 16 mod 256; Z.shiftr h 8 mod 256;
   h mod 256].

(** [this._getOutputs()]: the object after [finalize] and the 32 bytes
    of the buffer. *)
Definition _getOutputs (this : Sha256) : Sha256 * list Z :=
  let this := finalize this in
  (this,
   word_bytes (h0 this) ++ word_bytes (h1 this) ++ word_bytes (h2 this)
   ++ word_bytes (h3 this) ++ word_bytes (h4 this) ++ word_bytes (h5 this)
   ++ word_bytes (h6 this) ++ word_bytes (h7 this)).

Definition dataView (this : Sha256) : Sha256 * list Z := _getOutputs this.
Definition arrayBuffer (this : Sha256) : Sha256 * list Z := _getOutputs this.

(** [SHA256(input)] *)
Definition SHA256 (input : list Z) : option Sha256 :=
  update Sha256_new input.

End Sha256.

(** ** A sample instance of the collaborators

    Enough of each collaborator to run the definitions above on concrete
    inputs: a constructor that accepts objects carrying a string [name],
    a [parseInt] and a [Number] for plain decimal strings, a
    [toLowerCase] for ASCII strings, a digest function whose output has
    the right length. *)

Definition sample_ConfigSpec_new (json : JSON) : option ConfigSpec :=
  match js_get json "name" with
  | Some (JStr n) =>
      Some {| name := n;
              entity := String_opt (js_get json "entity");
              enabled := truthy (js_get json "enabled");
              salt := String_opt (js_get json "salt");
              defaultValue := default (JObj []) (js_get json "defaultValue");
              idType := None;
              rules := [];
              explicitParameters := None;
              hasSharedParams := false;
              isActive := None;
              version := None |}
  | _ => None
  end.

Definition sample_payload (t : option JSON) (gateNames : list string)
  : SpecsJSON :=
  {| has_updates := Some (JBool true);
     time := t;
     feature_gates :=
       Some (JArr (map (fun n => JObj [("name", JStr n)]) gateNames));
     dynamic_configs := Some (JArr []);
     layer_configs := Some (JArr []);
     specs_layers := None;
     diagnostics := None |}.

Definition sample_JSON_parse (s : string) : option SpecsJSON :=
  if String.eqb s "bootstrap-100"
  then Some (sample_payload (Some (JNum 100)) ["gate_a"; "gate_b"])
  else None.

Fixpoint digits_value (s : string) (acc : Z) : number :=
  match s with
  | EmptyString => Num acc
  | String c s' =>
      let n := Z.of_N (N_of_ascii c) in
      if (48 <=? n) && (n <=? 57) then digits_value s' (acc * 10 + (n - 48))
      else NaN
  end.

Definition sample_parseInt (s : string) : number :=
  match s with
  | EmptyString => NaN
  | _ => digits_value s 0
  end.

(** [Number] on the empty string and on strings of decimal digits;
    [NaN] for the strings that hold anything else. *)
Definition sample_Number_of_string (s : string) : number :=
  digits_value s 0.

Definition lower_ascii (c : ascii) : ascii :=
  let n := N_of_ascii c in
  if ((65 <=? n) && (n <=? 90))%N then ascii_of_N (n + 32) else c.

(** [toLowerCase] as it acts on ASCII strings. *)
Fixpoint sample_toLowerCase (s : string) : string :=
  match s with
  | EmptyString => EmptyString
  | String c s' => String (lower_ascii c) (sample_toLowerCase s')
  end.

(** Thirty-two bytes that depend on the length of the input only. *)
Definition sample_sha256Hash (s : string) : list Byte.byte :=
  repeat Byte.x00 6 ++
  [default Byte.x00 (Byte.of_N (N.of_nat (String.length s) mod 256));
   Byte.x2a] ++
  repeat Byte.x00 24.

Definition sample_externals : Externals :=
  {| ConfigSpec_new := sample_ConfigSpec_new;
     JSON_parse := sample_JSON_parse;
     parseInt := sample_parseInt;
     toLowerCase := sample_toLowerCase;
     Number_of_string := sample_Number_of_string;
     updateIdList := fun idLists _ _ => idLists;
     sha256Hash := sample_sha256Hash;
     hashString := fun s _ => s;
     parseUserAgent := fun _ =>
       {| os_name := None; os_version := None; browser_name := None;
          browser_version := None |};
     getSDKType := "statsig-node-lite";
     getSDKVersion := "0.0.0";
     now := 0;
     applyOperator := fun _ _ _ _ => None |}.

(** The same collaborators with the digest that [utils/Sha256.ts]
    computes, for strings of ASCII characters. *)
Fixpoint char_codes (s : string) : list Z :=
  match s with
  | EmptyString => []
  | String c s' => Z.of_N (N_of_ascii c) :: char_codes s'
  end.

Definition repo_sha256Hash (s : string) : list Byte.byte :=
  match Sha256.SHA256 (char_codes s) with
  | Some digest =>
      omap (fun b => Byte.of_N (Z.to_N b)) (snd (Sha256.dataView digest))
  | None => []
  end.

Definition repo_externals : Externals :=
  {| ConfigSpec_new := sample_ConfigSpec_new;
     JSON_parse := sample_JSON_parse;
     parseInt := sample_parseInt;
     toLowerCase := sample_toLowerCase;
     Number_of_string := sample_Number_of_string;
     updateIdList := fun idLists _ _ => idLists;
     sha256Hash := repo_sha256Hash;
     hashString := fun s _ => s;
     parseUserAgent := fun _ =>
       {| os_name := None; os_version := None; browser_name := None;
          browser_version := None |};
     getSDKType := "statsig-node-lite";
     getSDKVersion := "0.0.0";
     now := 0;
     applyOperator := fun _ _ _ _ => None |}.

(** A store that has taken one payload stamped 200. *)
Definition sample_store_200 : SpecStore :=
  snd (_process (H := sample_externals) SpecStore_new
         (sample_payload (Some (JNum 200)) ["gate_a"])).

(** A small catalog: a gate [inner] open to everybody, a gate [outer]
    whose first rule consults [inner] three times, an experiment [exp_B],
    and an experiment [exp_A] whose rule delegates to [exp_B]. *)

Definition sample_condition (type : string) (target : option JSON)
  : ConfigCondition :=
  {| cond_type := type; targetValue := target; operator := None;
     field := None; cond_idType := Some "userID"; additionalValues := [] |}.

Definition sample_rule (id : string) (percent : float)
    (conds : list ConfigCondition) (delegate : option string)
    (group : option string) : ConfigRule :=
  {| rule_id_ := id; rule_salt := Some "r"; passPercentage := percent;
     returnValue := JObj [("from", JStr id)]; rule_idType := Some "userID";
     groupName := group; isExperimentGroup := Some true;
     configDelegate := delegate; conditions := conds |}.

Definition sample_spec (n kind : string) (rs : list ConfigRule) : ConfigSpec :=
  {| name := n; entity := kind; enabled := true; salt := "s";
     defaultValue := JObj []; idType := Some "userID"; rules := rs;
     explicitParameters := Some ["from"]; hasSharedParams := false;
     isActive := Some true; version := Some 3 |}.

Definition sample_inner : ConfigSpec :=
  sample_spec "inner" "feature_gate"
    [sample_rule "inner_rule" 100%float [sample_condition "public" None]
       None None].

Definition sample_outer_rule : ConfigRule :=
  sample_rule "outer_rule" 100%float
    [sample_condition "pass_gate" (Some (JStr "inner"));
     sample_condition "fail_gate" (Some (JStr "inner"));
     sample_condition "pass_gate" (Some (JStr "missing"))]
    None None.

Definition sample_outer : ConfigSpec :=
  sample_spec "outer" "feature_gate" [sample_outer_rule].

Definition sample_exp_B : ConfigSpec :=
  sample_spec "exp_B" "experiment"
    [sample_rule "b_rule" 100%float [sample_condition "public" None] None
       (Some "B-group")].

Definition sample_delegating_rule : ConfigRule :=
  sample_rule "a_rule" 100%float
    [sample_condition "pass_gate" (Some (JStr "inner"))]
    (Some "exp_B") (Some "A-group").

Definition sample_closed_rule : ConfigRule :=
  sample_rule "a_closed" 100%float
    [sample_condition "fail_gate" (Some (JStr "inner"))] None None.

Definition sample_exp_A : ConfigSpec :=
  sample_spec "exp_A" "experiment" [sample_closed_rule;
                                     sample_delegating_rule].

Definition sample_catalog (last : Z) : SpecStore :=
  {| initReason := Network;
     initialUpdateTime := JNum last;
     lastUpdateTime := JNum last;
     store := {| gates := [("inner", sample_inner); ("outer", sample_outer)];
                 configs := [("exp_A", sample_exp_A);
                             ("exp_B", sample_exp_B)];
                 idLists := ∅;
                 layers := [];
                 experimentToLayer := [] |};
     samplingRates := {| dcs := 0; log := 0; idlist := 0;
                         initialize := MAX_SAMPLING_RATE |} |}.

Definition sample_evaluator (last : Z) : Evaluator :=
  {| gateOverrides := ∅; configOverrides := ∅; layerOverrides := ∅;
     specStore := sample_catalog last |}.

Definition sample_user : StatsigUser :=
  {| userID := Some "u1";
     customIDs := None;
     custom := None;
     privateAttributes := Some [("secret", JStr "do not log")];
     statsigEnvironment := None;
     otherFields := [] |}.



(** A user who belongs to a company, and a rule that allocates by
    company. *)
Definition sample_member : StatsigUser :=
  {| userID := Some "u1";
     customIDs := Some [("companyID", "company-7")];
     custom := None;
     privateAttributes := None;
     statsigEnvironment := None;
     otherFields := [] |}.

Definition sample_company_rule (percent : float) : ConfigRule :=
  {| rule_id_ := "by_company"; rule_salt := Some "r";
     passPercentage := percent; returnValue := JObj [];
     rule_idType := Some "CompanyID"; groupName := None;
     isExperimentGroup := None; configDelegate := None; conditions := [] |}.

(** A store holding one ID list, fifteen bytes of which have been read. *)
Definition sample_list : IDList :=
  {| ids := ∅; readBytes := Num 15; url := "https://lists/list_1";
     fileID := "F1"; creationTime := 1 |}.

Definition sample_list_store : SpecStore :=
  set_idLists SpecStore_new {[ "list_1" := sample_list ]}.

Definition sample_response (header : option string) : Response :=
  {| status := 200; content_length := header; text := "+abcdefgh" |}.

(** What the three conditions of [sample_outer_rule] evaluate to. *)
Definition sample_outer_results : list ConditionResult :=
  [ {| passes := true; cond_unsupported := false;
       exposures := Some [ {| gate := "inner"; gateValue := "true";
                              ruleID := "inner_rule" |} ] |};
    {| passes := false; cond_unsupported := false;
       exposures := Some [ {| gate := "inner"; gateValue := "true";
                              ruleID := "inner_rule" |} ] |};
    {| passes := false; cond_unsupported := false;
       exposures := Some [ {| gate := "missing"; gateValue := "false";
                              ruleID := "" |} ] |} ].

(** The evaluations met on the way through [sample_exp_A]: the rule that
    does not pass, the rule that does, and the delegate. *)
Definition sample_inner_exposure : SecondaryExposure :=
  {| gate := "inner"; gateValue := "true"; ruleID := "inner_rule" |}.

Definition sample_skipped : list ConfigEvaluation :=
  [ {| value := false;
       rule_id := "a_closed";
       secondary_exposures := [sample_inner_exposure];
       json_value := JObj [("from", JStr "a_closed")];
       explicit_parameters := None;
       config_delegate := None;
       unsupported := false;
       undelegated_secondary_exposures := Some [sample_inner_exposure];
       is_experiment_group := true;
       group_name := None;
       evaluation_details := None;
       configVersion := None |} ].

Definition sample_ruleResult : ConfigEvaluation :=
  {| value := true;
     rule_id := "a_rule";
     secondary_exposures := [sample_inner_exposure];
     json_value := JObj [("from", JStr "a_rule")];
     explicit_parameters := None;
     config_delegate := None;
     unsupported := false;
     undelegated_secondary_exposures := Some [sample_inner_exposure];
     is_experiment_group := true;
     group_name := Some "A-group";
     evaluation_details := None;
     configVersion := None |}.

Definition sample_delegatedResult : ConfigEvaluation :=
  {| value := true;
     rule_id := "b_rule";
     secondary_exposures := [];
     json_value := JObj [("from", JStr "b_rule")];
     explicit_parameters := Some ["from"];
     config_delegate := None;
     unsupported := false;
     undelegated_secondary_exposures := Some [];
     is_experiment_group := true;
     group_name := Some "B-group";
     evaluation_details := None;
     configVersion := Some 3 |}.

(** ** Vocabulary for the statements about [_process] *)

Definition array_elements (v : option JSON) : list JSON :=
  match v with
  | Some (JArr elems) => elems
  | _ => []
  end.

Definition is_array (v : option JSON) : bool :=
  match v with
  | Some (JArr _) => true
  | _ => false
  end.

(** The comparison of the payload's [time] with [lastUpdateTime] comes
    to an answer: neither side is an object that cannot be converted to a
    number, which would make the comparison throw before the checks that
    follow it. *)
Definition times_compare `{Externals} (this : SpecStore)
    (specsJSON : SpecsJSON) : Prop :=
  exists older, time_is_older this specsJSON = Return older.

(** The ways a payload is turned down by [_process]. *)
Inductive rejection `{Externals} (this : SpecStore) (specsJSON : SpecsJSON)
  : Prop :=
| no_updates :
    truthy (has_updates specsJSON) = false -> rejection this specsJSON
| older_time t last :
    time specsJSON = Some (JNum t) -> lastUpdateTime this = JNum last ->
    t < last ->
    rejection this specsJSON
| not_an_array :
    times_compare this specsJSON ->
    is_array (feature_gates specsJSON) = false
    \/ is_array (dynamic_configs specsJSON) = false
    \/ is_array (layer_configs specsJSON) = false ->
    rejection this specsJSON
| construction_fails json :
    times_compare this specsJSON ->
    In json (array_elements (feature_gates specsJSON) ++
             array_elements (dynamic_configs specsJSON) ++
             array_elements (layer_configs specsJSON)) ->
    ConfigSpec_new json = None ->
    rejection this specsJSON.

(** A payload whose [time] is a number, [null], or absent. *)
Definition numeric_time (specsJSON : SpecsJSON) : Prop :=
  match time specsJSON with
  | None | Some JNull | Some (JNum _) => True
  | Some _ => False
  end.

(** The store after a sequence of [_process] calls, whatever each call
    answers. *)
Fixpoint process_all `{Externals} (this : SpecStore)
    (payloads : list SpecsJSON) : SpecStore :=
  match payloads with
  | [] => this
  | specsJSON :: rest => process_all (snd (_process this specsJSON)) rest
  end.

(** ** Vocabulary for the statements about overrides *)


(** The lookup of [name] for [user] falls on a property that the maps
    inherit and do not hold: [name] itself, when nothing is stored under
    it, or the user's ID, when the overrides of [name] hold none for
    it. *)
Definition lands_on_inherited {V} (overrides : gmap string (gmap string V))
    (user : StatsigUser) (name : string) : Prop :=
  match overrides !! name with
  | None => In name Object_prototype_keys
  | Some entries =>
      exists id,
        userID user = Some id
        /\ entries !! id = None
        /\ In id Object_prototype_keys
  end.

(** ** Vocabulary for the statements about hashing *)

(** The big-endian unsigned 64-bit prefix of the digest of [s]. *)
Definition sha256_u64 `{Externals} (s : string) : option Z :=
  getBigUint64 (sha256Hash s) 0.

(** Every entry of the memo table is the hash of its key. *)
Definition cache_ok `{Externals} (tbl : HashTable) : Prop :=
  forall k v, tbl !! k = Some v -> sha256_u64 k = Some v.

(** The decimal numerals of [0], [1], ..., [n - 1]: pairwise distinct
    inputs for [computeUserHash]. *)
Definition distinct_inputs (n : nat) : list string :=
  (fun i : nat => pretty i) <$> seq 0 n.

(** ** Vocabulary for the statements about allocation

    The definitions of this part follow the words of the description,
    not the code. *)



(** [n < x] for an integer and a binary64 number, in exact arithmetic;
    nothing is below [NaN]. *)
Definition Z_below_float (n : Z) (x : float) : bool :=
  match Prim2SF x with
  | S754_zero _ => n <? 0
  | S754_infinity negative => negb negative
  | S754_nan => false
  | S754_finite negative m e =>
      let m := if negative then Z.neg m else Z.pos m in
      if 0 <=? e then n <? m * 2 ^ e else n * 2 ^ (- e) <? m
  end.

(** [hash mod 10000 < passPercentage * 100], the product being the one
    of binary64. *)
Definition passes_allocation (hash : Z) (passPercentage : float) : bool :=
  Z_below_float (hash mod 10000) (PrimFloat.mul passPercentage 100%float).



(** ** Vocabulary for the statements about evaluation *)

(** The exposures a condition result contributes. *)
Definition contributed (result : ConditionResult) : list SecondaryExposure :=
  match exposures result with
  | Some exposures => exposures
  | None => []
  end.

(** [ev'] answers wherever [ev] does, and the same. *)
Definition extends (ev ev' : StatsigUser -> ConfigSpec -> M ConfigEvaluation)
  : Prop :=
  forall user config tbl r, ev user config tbl = Some r ->
                            ev' user config tbl = Some r.

(** A computation that leaves a sound memo table sound. *)
Definition preserves_cache `{Externals} {A} (m : M A) : Prop :=
  forall tbl a tbl', cache_ok tbl -> m tbl = Some (a, tbl') -> cache_ok tbl'.

(** ** Vocabulary for the statements about the client initialize response *)

(** The effect on the argument, read without any condition on the store:
    for a user object that has [privateAttributes], the call hands back a
    payload, the object at the argument's location has lost the property,
    and the payload's [user] is that location. *)
Definition mutates_user_in_place `{Externals} (this : Evaluator) (fuel : nat)
    (heap : Heap) (user : loc) (hash : option HashingAlgorithm)
    (tbl : HashTable) : Prop :=
  forall u,
    heap !! user = Some u ->
    is_Some (privateAttributes u) ->
    exists payload heap' tbl' u',
      getClientInitializeResponse this fuel heap user hash tbl
      = Some ((Some payload, heap'), tbl')
      /\ heap' !! user = Some u'
      /\ privateAttributes u' = None
      /\ cir_user payload = user.

(** ** Vocabulary for the statements about the catalog *)

(** The specs a payload array yields: each element through the
    constructor, the ones whose construction throws left out. *)
Definition constructed `{Externals} (v : option JSON) : list ConfigSpec :=
  omap ConfigSpec_new (array_elements v).

(** The last spec of a list that carries the name [n]. *)
Definition last_named (n : string) (specs : list ConfigSpec)
  : option ConfigSpec :=
  List.find (fun spec => String.eqb n (name spec)) (rev specs).

(** No spec of the list is named [__proto__].  Filed under that name, a
    spec would not become an entry of the dictionary but its prototype,
    and the dictionary would answer to the names of the spec's own
    properties. *)
Definition no_prototype (specs : list ConfigSpec) : Prop :=
  Forall (fun spec => name spec <> "__proto__") specs.

(** Every rate lies between [0] and [MAX_SAMPLING_RATE]. *)
Definition rates_in_range (r : DiagnosticsSamplingRate) : Prop :=
  (0 <= dcs r <= MAX_SAMPLING_RATE)
  /\ (0 <= log r <= MAX_SAMPLING_RATE)
  /\ (0 <= idlist r <= MAX_SAMPLING_RATE)
  /\ (0 <= initialize r <= MAX_SAMPLING_RATE).

(** A dictionary of specs as the construction loops leave it: no key
    twice, and every spec filed under its own name. *)
Definition filed_by_name (r : Rec ConfigSpec) : Prop :=
  NoDup (rec_keys r) /\ Forall (fun kv => fst kv = name (snd kv)) r.

(** The three dictionaries of a store. *)
Definition catalog_filed (this : SpecStore) : Prop :=
  filed_by_name (gates (store this))
  /\ filed_by_name (configs (store this))
  /\ filed_by_name (layers (store this)).

(** An evaluator over a given store, with no overrides. *)
Definition Evaluator_over (s : SpecStore) : Evaluator :=
  {| gateOverrides := ∅; configOverrides := ∅; layerOverrides := ∅;
     specStore := s |}.

(** The entries [_reverseLayerExperimentMapping] walks. *)
Definition layering (layersMapping : option JSON) : list (string * JSON) :=
  match layersMapping with
  | Some (JObj _ as m) | Some (JArr _ as m) => Object_entries m
  | _ => []
  end.

(** A string of decimal digits.  The keys of an object that spell an
    array index are listed before the others, whatever the order they
    came in; they are among these strings. *)
Fixpoint only_digits (s : string) : bool :=
  match s with
  | EmptyString => true
  | String c s' =>
      let n := N_of_ascii c in
      ((48 <=? n) && (n <=? 57))%N && only_digits s'
  end.

(** The entries of the mapping are its properties as the engine lists
    them: no key twice, and no key made of digits. *)
Definition listed_in_order (layersMapping : option JSON) : Prop :=
  match layersMapping with
  | Some (JObj fields) =>
      NoDup (map fst fields)
      /\ Forall (fun entry => only_digits (fst entry) = false) fields
  | _ => True
  end.

(** Whether iterating [experiments] yields the key [e]. *)
Definition lists_experiment (e : string) (experiments : JSON) : bool :=
  match iterate experiments with
  | Return names => existsb (fun x => String.eqb e (String_ x)) names
  | Throw _ => false
  end.

(** The layer an experiment ends up under: the last entry of the mapping
    whose value lists it. *)
Definition layer_of (e : string) (layersMapping : option JSON)
  : option string :=
  fst <$> List.find (fun entry => lists_experiment e (snd entry))
            (rev (layering layersMapping)).

(** ** Vocabulary for the statements about results *)

(** An exposure that is not about a segment. *)
Definition not_segment (exposure : SecondaryExposure) : bool :=
  negb (startsWith (gate exposure) "segment:").

(** The evaluation an override turns into, with its details. *)
Definition override_result `{Externals} (this : Evaluator) (flag : bool)
    (json : JSON) : ConfigEvaluation :=
  withEvaluationDetails
    (ConfigEvaluation_new flag "override" None [] json None None None false)
    (override_details this).

(** Whatever a computation returns satisfies [P]. *)
Definition post {A} (m : M A) (P : A -> Prop) : Prop :=
  forall tbl a tbl', m tbl = Some (a, tbl') -> P a.

(** What an unsupported evaluation looks like. *)
Definition unsupported_shape (r : ConfigEvaluation) : Prop :=
  unsupported r = true ->
  value r = false
  /\ rule_id r = ""
  /\ json_value r = JObj []
  /\ reason <$> evaluation_details r = Some Unsupported.

(** What every answer of the three public lookups carries: details, and
    exposures free of segments and of repeated keys. *)
Definition well_reported (r : ConfigEvaluation) : Prop :=
  is_Some (evaluation_details r)
  /\ Forall (fun e => not_segment e = true) (secondary_exposures r)
  /\ NoDup (map exposure_key (secondary_exposures r)).

(** A computation whose answer does not depend on which sound memo table
    it starts from. *)
Definition cache_transparent `{Externals} {A} (m : M A) : Prop :=
  forall tbl1 tbl2 a tbl1',
    cache_ok tbl1 -> cache_ok tbl2 ->
    m tbl1 = Some (a, tbl1') ->
    exists tbl2', m tbl2 = Some (a, tbl2').

(** ** Further sample data *)

(** A payload stamped 300 with a repeated gate name, one experiment, one
    layer, a layer mapping and sampling rates. *)
Definition sample_full_payload (mapping rates : JSON) : SpecsJSON :=
  {| has_updates := Some (JBool true);
     time := Some (JNum 300);
     feature_gates :=
       Some (JArr [JObj [("name", JStr "gate_a"); ("salt", JStr "first")];
                   JObj [("name", JStr "gate_b")];
                   JObj [("name", JStr "gate_a"); ("salt", JStr "second")]]);
     dynamic_configs :=
       Some (JArr [JObj [("name", JStr "exp_a");
                         ("entity", JStr "experiment")]]);
     layer_configs := Some (JArr [JObj [("name", JStr "layer_1")]]);
     specs_layers := Some mapping;
     diagnostics := Some rates |}.

Definition sample_mapping : JSON :=
  JObj [("layer_1", JArr [JStr "exp_a"; JStr "exp_b"]);
        ("layer_2", JArr [JStr "exp_b"])].

Definition sample_rates : JSON :=
  JObj [("dcs", JNum 20000); ("log", JNum (-5)); ("idlist", JStr "7")].

Definition sample_exposures : list SecondaryExposure :=
  [ {| gate := "inner"; gateValue := "true"; ruleID := "inner_rule" |};
    {| gate := "segment:staff"; gateValue := "true"; ruleID := "s" |};
    {| gate := "outer"; gateValue := "false"; ruleID := "default" |};
    {| gate := "inner"; gateValue := "true"; ruleID := "inner_rule" |} ].

(** An evaluator over the store that has taken [sample_full_payload]. *)
Definition sample_synced : Evaluator :=
  Evaluator_over
    (process_all (H := sample_externals) SpecStore_new
       [sample_full_payload sample_mapping sample_rates]).

(** A gate whose only rule asks whether the gate itself passes. *)
Definition sample_loop : ConfigSpec :=
  sample_spec "loop" "feature_gate"
    [sample_rule "loop_rule" 100%float
       [sample_condition "pass_gate" (Some (JStr "loop"))] None None].

(** A gate whose only rule has a condition type the evaluator does not
    know. *)
Definition sample_odd : ConfigSpec :=
  sample_spec "odd" "feature_gate"
    [sample_rule "odd_rule" 100%float [sample_condition "mystery" None]
       None None].

Definition sample_odd_catalog : SpecStore :=
  {| initReason := Network;
     initialUpdateTime := JNum 100;
     lastUpdateTime := JNum 100;
     store := {| gates := [("loop", sample_loop); ("odd", sample_odd)];
                 configs := [];
                 idLists := ∅;
                 layers := [];
                 experimentToLayer := [] |};
     samplingRates := {| dcs := 0; log := 0; idlist := 0;
                         initialize := MAX_SAMPLING_RATE |} |}.

(** A [Number] that knows the parts ["0"], ["1"] and ["2"]. *)
Definition sample_Number (s : string) : float :=
  if String.eqb s "0" then 0%float
  else if String.eqb s "1" then 1%float
  else if String.eqb s "2" then 2%float
  else nan.

(** ** Vocabulary for the statements about users *)

(** A user reduced to what identifies it. *)
Definition only_ids (user : StatsigUser) : Prop :=
  custom user = None /\ privateAttributes user = None
  /\ statsigEnvironment user = None /\ otherFields user = [].

(** A user whose [userID] has 70 characters, with a private attribute. *)
Definition sample_long_user : StatsigUser :=
  {| userID :=
       Some ("0123456789012345678901234567890123456789"
             +:+ "012345678901234567890123456789");
     customIDs := None;
     custom := Some [("plan", JStr "pro")];
     privateAttributes := Some [("email", JStr "u@example.com")];
     statsigEnvironment := None;
     otherFields := [] |}.

(** A ready server over the sample catalog, with default options. *)
Definition sample_server : StatsigServer.StatsigServer :=
  {| StatsigServer._ready := true;
     StatsigServer._options := StatsigOptions.OptionsWithDefaults [];
     StatsigServer._evaluator := sample_evaluator 100 |}.

(** ** Vocabulary for the statements about [Sha256] *)

Section Sha256Vocabulary.
Import Sha256.

(** The eight words a new object starts from. *)
Definition initial_words (this : Sha256) : Prop :=
  h0 this = 0x6a09e667 /\ h1 this = 0xbb67ae85
  /\ h2 this = 0x3c6ef372 /\ h3 this = 0xa54ff53a
  /\ h4 this = 0x510e527f /\ h5 this = 0x9b05688c
  /\ h6 this = 0x1f83d9ab /\ h7 this = 0x5be0cd19.

(** The object with its [first] flag set to a given value. *)
Definition with_first (this : Sha256) (flag : bool) : Sha256 :=
  {| blocks := blocks this;
     h0 := h0 this; h1 := h1 this; h2 := h2 this; h3 := h3 this;
     h4 := h4 this; h5 := h5 this; h6 := h6 this; h7 := h7 this;
     block := block this; start := start this; bytes := bytes this;
     hBytes := hBytes this; finalized := finalized this;
     hashed := hashed this; first := flag;
     lastByteIndex := lastByteIndex this |}.

(** Two objects that are the same but for [first], which one of them
    still has set while it holds the initial words. *)
Definition same_but_first (s s' : Sha256) : Prop :=
  s' = s \/ (initial_words s /\ first s = true /\ s' = with_first s false).

Definition same_option (o o' : option Sha256) : Prop :=
  match o, o' with
  | Some s, Some s' => same_but_first s s'
  | None, None => True
  | _, _ => False
  end.

(** Reading a message pair by pair as [update] does, no pair is cut by
    the end: every code unit from [0xd800] to [0xdfff] that opens a pair
    has a code unit after it. *)
Fixpoint ends_whole (message : list Z) : bool :=
  match message with
  | [] => true
  | code :: rest =>
      if (code <? 0xd800) || (code >=? 0xe000) then ends_whole rest
      else match rest with [] => false | _ :: rest => ends_whole rest end
  end.

End Sha256Vocabulary.

(** * Properties *)

Section SpecStoreFacts.
Context `{Externals}.

Lemma build_specs_none array : forall updated,
  build_specs array updated = None <->
  exists json, In json array /\ ConfigSpec_new json = None.
Proof.
  induction array as [|json rest IH]; intros updated; simpl.
  - split; [discriminate | intros (? & [] & _)].
  - destruct (ConfigSpec_new json) as [spec|] eqn:E.
    + rewrite IH. split.
      * intros (j & ? & ?); eauto.
      * intros (j & [->|?] & Hj); [congruence | eauto].
    + split; eauto.
Qed.

Lemma updateSamplingRates_store this obj :
  store (updateSamplingRates this obj) = store this.
Proof. destruct obj as [[]|]; reflexivity. Qed.

Lemma updateSamplingRates_lastUpdateTime this obj :
  lastUpdateTime (updateSamplingRates this obj) = lastUpdateTime this.
Proof. destruct obj as [[]|]; reflexivity. Qed.

Lemma updateSamplingRates_initReason this obj :
  initReason (updateSamplingRates this obj) = initReason this.
Proof. destruct obj as [[]|]; reflexivity. Qed.

Lemma updateSamplingRates_initialUpdateTime this obj :
  initialUpdateTime (updateSamplingRates this obj) = initialUpdateTime this.
Proof. destruct obj as [[]|]; reflexivity. Qed.

(** What a run of [_process] amounts to: either it answers [false], or
    the comparison of the times throws, and the catalog and the clock
    are as before; or every check passed and the three maps were
    built. *)
Lemma process_inv this specsJSON r this' :
  _process this specsJSON = (r, this') ->
  ((r = Return false
    \/ exists err, r = Throw err
                   /\ truthy (has_updates specsJSON) = true
                   /\ time_is_older this specsJSON = Throw err)
   /\ store this' = store this
   /\ lastUpdateTime this' = lastUpdateTime this
   /\ (this' = this
       \/ this' = updateSamplingRates this (diagnostics specsJSON)))
  \/ (truthy (has_updates specsJSON) = true
      /\ time_is_older this specsJSON = Return false
      /\ exists ga ca la G C L,
           feature_gates specsJSON = Some (JArr ga)
           /\ dynamic_configs specsJSON = Some (JArr ca)
           /\ layer_configs specsJSON = Some (JArr la)
           /\ build_specs ga [] = Some G
           /\ build_specs ca [] = Some C
           /\ build_specs la [] = Some L
           /\ let sampled :=
                updateSamplingRates this (diagnostics specsJSON) in
              match _reverseLayerExperimentMapping
                      (specs_layers specsJSON) with
              | Throw e => r = Throw e /\ this' = sampled
              | Return E =>
                  r = Return true
                  /\ this' =
                     set_lastUpdateTime
                       (set_store sampled
                          {| gates := G; configs := C;
                             idLists := idLists (store sampled);
                             layers := L; experimentToLayer := E |})
                       (time_or_last sampled specsJSON)
              end).
Proof.
  unfold _process.
  destruct (truthy (has_updates specsJSON)) eqn:Hu; simpl.
  2:{ intros [= <- <-]. left. auto. }
  destruct (time_is_older this specsJSON) as [[|]|err] eqn:Ht.
  { intros [= <- <-]. left. auto. }
  2:{ intros [= <- <-]. left. split; [right; eauto|]. auto. }
  pose proof (updateSamplingRates_store this (diagnostics specsJSON)) as Hs.
  pose proof (updateSamplingRates_lastUpdateTime this
                (diagnostics specsJSON)) as Hl.
  assert (Hrej : forall r0 t0,
             (Return false, updateSamplingRates this (diagnostics specsJSON))
             = (r0, t0) ->
             (r0 = Return false
              \/ exists err, r0 = Throw err
                             /\ true = true
                             /\ @Return bool false = Throw err)
             /\ store t0 = store this
             /\ lastUpdateTime t0 = lastUpdateTime this
             /\ (t0 = this
                 \/ t0 = updateSamplingRates this (diagnostics specsJSON))).
  { intros ? ? [= <- <-]. auto. }
  intros Hrun.
  destruct (feature_gates specsJSON) as [[|?|?|?|ga|?]|];
    try (left; apply Hrej; exact Hrun).
  destruct (dynamic_configs specsJSON) as [[|?|?|?|ca|?]|];
    try (left; apply Hrej; exact Hrun).
  destruct (layer_configs specsJSON) as [[|?|?|?|la|?]|];
    try (left; apply Hrej; exact Hrun).
  destruct (build_specs ga []) as [G|] eqn:HG;
    [|left; apply Hrej; exact Hrun].
  destruct (build_specs ca []) as [C|] eqn:HC;
    [|left; apply Hrej; exact Hrun].
  destruct (build_specs la []) as [L|] eqn:HL;
    [|left; apply Hrej; exact Hrun].
  right. split; [reflexivity|]. split; [reflexivity|].
  exists ga, ca, la, G, C, L. repeat (split; [reflexivity|]).
  simpl.
  destruct (_reverseLayerExperimentMapping (specs_layers specsJSON));
    injection Hrun as <- <-; auto.
Qed.

Lemma process_not_true_unchanged this specsJSON r this' :
  _process this specsJSON = (r, this') ->
  r <> Return true ->
  store this' = store this /\ lastUpdateTime this' = lastUpdateTime this.
Proof.
  intros Hrun Hr. apply process_inv in Hrun as [(_ & Hs & Hl & _)|Hacc].
  - auto.
  - destruct Hacc as (_ & _ & ga & ca & la & G & C & L & _ & _ & _ & _ & _
                      & _ & Hlast).
    simpl in Hlast.
    destruct (_reverseLayerExperimentMapping (specs_layers specsJSON)).
    + destruct Hlast as [-> _]. congruence.
    + destruct Hlast as [_ ->].
      split; [apply updateSamplingRates_store
             |apply updateSamplingRates_lastUpdateTime].
Qed.

(** What a payload that is taken leaves in [lastUpdateTime]. *)
Lemma process_true_time this specsJSON this' :
  _process this specsJSON = (Return true, this') ->
  time_is_older this specsJSON = Return false
  /\ lastUpdateTime this' = time_or_last this specsJSON.
Proof.
  intros Hrun. apply process_inv in Hrun as [([Hr|(e & Hr & _)] & _)|Hacc];
    [discriminate Hr|discriminate Hr|].
  destruct Hacc as (_ & Hold & ga & ca & la & G & C & L & _ & _ & _ & _
                    & _ & _ & Hlast).
  split; [exact Hold|].
  simpl in Hlast.
  destruct (_reverseLayerExperimentMapping (specs_layers specsJSON)).
  2:{ destruct Hlast as [? _]. discriminate. }
  destruct Hlast as [_ ->]. simpl.
  unfold time_or_last. rewrite updateSamplingRates_lastUpdateTime.
  reflexivity.
Qed.

(** With numbers on both sides, a payload that is taken does not set the
    clock back. *)
Lemma process_true_lastUpdateTime this specsJSON this' t0 :
  lastUpdateTime this = JNum t0 ->
  numeric_time specsJSON ->
  _process this specsJSON = (Return true, this') ->
  exists t1, lastUpdateTime this' = JNum t1 /\ t0 <= t1.
Proof.
  intros Hlast Hnum Hrun.
  apply process_true_time in Hrun as [Hold ->].
  unfold time_is_older, time_or_last, numeric_time in *. rewrite Hlast in *.
  destruct (time specsJSON) as [[|b|t|s|elems|fields]|];
    try contradiction.
  - exists t0. split; [reflexivity|lia].
  - exists t. split; [reflexivity|]. simpl in Hold.
    injection Hold as Hold. apply Z.ltb_ge in Hold. exact Hold.
  - exists t0. split; [reflexivity|lia].
Qed.

Lemma process_all_app this before after :
  process_all this (before ++ after)
  = process_all (process_all this before) after.
Proof.
  revert this. induction before as [|j before IH]; intros this; simpl.
  - reflexivity.
  - apply IH.
Qed.

Lemma process_step_lastUpdateTime this specsJSON t0 :
  lastUpdateTime this = JNum t0 ->
  numeric_time specsJSON ->
  exists t1,
    lastUpdateTime (snd (_process this specsJSON)) = JNum t1 /\ t0 <= t1.
Proof.
  intros Hlast Hnum.
  destruct (_process this specsJSON) as [r this'] eqn:Hrun. simpl.
  destruct r as [[|]|e].
  - apply (process_true_lastUpdateTime _ _ _ _ Hlast Hnum Hrun).
  - apply process_not_true_unchanged in Hrun as [_ ->]; [|discriminate].
    exists t0. split; [exact Hlast|lia].
  - apply process_not_true_unchanged in Hrun as [_ ->]; [|discriminate].
    exists t0. split; [exact Hlast|lia].
Qed.

Lemma process_all_lastUpdateTime payloads : forall this t0,
  lastUpdateTime this = JNum t0 ->
  Forall numeric_time payloads ->
  exists t1, lastUpdateTime (process_all this payloads) = JNum t1 /\ t0 <= t1.
Proof.
  induction payloads as [|j rest IH]; intros this t0 Hlast Hall; simpl.
  - exists t0. split; [exact Hlast|lia].
  - apply Forall_cons_iff in Hall as [Hj Hrest].
    destruct (process_step_lastUpdateTime this j t0 Hlast Hj)
      as (t1 & Hstep & Hle).
    destruct (IH _ t1 Hstep Hrest) as (t2 & Hall & Hle').
    exists t2. split; [exact Hall|lia].
Qed.

(** The comparison of the two times comes to an answer whenever neither
    is an array or an object: numbers, strings, booleans and [null] are
    all converted by [Number] without a call into user code. *)
Lemma times_compare_scalars this specsJSON :
  match time specsJSON with
  | Some (JArr _) | Some (JObj _) => False
  | _ => True
  end ->
  match lastUpdateTime this with
  | JArr _ | JObj _ => False
  | _ => True
  end ->
  times_compare this specsJSON.
Proof.
  unfold times_compare, time_is_older. intros Htime Hlast.
  destruct (time specsJSON) as [[| | | | |]|];
    destruct (lastUpdateTime this); simpl;
    try contradiction; eauto.
Qed.

(** C1: a payload that [_process] turns down (falsy [has_updates], a
    [time] strictly below [lastUpdateTime], a [feature_gates],
    [dynamic_configs] or [layer_configs] that is not an array, or a spec
    whose construction fails) makes it answer [false] and leaves the four
    maps and [lastUpdateTime] as they were. *)
Theorem process_rejected_unchanged this specsJSON :
  rejection this specsJSON ->
  exists this',
    _process this specsJSON = (Return false, this')
    /\ gates (store this') = gates (store this)
    /\ configs (store this') = configs (store this)
    /\ layers (store this') = layers (store this)
    /\ experimentToLayer (store this') = experimentToLayer (store this)
    /\ lastUpdateTime this' = lastUpdateTime this.
Proof.
  intros Hrej.
  destruct (_process this specsJSON) as [r this'] eqn:Hrun.
  exists this'.
  apply process_inv in Hrun as [([-> | (err & -> & Hu & Hthrow)] & Hs & Hl
                                 & _)|Hacc].
  { rewrite Hs. repeat split; auto. }
  { exfalso.
    destruct Hrej as [Hno|t last Ht Hlast Hlt|[older Hcmp] _
                     |json [older Hcmp] _ _].
    - congruence.
    - unfold time_is_older in Hthrow. rewrite Ht, Hlast in Hthrow.
      discriminate Hthrow.
    - congruence.
    - congruence. }
  exfalso.
  destruct Hacc as (Hu & Hold & ga & ca & la & G & C & L & Hga & Hca & Hla
                    & HG & HC & HL & _).
  destruct Hrej as [Hno|t last Ht Hlast Hlt|_ Harr|json _ Hin Hfail].
  - congruence.
  - unfold time_is_older in Hold. rewrite Ht, Hlast in Hold.
    simpl in Hold. injection Hold as Hold.
    apply Z.ltb_ge in Hold. lia.
  - rewrite Hga, Hca, Hla in Harr. simpl in Harr.
    destruct Harr as [?|[?|?]]; discriminate.
  - rewrite Hga, Hca, Hla in Hin. simpl in Hin.
    assert (Hnone : forall a, In json a -> build_specs a [] = None).
    { intros a Ha. apply build_specs_none. eauto. }
    apply in_app_or in Hin as [Hin|Hin];
      [|apply in_app_or in Hin as [Hin|Hin]];
      apply Hnone in Hin; congruence.
Qed.

(** C2: [lastUpdateTime] does not decrease as long as the payloads carry
    a number, [null] or nothing under [time].  Starting from a store
    whose [lastUpdateTime] is a number, after any sequence of [_process]
    calls on such payloads a further call that answers [true] leaves
    [lastUpdateTime] at least where it stood before that call, which in
    turn is at least where the sequence started. *)
Theorem lastUpdateTime_monotone this payloads specsJSON this' t0 :
  lastUpdateTime this = JNum t0 ->
  Forall numeric_time payloads ->
  numeric_time specsJSON ->
  _process (process_all this payloads) specsJSON = (Return true, this') ->
  exists t1 t2,
    lastUpdateTime (process_all this payloads) = JNum t1
    /\ lastUpdateTime this' = JNum t2
    /\ t0 <= t1 <= t2.
Proof.
  intros Hlast Hall Hnum Hrun.
  destruct (process_all_lastUpdateTime payloads this t0 Hlast Hall)
    as (t1 & Hbefore & Hle).
  destruct (process_true_lastUpdateTime _ _ _ t1 Hbefore Hnum Hrun)
    as (t2 & Hafter & Hle').
  exists t1, t2. split; [exact Hbefore|]. split; [exact Hafter|]. lia.
Qed.

Lemma safeSet_cases key v :
  (forall r, safeSet r key v = r)
  \/ (exists c, forall r, safeSet r key v = rate_assign r key c).
Proof.
  destruct v as [[|b|n|s|elems|fields]|]; simpl; try (left; reflexivity).
  destruct (n <? 0); [right; exists 0; reflexivity|].
  destruct (n >? MAX_SAMPLING_RATE);
    right; eexists; intros r; reflexivity.
Qed.

Lemma updateSamplingRates_idem this obj :
  updateSamplingRates (updateSamplingRates this obj) obj
  = updateSamplingRates this obj.
Proof.
  assert (Hobj : forall o,
    set_samplingRates
      (set_samplingRates this
         (safeSet (safeSet (safeSet (safeSet (samplingRates this) K_dcs
            (js_get o "dcs")) K_idlist (js_get o "idlist")) K_initialize
            (js_get o "initialize")) K_log (js_get o "log")))
      (safeSet (safeSet (safeSet (safeSet
         (safeSet (safeSet (safeSet (safeSet (samplingRates this) K_dcs
            (js_get o "dcs")) K_idlist (js_get o "idlist")) K_initialize
            (js_get o "initialize")) K_log (js_get o "log"))
         K_dcs (js_get o "dcs")) K_idlist (js_get o "idlist")) K_initialize
         (js_get o "initialize")) K_log (js_get o "log"))
    = set_samplingRates this
        (safeSet (safeSet (safeSet (safeSet (samplingRates this) K_dcs
           (js_get o "dcs")) K_idlist (js_get o "idlist")) K_initialize
           (js_get o "initialize")) K_log (js_get o "log"))).
  { intros o. unfold set_samplingRates. simpl. f_equal.
    destruct (safeSet_cases K_dcs (js_get o "dcs")) as [E1|[c1 E1]];
    destruct (safeSet_cases K_idlist (js_get o "idlist")) as [E2|[c2 E2]];
    destruct (safeSet_cases K_initialize (js_get o "initialize"))
      as [E3|[c3 E3]];
    destruct (safeSet_cases K_log (js_get o "log")) as [E4|[c4 E4]];
    rewrite ?E1, ?E2, ?E3, ?E4;
    destruct (samplingRates this); reflexivity. }
  destruct obj as [[|b|n|s|elems|fields]|]; try reflexivity.
  apply (Hobj (JObj fields)).
Qed.

Lemma updateSamplingRates_commit this cs t obj :
  updateSamplingRates (set_lastUpdateTime (set_store this cs) t) obj
  = set_lastUpdateTime (set_store (updateSamplingRates this obj) cs) t.
Proof. destruct obj as [[]|]; reflexivity. Qed.

Lemma time_is_older_sampled this specsJSON obj :
  time_is_older (updateSamplingRates this obj) specsJSON
  = time_is_older this specsJSON.
Proof.
  unfold time_is_older. rewrite updateSamplingRates_lastUpdateTime.
  reflexivity.
Qed.

Lemma process_sampled this specsJSON :
  truthy (has_updates specsJSON) = true ->
  time_is_older this specsJSON = Return false ->
  _process (updateSamplingRates this (diagnostics specsJSON)) specsJSON
  = _process this specsJSON.
Proof.
  intros Hu Hold. unfold _process. rewrite Hu. simpl.
  rewrite time_is_older_sampled, Hold.
  rewrite updateSamplingRates_idem. reflexivity.
Qed.

Lemma number_ltb_irrefl a : number_ltb a a = false.
Proof. destruct a; [apply Z.ltb_irrefl|reflexivity]. Qed.

(** Feeding [_process] the payload it has just handled changes nothing
    further and gets the same answer. *)
Lemma process_twice this specsJSON :
  _process (snd (_process this specsJSON)) specsJSON
  = _process this specsJSON.
Proof.
  destruct (truthy (has_updates specsJSON)) eqn:Hu.
  2:{ assert (Hfirst : _process this specsJSON = (Return false, this))
        by (unfold _process; rewrite Hu; reflexivity).
      rewrite Hfirst at 1. reflexivity. }
  destruct (time_is_older this specsJSON) as [[|]|err] eqn:Hold.
  { assert (Hfirst : _process this specsJSON = (Return false, this))
      by (unfold _process; rewrite Hu, Hold; reflexivity).
    rewrite Hfirst at 1. reflexivity. }
  2:{ assert (Hfirst : _process this specsJSON = (Throw err, this))
        by (unfold _process; rewrite Hu, Hold; reflexivity).
      rewrite Hfirst at 1. reflexivity. }
  destruct (_process this specsJSON) as [r this1] eqn:Hrun. simpl.
  pose proof Hrun as Hinv.
  apply process_inv in Hinv as [(_ & _ & Hl & [-> | ->])|Hacc].
  - exact Hrun.
  - rewrite process_sampled by assumption. exact Hrun.
  - destruct Hacc as (_ & _ & ga & ca & la & G & C & L & Hga & Hca & Hla
                      & HG & HC & HL & Hlast).
    simpl in Hlast.
    destruct (_reverseLayerExperimentMapping (specs_layers specsJSON))
      as [E|e] eqn:Hrev.
    + destruct Hlast as [-> ->].
      unfold _process. rewrite Hu. simpl.
      assert (Hold' : time_is_older
                (set_lastUpdateTime
                   (set_store
                      (updateSamplingRates this (diagnostics specsJSON))
                      {| gates := G; configs := C;
                         idLists := idLists (store
                           (updateSamplingRates this
                              (diagnostics specsJSON)));
                         layers := L; experimentToLayer := E |})
                   (time_or_last
                      (updateSamplingRates this (diagnostics specsJSON))
                      specsJSON)) specsJSON = Return false).
      { unfold time_is_older, time_or_last in *. simpl.
        rewrite updateSamplingRates_lastUpdateTime.
        destruct (time specsJSON) as [t|]; [|reflexivity].
        destruct (Number_ t) as [a|] eqn:Ha; [|discriminate Hold].
        destruct t; try (rewrite Ha, number_ltb_irrefl; reflexivity).
        exact Hold. }
      rewrite Hold'.
      rewrite updateSamplingRates_commit, updateSamplingRates_idem.
      rewrite Hga, Hca, Hla, HG, HC, HL, Hrev. simpl.
      f_equal. unfold set_lastUpdateTime, set_store, time_or_last. simpl.
      f_equal. destruct (time specsJSON) as [[]|]; reflexivity.
    + destruct Hlast as [-> ->].
      rewrite process_sampled by assumption. exact Hrun.
Qed.

(** C8: for a bootstrap string that parses, a second
    [syncBootstrapValues] with the same string leaves the store as the
    first one left it: same gates, configs, layers, [experimentToLayer]
    and [lastUpdateTime]. *)
Theorem syncBootstrapValues_idempotent this bootstrapValues specsJSON :
  JSON_parse bootstrapValues = Some specsJSON ->
  let once := snd (syncBootstrapValues this bootstrapValues) in
  let twice := snd (syncBootstrapValues once bootstrapValues) in
  gates (store twice) = gates (store once)
  /\ configs (store twice) = configs (store once)
  /\ layers (store twice) = layers (store once)
  /\ experimentToLayer (store twice) = experimentToLayer (store once)
  /\ lastUpdateTime twice = lastUpdateTime once.
Proof.
  intros Hparse. unfold syncBootstrapValues. rewrite Hparse. simpl.
  rewrite process_twice. repeat split; reflexivity.
Qed.

End SpecStoreFacts.

Section SpecStoreWitnesses.
#[local] Existing Instance sample_externals.

Lemma process_rejected_unchanged_witness :
  rejection sample_store_200 (sample_payload (Some (JNum 150)) ["gate_b"])
  /\ exists this',
       _process sample_store_200
         (sample_payload (Some (JNum 150)) ["gate_b"])
       = (Return false, this')
       /\ gates (store this') = gates (store sample_store_200)
       /\ configs (store this') = configs (store sample_store_200)
       /\ layers (store this') = layers (store sample_store_200)
       /\ experimentToLayer (store this')
          = experimentToLayer (store sample_store_200)
       /\ lastUpdateTime this' = lastUpdateTime sample_store_200.
Proof.
  assert (Hrej : rejection sample_store_200
                   (sample_payload (Some (JNum 150)) ["gate_b"])).
  { apply (older_time _ _ 150 200); reflexivity. }
  split; [exact Hrej|].
  exact (process_rejected_unchanged sample_store_200
           (sample_payload (Some (JNum 150)) ["gate_b"]) Hrej).
Defined.

Lemma lastUpdateTime_monotone_witness :
  exists this',
    _process
      (process_all SpecStore_new
         [sample_payload (Some (JNum 100)) ["gate_a"];
          sample_payload (Some (JNum 50)) ["gate_b"];
          sample_payload (Some JNull) ["gate_b"]])
      (sample_payload (Some (JNum 200)) ["gate_c"])
    = (Return true, this')
    /\ exists t1 t2,
         lastUpdateTime
           (process_all SpecStore_new
              [sample_payload (Some (JNum 100)) ["gate_a"];
               sample_payload (Some (JNum 50)) ["gate_b"];
               sample_payload (Some JNull) ["gate_b"]])
         = JNum t1
         /\ lastUpdateTime this' = JNum t2
         /\ 0 <= t1 <= t2.
Proof.
  eexists. split; [reflexivity|].
  refine (lastUpdateTime_monotone SpecStore_new
            [sample_payload (Some (JNum 100)) ["gate_a"];
             sample_payload (Some (JNum 50)) ["gate_b"];
             sample_payload (Some JNull) ["gate_b"]]
            (sample_payload (Some (JNum 200)) ["gate_c"]) _ 0 eq_refl _ _
            eq_refl).
  - repeat constructor.
  - exact I.
Defined.

(** A store stamped 200 takes a payload whose [time] is the string
    ["abc"]: [Number("abc")] is [NaN], which is below nothing, and the
    string becomes [lastUpdateTime].  From then on nothing is below
    [lastUpdateTime] either, and a payload stamped 1 is taken: the clock
    has gone from 200 back to 1. *)
Lemma lastUpdateTime_goes_back :
  lastUpdateTime sample_store_200 = JNum 200
  /\ exists this1 this2,
       _process sample_store_200
         (sample_payload (Some (JStr "abc")) ["gate_b"])
       = (Return true, this1)
       /\ lastUpdateTime this1 = JStr "abc"
       /\ _process this1 (sample_payload (Some (JNum 1)) ["gate_c"])
          = (Return true, this2)
       /\ lastUpdateTime this2 = JNum 1.
Proof.
  split; [reflexivity|]. do 2 eexists.
  split; [reflexivity|]. split; [reflexivity|].
  split; reflexivity.
Qed.

(** A [time] that cannot be converted to a number makes [_process]
    throw, whatever else the payload holds, as soon as [has_updates] is
    truthy. *)
Example process_unconvertible_time :
  _process sample_store_200
    (sample_payload (Some (JObj [("toString", JNum 1)])) ["gate_b"])
  = (Throw unconvertible, sample_store_200).
Proof. reflexivity. Qed.

Lemma syncBootstrapValues_idempotent_witness :
  JSON_parse "bootstrap-100"
  = Some (sample_payload (Some (JNum 100)) ["gate_a"; "gate_b"])
  /\ lastUpdateTime
       (snd (syncBootstrapValues
               (snd (syncBootstrapValues SpecStore_new "bootstrap-100"))
               "bootstrap-100"))
     = lastUpdateTime
         (snd (syncBootstrapValues SpecStore_new "bootstrap-100")).
Proof.
  split; [reflexivity|].
  exact (proj2 (proj2 (proj2 (proj2
           (syncBootstrapValues_idempotent SpecStore_new "bootstrap-100"
              _ eq_refl))))).
Defined.

End SpecStoreWitnesses.

Section OverrideFacts.

Lemma plain_index_Some {V} (v : V) key :
  plain_index (Some v) key = Some (Own v).
Proof. reflexivity. Qed.

Lemma plain_index_None {V} key :
  ~ In key Object_prototype_keys ->
  plain_index (@None V) key = None.
Proof.
  intros Hkey. unfold plain_index.
  destruct (bool_decide (key ∈ Object_prototype_keys)) eqn:E; [|reflexivity].
  apply bool_decide_eq_true in E. exfalso. apply Hkey, list_elem_of_In, E.
Qed.

Lemma plain_index_inherited {V} key :
  In key Object_prototype_keys ->
  plain_index (@None V) key = Some (Inherited key).
Proof.
  intros Hkey. unfold plain_index.
  rewrite bool_decide_eq_true_2; [reflexivity|]. apply list_elem_of_In, Hkey.
Qed.

Lemma plain_index_global {V} (own : option V) :
  plain_index own "" = Own <$> own.
Proof. destruct own; reflexivity. Qed.




(** A lookup that falls on an inherited property leaves the stored
    entries through it. *)
Lemma lookupGateOverride_inherited this user name :
  lands_on_inherited (gateOverrides this) user name ->
  exists key, lookupGateOverride this user name = Some (Inherited key).
Proof.
  unfold lands_on_inherited, lookupGateOverride.
  destruct (gateOverrides this !! name) as [entries|].
  - intros (id & -> & Hnone & Hin). rewrite plain_index_Some, Hnone.
    rewrite plain_index_inherited by exact Hin. eauto.
  - intros Hin. rewrite plain_index_inherited by exact Hin. eauto.
Qed.

(** The setters put the entry where the lookup expects it. *)
Lemma overrideGate_then_lookup this this' name stored id user :
  userID user = Some id ->
  id <> "__proto__" ->
  overrideGate this name stored (Some id) = Some this' ->
  exists e,
    lookupGateOverride this' user name = Some (Own e)
    /\ value e = stored.
Proof.
  intros Hid Hproto. unfold overrideGate, assign_flag. simpl.
  apply String.eqb_neq in Hproto. rewrite Hproto.
  intros Hset.
  assert (Hthis' : exists entries,
             gateOverrides this' = <[name := <[id := stored]> entries]>
                                     (gateOverrides this)).
  { destruct (plain_index (gateOverrides this !! name) name)
      as [[entries|key]|]; [|discriminate|];
      injection Hset as <-; eexists; reflexivity. }
  destruct Hthis' as [entries Hmaps].
  unfold lookupGateOverride. rewrite Hmaps, lookup_insert_eq.
  rewrite plain_index_Some, Hid, lookup_insert_eq, plain_index_Some.
  eexists. split; reflexivity.
Qed.

Lemma overrideGate_global_then_lookup this this' name stored user :
  gateOverrides this !! name = None ->
  (forall id, userID user = Some id -> ~ In id Object_prototype_keys) ->
  overrideGate this name stored None = Some this' ->
  exists e,
    lookupGateOverride this' user name = Some (Own e)
    /\ value e = stored.
Proof.
  intros Hnone Huser. unfold overrideGate, assign_flag. rewrite Hnone. simpl.
  intros Hset.
  assert (Hmaps : gateOverrides this'
                  = <[name := <["" := stored]> ∅]> (gateOverrides this)).
  { destruct (bool_decide (name ∈ Object_prototype_keys)); [discriminate|].
    injection Hset as <-. reflexivity. }
  unfold lookupGateOverride. rewrite Hmaps, lookup_insert_eq.
  rewrite plain_index_Some, plain_index_global, lookup_insert_eq.
  destruct (userID user) as [id|] eqn:Hid.
  - destruct (decide (id = "")) as [->|Hne].
    + rewrite lookup_insert_eq, plain_index_Some.
      eexists. split; reflexivity.
    + rewrite lookup_insert_ne by congruence. rewrite lookup_empty.
      rewrite plain_index_None by (apply Huser; reflexivity).
      eexists. split; reflexivity.
  - eexists. split; reflexivity.
Qed.

End OverrideFacts.

Section OverrideWitnesses.



End OverrideWitnesses.

Section HashFacts.
Context `{Externals}.



(** The table the module starts with. *)
Lemma cache_ok_empty : cache_ok ∅.
Proof. intros k v Hl. rewrite lookup_empty in Hl. discriminate Hl. Qed.

Lemma computeUserHash_hit tbl s h :
  tbl !! s = Some h -> h <> 0 ->
  computeUserHash s tbl = Some (h, tbl).
Proof.
  intros Hs Hh. unfold computeUserHash, if_truthy. rewrite Hs.
  destruct (h =? 0) eqn:E; [apply Z.eqb_eq in E; contradiction|reflexivity].
Qed.

Lemma computeUserHash_miss tbl s h :
  if_truthy (tbl !! s) = None -> sha256_u64 s = Some h ->
  computeUserHash s tbl
  = Some (h, <[s := h]> (if Z.of_nat (size tbl) >? 100000 then ∅ else tbl)).
Proof.
  intros Hs Hh. unfold computeUserHash. rewrite Hs.
  unfold sha256_u64 in Hh. rewrite Hh. reflexivity.
Qed.

(** The memo table never changes what is computed: with a table whose
    entries are right, [computeUserHash] returns the hash of its argument
    and leaves a table whose entries are right. *)
Lemma computeUserHash_correct tbl s h :
  cache_ok tbl -> sha256_u64 s = Some h ->
  exists tbl', computeUserHash s tbl = Some (h, tbl') /\ cache_ok tbl'.
Proof.
  intros Hok Hh.
  destruct (if_truthy (tbl !! s)) as [h'|] eqn:Hs.
  - unfold if_truthy in Hs.
    destruct (tbl !! s) as [h''|] eqn:Hl; [|discriminate].
    destruct (h'' =? 0) eqn:E; [discriminate|]. injection Hs as ->.
    pose proof (Hok _ _ Hl) as Hh'. rewrite Hh in Hh'. injection Hh' as ->.
    exists tbl. split; [|exact Hok].
    apply computeUserHash_hit; [exact Hl|]. apply Z.eqb_neq. exact E.
  - rewrite (computeUserHash_miss _ _ _ Hs Hh). eexists. split; [reflexivity|].
    intros k v. destruct (decide (s = k)) as [->|Hne].
    + rewrite lookup_insert_eq. intros [= <-]. exact Hh.
    + rewrite lookup_insert_ne by exact Hne.
      destruct (Z.of_nat (size tbl) >? 100000).
      * rewrite lookup_empty. discriminate.
      * apply Hok.
Qed.

(** [cache_ok] is an invariant of the table: it holds of the empty table
    and every call that returns preserves it. *)
Lemma computeUserHash_preserves_cache_ok tbl s h tbl' :
  cache_ok tbl ->
  computeUserHash s tbl = Some (h, tbl') ->
  cache_ok tbl'.
Proof.
  intros Hok. unfold computeUserHash.
  destruct (if_truthy (tbl !! s)) as [h'|].
  - intros [= _ <-]. exact Hok.
  - destruct (getBigUint64 (sha256Hash s) 0) as [h'|] eqn:Hh; [|discriminate].
    intros [= _ <-]. intros k v.
    destruct (decide (s = k)) as [->|Hne].
    + rewrite lookup_insert_eq. intros [= <-]. exact Hh.
    + rewrite lookup_insert_ne by exact Hne.
      destruct (Z.of_nat (size tbl) >? 100000).
      * rewrite lookup_empty. discriminate.
      * apply Hok.
Qed.

Lemma computeUserHash_all_preserves_cache_ok inputs : forall tbl tbl',
  cache_ok tbl ->
  computeUserHash_all inputs tbl = Some (tt, tbl') ->
  cache_ok tbl'.
Proof.
  induction inputs as [|s rest IH]; intros tbl tbl' Hok.
  - intros [= <-]. exact Hok.
  - cbn [computeUserHash_all]. unfold bind at 1.
    destruct (computeUserHash s tbl) as [[h tbl1]|] eqn:Hrun; [|discriminate].
    apply IH. exact (computeUserHash_preserves_cache_ok _ _ _ _ Hok Hrun).
Qed.

(** The bound the code does enforce: one above the threshold of the
    test. *)
Lemma computeUserHash_size tbl s h tbl' :
  Z.of_nat (size tbl) <= 100001 ->
  computeUserHash s tbl = Some (h, tbl') ->
  Z.of_nat (size tbl') <= 100001.
Proof.
  intros Hsize. unfold computeUserHash.
  destruct (if_truthy (tbl !! s)) as [h'|].
  - intros [= _ <-]. exact Hsize.
  - destruct (getBigUint64 (sha256Hash s) 0) as [h'|]; [|discriminate].
    intros [= _ <-].
    destruct (Z.of_nat (size tbl) >? 100000) eqn:E.
    + rewrite map_size_insert_None by apply lookup_empty.
      rewrite map_size_empty. lia.
    + rewrite Z.gtb_ltb in E. apply Z.ltb_ge in E.
      pose proof (map_size_insert s h' tbl) as Hs.
      destruct (tbl !! s); unfold id in Hs; lia.
Qed.

(** Past the threshold the next miss starts the table afresh. *)
Lemma computeUserHash_restart tbl s h :
  100000 < Z.of_nat (size tbl) ->
  if_truthy (tbl !! s) = None -> sha256_u64 s = Some h ->
  computeUserHash s tbl = Some (h, {[s := h]}).
Proof.
  intros Hsize Hs Hh. rewrite (computeUserHash_miss _ _ _ Hs Hh).
  destruct (Z.of_nat (size tbl) >? 100000) eqn:E.
  - reflexivity.
  - rewrite Z.gtb_ltb in E. apply Z.ltb_ge in E. lia.
Qed.

Lemma computeUserHash_all_fresh inputs : forall tbl,
  (forall s, is_Some (sha256_u64 s)) ->
  NoDup inputs ->
  (forall s, s ∈ inputs -> tbl !! s = None) ->
  Z.of_nat (size tbl) + Z.of_nat (length inputs) <= 100001 ->
  exists tbl',
    computeUserHash_all inputs tbl = Some (tt, tbl')
    /\ Z.of_nat (size tbl')
       = Z.of_nat (size tbl) + Z.of_nat (length inputs).
Proof.
  induction inputs as [|s rest IH]; intros tbl Hdigest Hnodup Hfresh Hsize.
  - exists tbl. split; [reflexivity|]. simpl. lia.
  - apply NoDup_cons in Hnodup as [Hs Hrest].
    destruct (Hdigest s) as [h Hh].
    assert (Hnone : tbl !! s = None) by (apply Hfresh; left).
    assert (Hmiss : if_truthy (tbl !! s) = None) by (rewrite Hnone; reflexivity).
    cbn [computeUserHash_all]. unfold bind at 1.
    rewrite (computeUserHash_miss _ _ _ Hmiss Hh).
    cbn [length] in Hsize.
    destruct (Z.of_nat (size tbl) >? 100000) eqn:E.
    { rewrite Z.gtb_ltb in E. apply Z.ltb_lt in E. lia. }
    destruct (IH (<[s := h]> tbl) Hdigest Hrest) as (tbl' & Hrun & Hsz).
    + intros s' Hs'. rewrite lookup_insert_ne.
      * apply Hfresh. right. exact Hs'.
      * intros ->. contradiction.
    + rewrite map_size_insert_None by exact Hnone. lia.
    + exists tbl'. split; [exact Hrun|].
      rewrite Hsz, map_size_insert_None by exact Hnone.
      cbn [length]. lia.
Qed.

(** C7 (as the code behaves): 100001 calls on pairwise distinct inputs,
    starting from the empty table, all return and leave 100001 entries in
    the table, one more than the cap of 100000. *)
Theorem hashLookupTable_overshoots :
  (forall s, is_Some (sha256_u64 s)) ->
  exists tbl,
    computeUserHash_all (distinct_inputs (Z.to_nat 100001)) ∅ = Some (tt, tbl)
    /\ Z.of_nat (size tbl) = 100001.
Proof.
  intros Hdigest.
  destruct (computeUserHash_all_fresh (distinct_inputs (Z.to_nat 100001))
              ∅ Hdigest) as (tbl & Hrun & Hsize).
  - unfold distinct_inputs. apply NoDup_fmap_2; [apply _|apply NoDup_seq].
  - intros s _. apply lookup_empty.
  - unfold distinct_inputs. rewrite length_fmap, length_seq, map_size_empty.
    rewrite Z2Nat.id; lia.
  - exists tbl. split; [exact Hrun|].
    rewrite Hsize. unfold distinct_inputs.
    rewrite length_fmap, length_seq, map_size_empty.
    rewrite Z2Nat.id; lia.
Qed.

End HashFacts.

Section AllocationFacts.
Context `{Externals}.











End AllocationFacts.

Section HashWitnesses.
#[local] Existing Instance sample_externals.

Lemma sample_digests s : is_Some (sha256_u64 s).
Proof. eexists. reflexivity. Defined.

Lemma hashLookupTable_overshoots_witness :
  exists tbl,
    computeUserHash_all (distinct_inputs (Z.to_nat 100001)) ∅ = Some (tt, tbl)
    /\ Z.of_nat (size tbl) = 100001.
Proof. exact (hashLookupTable_overshoots sample_digests). Defined.


(** Salt ["s"], rule salt ["r"], unit ["u1"]: the hash falls in bucket
    1578, which is inside a 50% allocation and outside a 10% one. *)
Example allocation_at_50 :
  fst <$> _evalPassPercent sample_user
            (sample_rule "r50" 50%float [] None None) sample_exp_A ∅
  = Some true.
Proof. vm_compute. reflexivity. Qed.

Example allocation_at_10 :
  fst <$> _evalPassPercent sample_user
            (sample_rule "r10" 10%float [] None None) sample_exp_A ∅
  = Some false.
Proof. vm_compute. reflexivity. Qed.

(** A rule that allocates by [CompanyID] hashes the company of the user,
    found under the key [companyID]: the key of the hash is
    ["s.r.company-7"], whose bucket, 3370, is outside a 25% allocation
    and inside a 50% one. *)
Example allocation_by_company :
  _evalPassPercent sample_member (sample_company_rule 25) sample_exp_A ∅
  = Some (false, {[ "s.r.company-7" := 3370 ]})
  /\ fst <$> _evalPassPercent sample_member (sample_company_rule 50)
               sample_exp_A ∅
     = Some true
  /\ passes_allocation 3370 25%float = false
  /\ passes_allocation 3370 50%float = true.
Proof. repeat split; vm_compute; reflexivity. Qed.


End HashWitnesses.

Section DigestWitnesses.
#[local] Existing Instance repo_externals.

(** The worked example of the description, with the digest of
    [utils/Sha256.ts]: salt ["s"], rule salt ["r"], unit ["u1"].  The
    hash is [13480242120073834917], its bucket 4917: inside a 50%
    allocation, outside a 49% one. *)
Example allocation_worked_example :
  sha256_u64 "s.r.u1" = Some 13480242120073834917
  /\ 13480242120073834917 mod 10000 = 4917
  /\ _evalPassPercent sample_user
       (sample_rule "r50" 50%float [] None None) sample_exp_A ∅
     = Some (true, {[ "s.r.u1" := 13480242120073834917 ]})
  /\ fst <$> _evalPassPercent sample_user
               (sample_rule "r49" 49%float [] None None) sample_exp_A ∅
     = Some false.
Proof. repeat split; vm_compute; reflexivity. Qed.

End DigestWitnesses.

Section FetchFacts.
Context `{Externals}.

(** The [else] branch that deletes the list is never taken: [parseInt]
    always yields something of type number. *)
Lemma typeof_parseInt contentLength :
  typeof_is_number (parseInt contentLength) = true.
Proof. destruct (parseInt contentLength); reflexivity. Qed.

(** With the header present, its parsed value is added to [readBytes]
    first and the body is handed to [updateIdList] afterwards. *)
Lemma genFetchIDList_counts_then_parses this name url readSize res
    contentLength l :
  content_length res = Some contentLength ->
  idLists (store this) !! name = Some l ->
  idLists (store (fst (genFetchIDList this name url readSize (Return res))))
  = updateIdList
      (<[name := add_readBytes l (parseInt contentLength)]>
         (idLists (store this)))
      name (text res).
Proof.
  intros Hlen Hl. unfold genFetchIDList, process_id_list_response.
  rewrite Hlen, typeof_parseInt, Hl. reflexivity.
Qed.

(** C6 (as the code behaves): when the response carries no Content-Length
    header the failure is reported, but the list stays in the store, with
    the [readBytes] it had. *)
Theorem genFetchIDList_missing_header_keeps_list this name url readSize res l :
  content_length res = None ->
  idLists (store this) !! name = Some l ->
  let out := genFetchIDList this name url readSize (Return res) in
  idLists (store (fst out)) !! name = Some l
  /\ In (Warn invalid_length) (snd out)
  /\ In (Marker "get_id_list" "end" "process" (Some (MV_bool false)) url)
       (snd out).
Proof.
  intros Hlen Hl. unfold genFetchIDList, process_id_list_response.
  rewrite Hlen. cbn [fst snd]. split; [exact Hl|].
  split; apply in_or_app; right; simpl; auto.
Qed.

End FetchFacts.

Section FetchWitnesses.
#[local] Existing Instance sample_externals.

Lemma genFetchIDList_missing_header_keeps_list_witness :
  let out :=
    genFetchIDList sample_list_store "list_1" "https://lists/list_1"
      (Num 15) (Return (sample_response None)) in
  idLists (store (fst out)) !! "list_1" = Some sample_list
  /\ In (Warn invalid_length) (snd out)
  /\ In (Marker "get_id_list" "end" "process" (Some (MV_bool false))
           "https://lists/list_1") (snd out).
Proof.
  exact (genFetchIDList_missing_header_keeps_list sample_list_store "list_1"
           "https://lists/list_1" (Num 15) (sample_response None) sample_list
           eq_refl eq_refl).
Defined.

Example genFetchIDList_with_header :
  readBytes <$>
    (idLists (store (fst (genFetchIDList sample_list_store "list_1"
                            "https://lists/list_1" (Num 15)
                            (Return (sample_response (Some "10"))))))
       !! "list_1")
  = Some (Num 25).
Proof. reflexivity. Qed.

End FetchWitnesses.

Section RuleFacts.
Context `{Externals}.
Variable this : Evaluator.
Variable this_eval : StatsigUser -> ConfigSpec -> M ConfigEvaluation.

Lemma run_all_length {A B} (f : A -> M B) l : forall tbl results tbl',
  run_all f l tbl = Some (results, tbl') -> length results = length l.
Proof.
  induction l as [|a l IH]; intros tbl results tbl'; simpl.
  - intros [= <- _]. reflexivity.
  - unfold bind at 1. destruct (f a tbl) as [[b tbl1]|]; [|discriminate].
    unfold bind at 1.
    destruct (run_all f l tbl1) as [[bs tbl2]|] eqn:Hrest; [|discriminate].
    intros [= <- _]. simpl. f_equal. eapply IH. exact Hrest.
Qed.

Lemma run_all_cons_inv {A B} (f : A -> M B) a l tbl results tbl' :
  run_all f (a :: l) tbl = Some (results, tbl') ->
  exists b tbl1 bs,
    f a tbl = Some (b, tbl1)
    /\ run_all f l tbl1 = Some (bs, tbl')
    /\ results = b :: bs.
Proof.
  simpl. unfold bind at 1.
  destruct (f a tbl) as [[b tbl1]|]; [|discriminate].
  unfold bind at 1.
  destruct (run_all f l tbl1) as [[bs tbl2]|] eqn:Hrest; [|discriminate].
  intros [= <- <-]. exists b, tbl1, bs. auto.
Qed.

(** The loop of [_evalRule] over conditions none of which is unsupported:
    it visits them all, conjoins their verdicts and appends their
    exposures. *)
Lemma rule_loop_all user conds : forall pass acc tbl results tbl',
  run_all (_evalCondition this this_eval user) conds tbl = Some (results, tbl') ->
  Forall (fun r => cond_unsupported r = false) results ->
  rule_loop this this_eval user conds pass acc tbl
  = Some (Some (pass && forallb passes results,
                acc ++ concat (map contributed results)), tbl').
Proof.
  induction conds as [|c conds IH]; intros pass acc tbl results tbl' Hrun Hsup.
  - simpl in Hrun. injection Hrun as <- <-. simpl.
    rewrite andb_true_r, app_nil_r. reflexivity.
  - apply run_all_cons_inv in Hrun as (r & tbl1 & rs & Hc & Hrest & ->).
    apply Forall_cons in Hsup as [Hr Hrs].
    cbn [rule_loop]. unfold bind at 1. rewrite Hc, Hr.
    rewrite (IH _ _ _ _ _ Hrest Hrs). cbn [forallb map concat].
    unfold contributed at 2.
    destruct (passes r), (exposures r); cbn [negb];
      rewrite ?andb_true_r, ?andb_false_r, ?andb_true_l, ?andb_false_l,
        ?app_assoc, ?app_nil_r; reflexivity.
Qed.

(** The loop stops at the first unsupported condition. *)
Lemma rule_loop_unsupported user before c after :
  forall pass acc tbl results tbl1 r tbl2,
  run_all (_evalCondition this this_eval user) before tbl = Some (results, tbl1) ->
  Forall (fun r => cond_unsupported r = false) results ->
  _evalCondition this this_eval user c tbl1 = Some (r, tbl2) ->
  cond_unsupported r = true ->
  rule_loop this this_eval user (before ++ c :: after) pass acc tbl
  = Some (None, tbl2).
Proof.
  induction before as [|b before IH];
    intros pass acc tbl results tbl1 r tbl2 Hrun Hsup Hc Hr.
  - simpl in Hrun. injection Hrun as <- <-.
    cbn [app rule_loop]. unfold bind at 1. rewrite Hc, Hr. reflexivity.
  - apply run_all_cons_inv in Hrun as (rb & tblb & rs & Hb & Hrest & ->).
    apply Forall_cons in Hsup as [Hrb Hrs].
    cbn [app rule_loop]. unfold bind at 1. rewrite Hb, Hrb.
    eapply IH; eassumption.
Qed.

(** C9: [_evalRule] does not stop at a failing condition.  When no
    condition of the rule is unsupported, every condition is evaluated,
    the returned [secondary_exposures] are the exposures of all conditions
    in declaration order, and the returned [value] is true iff no
    condition failed. *)
Theorem evalRule_no_short_circuit user rule tbl results tbl' :
  run_all (_evalCondition this this_eval user) (conditions rule) tbl
  = Some (results, tbl') ->
  Forall (fun r => cond_unsupported r = false) results ->
  exists evaluation,
    _evalRule this this_eval user rule tbl = Some (evaluation, tbl')
    /\ length results = length (conditions rule)
    /\ secondary_exposures evaluation = concat (map contributed results)
    /\ (value evaluation = true <-> Forall (fun r => passes r = true) results)
    /\ unsupported evaluation = false.
Proof.
  intros Hrun Hsup. unfold _evalRule, bind.
  rewrite (rule_loop_all _ _ true [] _ _ _ Hrun Hsup).
  eexists. split; [reflexivity|]. cbn.
  split; [eapply run_all_length; exact Hrun|].
  split; [reflexivity|]. split; [|reflexivity].
  rewrite forallb_forall, List.Forall_forall. reflexivity.
Qed.

(** The one exception: an unsupported condition ends the rule at once
    with the unsupported evaluation. *)
Lemma evalRule_unsupported user rule before c after tbl results tbl1 r tbl2 :
  conditions rule = before ++ c :: after ->
  run_all (_evalCondition this this_eval user) before tbl = Some (results, tbl1) ->
  Forall (fun r => cond_unsupported r = false) results ->
  _evalCondition this this_eval user c tbl1 = Some (r, tbl2) ->
  cond_unsupported r = true ->
  exists evaluation,
    _evalRule this this_eval user rule tbl = Some (evaluation, tbl2)
    /\ unsupported evaluation = true.
Proof.
  intros Hconds Hrun Hsup Hc Hr. unfold _evalRule, bind. rewrite Hconds.
  rewrite (rule_loop_unsupported _ _ _ _ true [] _ _ _ _ _ Hrun Hsup Hc Hr).
  eexists. split; reflexivity.
Qed.

End RuleFacts.

Section RuleWitnesses.
#[local] Existing Instance sample_externals.

Lemma evalRule_no_short_circuit_witness :
  run_all (_evalCondition (sample_evaluator 100)
             (_eval (sample_evaluator 100) 4) sample_user)
    (conditions sample_outer_rule) ∅
  = Some (sample_outer_results, {[ "s.r.u1" := 1578 ]})
  /\ Forall (fun r => cond_unsupported r = false) sample_outer_results
  /\ exists evaluation,
       _evalRule (sample_evaluator 100) (_eval (sample_evaluator 100) 4)
         sample_user sample_outer_rule ∅
       = Some (evaluation, {[ "s.r.u1" := 1578 ]})
       /\ length sample_outer_results = length (conditions sample_outer_rule)
       /\ secondary_exposures evaluation
          = concat (map contributed sample_outer_results)
       /\ (value evaluation = true
           <-> Forall (fun r => passes r = true) sample_outer_results)
       /\ unsupported evaluation = false.
Proof.
  assert (Hrun :
    run_all (_evalCondition (sample_evaluator 100)
               (_eval (sample_evaluator 100) 4) sample_user)
      (conditions sample_outer_rule) ∅
    = Some (sample_outer_results, {[ "s.r.u1" := 1578 ]}))
    by (vm_compute; reflexivity).
  assert (Hsup : Forall (fun r => cond_unsupported r = false)
                   sample_outer_results)
    by (repeat constructor).
  split; [exact Hrun|]. split; [exact Hsup|].
  exact (evalRule_no_short_circuit (sample_evaluator 100)
           (_eval (sample_evaluator 100) 4) sample_user sample_outer_rule
           ∅ _ _ Hrun Hsup).
Defined.

End RuleWitnesses.

Section EvalFacts.
Context `{Externals}.
Variable this : Evaluator.

(** Rules that are supported and do not pass are walked over; each leaves
    its exposures behind. *)
Lemma eval_rules_skip this_eval user config before :
  forall rest gathered tbl results tbl',
  run_all (_evalRule this this_eval user) before tbl = Some (results, tbl') ->
  Forall (fun e => unsupported e = false /\ value e = false) results ->
  eval_rules this this_eval user config (before ++ rest) gathered tbl
  = eval_rules this this_eval user config rest
      (gathered ++ concat (map secondary_exposures results)) tbl'.
Proof.
  induction before as [|r before IH];
    intros rest gathered tbl results tbl' Hrun Hskip.
  - simpl in Hrun. injection Hrun as <- <-. simpl.
    rewrite app_nil_r. reflexivity.
  - apply run_all_cons_inv in Hrun as (e & tbl1 & es & He & Hrest & ->).
    apply Forall_cons in Hskip as [[Hsup Hval] Hes].
    cbn [app eval_rules]. unfold bind at 1. rewrite He, Hsup, Hval.
    rewrite (IH _ _ _ _ _ Hrest Hes). cbn [map concat].
    rewrite app_assoc. reflexivity.
Qed.

(** A disabled spec is answered before any rule is looked at. *)
Lemma eval_disabled fuel user config tbl :
  enabled config = false ->
  exists e,
    _eval this (S fuel) user config tbl = Some (e, tbl)
    /\ rule_id e = "disabled"
    /\ value e = false
    /\ config_delegate e = None.
Proof.
  intros Hen. cbn [_eval]. unfold _eval_body. rewrite Hen.
  eexists. repeat split.
Qed.

(** A rule with an unsupported condition ends the evaluation, whatever
    the rules after it would have said. *)
Lemma eval_unsupported_rule fuel user config before rule after skipped tbl
    tbl0 ruleResult tbl1 :
  enabled config = true ->
  rules config = before ++ rule :: after ->
  run_all (_evalRule this (_eval this fuel) user) before tbl
  = Some (skipped, tbl0) ->
  Forall (fun e => unsupported e = false /\ value e = false) skipped ->
  _evalRule this (_eval this fuel) user rule tbl0 = Some (ruleResult, tbl1) ->
  unsupported ruleResult = true ->
  exists e,
    _eval this (S fuel) user config tbl = Some (e, tbl1)
    /\ unsupported e = true
    /\ config_delegate e = None.
Proof.
  intros Hen Hrules Hskipped Hskip Hrule Hsup.
  cbn [_eval]. unfold _eval_body. rewrite Hen. cbn [negb]. rewrite Hrules.
  rewrite (eval_rules_skip _ _ _ _ _ _ _ _ _ Hskipped Hskip).
  cbn [eval_rules]. unfold bind at 1. rewrite Hrule, Hsup.
  eexists. repeat split.
Qed.

(** A delegate that is not in the catalog is no delegate at all. *)
Lemma evalDelegate_missing this_eval user rule gathered delegate tbl :
  configDelegate rule = Some delegate ->
  getConfig (specStore this) delegate = None ->
  _evalDelegate this this_eval user rule gathered tbl = Some (None, tbl).
Proof.
  intros Hd Hc. unfold _evalDelegate. rewrite Hd, Hc. reflexivity.
Qed.

(** C4: delegation.  When [_eval] reaches the first passing rule of an
    enabled spec and that rule names a delegate present among the configs,
    the result is the delegate's own evaluation with [config_delegate] set
    to the rule's delegate, [undelegated_secondary_exposures] set to the
    exposures gathered so far, those exposures put in front of the
    delegate's [secondary_exposures], [explicit_parameters] taken from the
    delegate spec, and [group_name] taken from the delegate's result when
    it has one and from the rule otherwise. *)
Theorem eval_delegates fuel user config before rule after skipped tbl tbl0
    ruleResult tbl1 delegate dspec delegatedResult tbl2 :
  enabled config = true ->
  rules config = before ++ rule :: after ->
  run_all (_evalRule this (_eval this fuel) user) before tbl
  = Some (skipped, tbl0) ->
  Forall (fun e => unsupported e = false /\ value e = false) skipped ->
  _evalRule this (_eval this fuel) user rule tbl0 = Some (ruleResult, tbl1) ->
  unsupported ruleResult = false ->
  value ruleResult = true ->
  configDelegate rule = Some delegate ->
  getConfig (specStore this) delegate = Some dspec ->
  _eval this fuel user dspec tbl1 = Some (delegatedResult, tbl2) ->
  let gathered :=
    concat (map secondary_exposures skipped)
    ++ secondary_exposures ruleResult in
  exists e,
    _eval this (S fuel) user config tbl = Some (e, tbl2)
    /\ config_delegate e = Some delegate
    /\ undelegated_secondary_exposures e = Some gathered
    /\ secondary_exposures e
       = gathered ++ secondary_exposures delegatedResult
    /\ explicit_parameters e = explicitParameters dspec
    /\ group_name e = match group_name delegatedResult with
                      | Some g => Some g
                      | None => groupName rule
                      end
    /\ value e = value delegatedResult
    /\ rule_id e = rule_id delegatedResult
    /\ json_value e = json_value delegatedResult
    /\ unsupported e = unsupported delegatedResult
    /\ is_experiment_group e = is_experiment_group delegatedResult
    /\ evaluation_details e = evaluation_details delegatedResult
    /\ configVersion e = configVersion delegatedResult.
Proof.
  intros Hen Hrules Hskipped Hskip Hrule Hsup Hval Hdel Hspec Hrec gathered.
  exists (delegated delegatedResult rule dspec gathered).
  split.
  - cbn [_eval]. unfold _eval_body. rewrite Hen. cbn [negb].
    rewrite Hrules.
    rewrite (eval_rules_skip _ _ _ _ _ _ _ _ _ Hskipped Hskip).
    cbn [eval_rules]. unfold bind at 1. rewrite Hrule, Hsup, Hval.
    unfold bind at 1. unfold _evalDelegate. rewrite Hdel, Hspec.
    unfold bind at 1. rewrite Hrec. reflexivity.
  - unfold delegated. cbn. rewrite Hdel. repeat split; reflexivity.
Qed.

End EvalFacts.

Section EvalWitnesses.
#[local] Existing Instance sample_externals.

Lemma eval_delegates_witness :
  exists e,
    _eval (sample_evaluator 100) 4 sample_user sample_exp_A ∅
    = Some (e, {[ "s.r.u1" := 1578 ]})
    /\ config_delegate e = Some "exp_B"
    /\ undelegated_secondary_exposures e
       = Some (concat (map secondary_exposures sample_skipped)
               ++ secondary_exposures sample_ruleResult)
    /\ secondary_exposures e
       = (concat (map secondary_exposures sample_skipped)
          ++ secondary_exposures sample_ruleResult)
         ++ secondary_exposures sample_delegatedResult
    /\ explicit_parameters e = explicitParameters sample_exp_B
    /\ group_name e = match group_name sample_delegatedResult with
                      | Some g => Some g
                      | None => groupName sample_delegating_rule
                      end
    /\ value e = value sample_delegatedResult
    /\ rule_id e = rule_id sample_delegatedResult
    /\ json_value e = json_value sample_delegatedResult
    /\ unsupported e = unsupported sample_delegatedResult
    /\ is_experiment_group e = is_experiment_group sample_delegatedResult
    /\ evaluation_details e = evaluation_details sample_delegatedResult
    /\ configVersion e = configVersion sample_delegatedResult.
Proof.
  refine (eval_delegates (sample_evaluator 100) 3 sample_user sample_exp_A
            [sample_closed_rule] sample_delegating_rule [] sample_skipped
            ∅ {[ "s.r.u1" := 1578 ]} sample_ruleResult
            {[ "s.r.u1" := 1578 ]} "exp_B" sample_exp_B
            sample_delegatedResult {[ "s.r.u1" := 1578 ]}
            eq_refl eq_refl _ _ _ eq_refl eq_refl eq_refl eq_refl _).
  - vm_compute. reflexivity.
  - repeat constructor.
  - vm_compute. reflexivity.
  - vm_compute. reflexivity.
Defined.

End EvalWitnesses.

Section ClientInitializeFacts.
Context `{Externals}.
Variable this : Evaluator.

(** A store that is not serving checks answers [null] and touches
    nothing. *)
Lemma getClientInitializeResponse_not_serving fuel heap user hash tbl :
  isServingChecks (specStore this) = false ->
  getClientInitializeResponse this fuel heap user hash tbl
  = Some ((None, heap), tbl).
Proof.
  intros Hserving. unfold getClientInitializeResponse.
  rewrite Hserving. reflexivity.
Qed.

(** C10 (amended): when the store is serving checks, a call that returns
    has deleted [privateAttributes] from the object its argument refers
    to, has left every other object alone, and has put that same
    reference in the payload's [user] field. *)
Theorem getClientInitializeResponse_strips_in_place fuel heap user hash tbl u
    result tbl' :
  isServingChecks (specStore this) = true ->
  heap !! user = Some u ->
  getClientInitializeResponse this fuel heap user hash tbl
  = Some (result, tbl') ->
  exists payload heap',
    result = (Some payload, heap')
    /\ heap' !! user = Some (delete_privateAttributes u)
    /\ privateAttributes (delete_privateAttributes u) = None
    /\ (forall other, other <> user -> heap' !! other = heap !! other)
    /\ cir_user payload = user.
Proof.
  intros Hserving Hu. unfold getClientInitializeResponse.
  rewrite Hserving. cbn [negb]. unfold bind at 1. unfold lift. rewrite Hu.
  unfold ret at 1. unfold bind at 1.
  destruct (run_all (gate_entry this fuel u hash) _ tbl)
    as [[gates tbl1]|]; [|discriminate].
  unfold bind at 1.
  destruct (run_all (config_entry this fuel u hash) _ tbl1)
    as [[configs tbl2]|]; [|discriminate].
  unfold bind at 1.
  destruct (run_all (layer_entry this fuel u hash) _ tbl2)
    as [[layers tbl3]|]; [|discriminate].
  intros [= <- <-].
  eexists. eexists. split; [reflexivity|].
  split; [apply lookup_insert_eq|]. split; [reflexivity|].
  split; [|reflexivity].
  intros other Hne. apply lookup_insert_ne. congruence.
Qed.

End ClientInitializeFacts.

Section ClientInitializeWitnesses.
#[local] Existing Instance sample_externals.

Lemma getClientInitializeResponse_strips_in_place_witness :
  exists result tbl',
    getClientInitializeResponse (sample_evaluator 100) 4
      {[ 1%positive := sample_user ]} 1%positive None ∅
    = Some (result, tbl')
    /\ exists payload heap',
         result = (Some payload, heap')
         /\ heap' !! 1%positive = Some (delete_privateAttributes sample_user)
         /\ privateAttributes (delete_privateAttributes sample_user) = None
         /\ (forall other, other <> 1%positive ->
             heap' !! other
             = ({[ 1%positive := sample_user ]} : Heap) !! other)
         /\ cir_user payload = 1%positive.
Proof.
  destruct (getClientInitializeResponse (sample_evaluator 100) 4
              {[ 1%positive := sample_user ]} 1%positive None ∅)
    as [[result tbl']|] eqn:Hrun.
  - exists result, tbl'. split; [reflexivity|].
    exact (getClientInitializeResponse_strips_in_place (sample_evaluator 100)
             4 {[ 1%positive := sample_user ]} 1%positive None ∅ sample_user
             result tbl' eq_refl eq_refl Hrun).
  - exfalso. vm_compute in Hrun. discriminate Hrun.
Defined.

(** C10 fails as stated: on a store that has not loaded any specs the call
    returns [null] and the user keeps [privateAttributes]. *)
Lemma getClientInitializeResponse_untouched_when_not_serving :
  getClientInitializeResponse Evaluator_new 4
    {[ 1%positive := sample_user ]} 1%positive None ∅
  = Some ((None, {[ 1%positive := sample_user ]}), ∅)
  /\ privateAttributes sample_user = Some [("secret", JStr "do not log")]
  /\ ~ mutates_user_in_place Evaluator_new 4
         {[ 1%positive := sample_user ]} 1%positive None ∅.
Proof.
  split; [reflexivity|]. split; [reflexivity|].
  intros Hclaim.
  destruct (Hclaim sample_user eq_refl (ex_intro _ _ eq_refl))
    as (payload & heap' & tbl' & u' & Hrun & _).
  discriminate Hrun.
Qed.

End ClientInitializeWitnesses.

(** ** More fuel never changes an answer *)

Section FuelFacts.
Context `{Externals}.
Variable this : Evaluator.

Ltac step_bind Hrun :=
  unfold bind at 1 in Hrun; unfold bind at 1;
  match type of Hrun with
  | match ?m with _ => _ end = _ =>
      let E := fresh "E" in
      destruct m as [[? ?]|] eqn:E; [|discriminate Hrun]
  end.

Lemma evalSpec_extends ev ev' user config tbl r :
  extends ev ev' ->
  _evalSpec this ev user config tbl = Some r ->
  _evalSpec this ev' user config tbl = Some r.
Proof.
  intros Hext. unfold _evalSpec. destruct config as [config|]; [|trivial].
  intros Hrun. step_bind Hrun. rewrite (Hext _ _ _ _ E). exact Hrun.
Qed.

Lemma checkGate_extends ev ev' user gateName tbl r :
  extends ev ev' ->
  checkGate this ev user gateName tbl = Some r ->
  checkGate this ev' user gateName tbl = Some r.
Proof.
  intros Hext. unfold checkGate.
  destruct (lookupGateOverride this user gateName); [trivial|].
  destruct (is_Uninitialized _); [trivial|].
  apply evalSpec_extends. exact Hext.
Qed.

Lemma multi_gate_loop_extends ev ev' user type gateNames :
  extends ev ev' ->
  forall acc tbl r,
  multi_gate_loop this ev user type gateNames acc tbl = Some r ->
  multi_gate_loop this ev' user type gateNames acc tbl = Some r.
Proof.
  intros Hext. induction gateNames as [|g rest IH]; intros acc tbl r.
  - trivial.
  - cbn [multi_gate_loop]. intros Hrun. step_bind Hrun.
    rewrite (checkGate_extends _ _ _ _ _ _ Hext E).
    destruct (unsupported c); [exact Hrun|].
    destruct (if String.eqb type "multi_pass_gate" then value c
              else negb (value c)); [exact Hrun|].
    apply IH. exact Hrun.
Qed.

Lemma evalCondition_extends ev ev' user condition tbl r :
  extends ev ev' ->
  _evalCondition this ev user condition tbl = Some r ->
  _evalCondition this ev' user condition tbl = Some r.
Proof.
  intros Hext. unfold _evalCondition.
  destruct (String.eqb (toLowerCase (cond_type condition)) "public");
    [trivial|].
  destruct (String.eqb (toLowerCase (cond_type condition)) "fail_gate"
            || String.eqb (toLowerCase (cond_type condition)) "pass_gate").
  { intros Hrun. step_bind Hrun.
    rewrite (checkGate_extends _ _ _ _ _ _ Hext E). exact Hrun. }
  destruct (String.eqb (toLowerCase (cond_type condition)) "multi_pass_gate"
            || String.eqb (toLowerCase (cond_type condition))
                 "multi_fail_gate").
  { destruct (targetValue condition) as [[| | | |gateNames|]|]; trivial.
    apply multi_gate_loop_extends. exact Hext. }
  trivial.
Qed.

Lemma rule_loop_extends ev ev' user conds :
  extends ev ev' ->
  forall pass acc tbl r,
  rule_loop this ev user conds pass acc tbl = Some r ->
  rule_loop this ev' user conds pass acc tbl = Some r.
Proof.
  intros Hext. induction conds as [|c conds IH]; intros pass acc tbl r.
  - trivial.
  - cbn [rule_loop]. intros Hrun. step_bind Hrun.
    rewrite (evalCondition_extends _ _ _ _ _ _ Hext E).
    destruct (cond_unsupported c0); [exact Hrun|].
    apply IH. exact Hrun.
Qed.

Lemma evalRule_extends ev ev' user rule tbl r :
  extends ev ev' ->
  _evalRule this ev user rule tbl = Some r ->
  _evalRule this ev' user rule tbl = Some r.
Proof.
  intros Hext. unfold _evalRule. intros Hrun. step_bind Hrun.
  rewrite (rule_loop_extends _ _ _ _ Hext _ _ _ _ E). exact Hrun.
Qed.

Lemma evalDelegate_extends ev ev' user rule gathered tbl r :
  extends ev ev' ->
  _evalDelegate this ev user rule gathered tbl = Some r ->
  _evalDelegate this ev' user rule gathered tbl = Some r.
Proof.
  intros Hext. unfold _evalDelegate.
  destruct (configDelegate rule) as [delegate|]; [|trivial].
  destruct (getConfig (specStore this) delegate) as [config|]; [|trivial].
  intros Hrun. step_bind Hrun. rewrite (Hext _ _ _ _ E). exact Hrun.
Qed.

Lemma eval_rules_extends ev ev' user config rules :
  extends ev ev' ->
  forall gathered tbl r,
  eval_rules this ev user config rules gathered tbl = Some r ->
  eval_rules this ev' user config rules gathered tbl = Some r.
Proof.
  intros Hext. induction rules as [|rule rest IH]; intros gathered tbl r.
  - trivial.
  - cbn [eval_rules]. intros Hrun. step_bind Hrun.
    rewrite (evalRule_extends _ _ _ _ _ _ Hext E).
    destruct (unsupported c); [exact Hrun|].
    destruct (value c); [|apply IH; exact Hrun].
    step_bind Hrun.
    rewrite (evalDelegate_extends _ _ _ _ _ _ _ Hext E0). exact Hrun.
Qed.

Lemma eval_fuel_step fuel : extends (_eval this fuel) (_eval this (S fuel)).
Proof.
  induction fuel as [|fuel IH]; intros user config tbl r.
  - discriminate.
  - change (_eval this (S fuel)) with (_eval_body this (_eval this fuel)).
    change (_eval this (S (S fuel)))
      with (_eval_body this (_eval this (S fuel))).
    unfold _eval_body. destruct (negb (enabled config)); [trivial|].
    apply eval_rules_extends. exact IH.
Qed.

(** Once [_eval] answers within some depth, it gives the same answer at
    every greater depth. *)
Lemma eval_fuel_monotone fuel fuel' user config tbl r :
  (fuel <= fuel')%nat ->
  _eval this fuel user config tbl = Some r ->
  _eval this fuel' user config tbl = Some r.
Proof.
  induction 1 as [|fuel' _ IH]; [trivial|].
  intros Hrun. apply eval_fuel_step. apply IH. exact Hrun.
Qed.

End FuelFacts.

(** ** Evaluation keeps the memo table sound *)

Section CacheFacts.
Context `{Externals}.
Variable this : Evaluator.

Lemma preserves_ret {A} (a : A) : preserves_cache (ret a).
Proof. intros tbl a' tbl' Hok [= _ <-]. exact Hok. Qed.

Lemma preserves_raise {A} : preserves_cache (@raise A).
Proof. intros tbl a tbl' _ Hrun. discriminate Hrun. Qed.

Lemma preserves_lift {A} (o : option A) : preserves_cache (lift o).
Proof. destruct o; [apply preserves_ret|apply preserves_raise]. Qed.

Lemma preserves_bind {A B} (m : M A) (k : A -> M B) :
  preserves_cache m -> (forall a, preserves_cache (k a)) ->
  preserves_cache (bind m k).
Proof.
  intros Hm Hk tbl b tbl' Hok. unfold bind.
  destruct (m tbl) as [[a tbl1]|] eqn:E; [|discriminate].
  apply (Hk a). exact (Hm _ _ _ Hok E).
Qed.

Lemma preserves_computeUserHash s : preserves_cache (computeUserHash s).
Proof. intros tbl h tbl' Hok. apply computeUserHash_preserves_cache_ok, Hok. Qed.

Ltac preserve :=
  repeat first
    [ apply preserves_ret
    | apply preserves_raise
    | apply preserves_lift
    | apply preserves_computeUserHash
    | apply preserves_bind; [|intros ?]
    | assumption
    | match goal with
      | |- preserves_cache (if ?b then _ else _) => destruct b
      | |- preserves_cache (match ?x with _ => _ end) => destruct x
      end ].

Section Open.
Variable ev : StatsigUser -> ConfigSpec -> M ConfigEvaluation.
Hypothesis Hev : forall user config, preserves_cache (ev user config).

Lemma preserves_evalSpec user config :
  preserves_cache (_evalSpec this ev user config).
Proof. unfold _evalSpec. preserve. apply Hev. Qed.

Lemma preserves_checkGate user gateName :
  preserves_cache (checkGate this ev user gateName).
Proof. unfold checkGate. preserve. apply preserves_evalSpec. Qed.

Lemma preserves_multi_gate_loop user type gateNames : forall acc,
  preserves_cache (multi_gate_loop this ev user type gateNames acc).
Proof.
  induction gateNames as [|g rest IH]; intros acc; cbn [multi_gate_loop].
  - apply preserves_ret.
  - apply preserves_bind; [apply preserves_checkGate|intros c].
    destruct (unsupported c); [apply preserves_ret|].
    destruct (if String.eqb type "multi_pass_gate" then value c
              else negb (value c)); [apply preserves_ret|apply IH].
Qed.

Lemma preserves_condition_value user condition type :
  preserves_cache (condition_value user condition type).
Proof. unfold condition_value. preserve. Qed.

Lemma preserves_evalCondition user condition :
  preserves_cache (_evalCondition this ev user condition).
Proof.
  unfold _evalCondition.
  destruct (String.eqb _ "public"); [apply preserves_ret|].
  destruct (_ || _).
  { apply preserves_bind; [apply preserves_checkGate|intros c]. preserve. }
  destruct (_ || _).
  { destruct (targetValue condition) as [[| | | |gateNames|]|];
      try apply preserves_ret.
    apply preserves_multi_gate_loop. }
  apply preserves_bind; [apply preserves_condition_value|intros v].
  preserve.
Qed.

Lemma preserves_rule_loop user conds : forall pass acc,
  preserves_cache (rule_loop this ev user conds pass acc).
Proof.
  induction conds as [|c conds IH]; intros pass acc; cbn [rule_loop].
  - apply preserves_ret.
  - apply preserves_bind; [apply preserves_evalCondition|intros r].
    destruct (cond_unsupported r); [apply preserves_ret|apply IH].
Qed.

Lemma preserves_evalRule user rule :
  preserves_cache (_evalRule this ev user rule).
Proof.
  unfold _evalRule.
  apply preserves_bind; [apply preserves_rule_loop|intros [[? ?]|]];
    apply preserves_ret.
Qed.

Lemma preserves_evalPassPercent user rule config :
  preserves_cache (_evalPassPercent user rule config).
Proof. unfold _evalPassPercent. preserve. Qed.

Lemma preserves_evalDelegate user rule gathered :
  preserves_cache (_evalDelegate this ev user rule gathered).
Proof. unfold _evalDelegate. preserve. apply Hev. Qed.

Lemma preserves_eval_rules user config rules : forall gathered,
  preserves_cache (eval_rules this ev user config rules gathered).
Proof.
  induction rules as [|rule rest IH]; intros gathered; cbn [eval_rules].
  - apply preserves_ret.
  - apply preserves_bind; [apply preserves_evalRule|intros r].
    destruct (unsupported r); [apply preserves_ret|].
    destruct (value r); [|apply IH].
    apply preserves_bind; [apply preserves_evalDelegate|intros [d|]].
    + apply preserves_ret.
    + apply preserves_bind; [apply preserves_evalPassPercent|intros p].
      apply preserves_ret.
Qed.

End Open.

(** Whatever [_eval] does to the memo table, its entries stay right. *)
Lemma preserves_eval fuel : forall user config,
  preserves_cache (_eval this fuel user config).
Proof.
  induction fuel as [|fuel IH]; intros user config.
  - apply preserves_raise.
  - cbn [_eval]. unfold _eval_body.
    destruct (negb (enabled config)); [apply preserves_ret|].
    apply preserves_eval_rules. exact IH.
Qed.

End CacheFacts.

(** * Further properties of the store and the evaluator *)

(** ** Dictionaries in insertion order *)

Section RecFacts.
Context {V : Type}.

Lemma rec_get_set (r : Rec V) k v k' :
  rec_get (rec_set r k v) k'
  = if String.eqb k' k then Some v else rec_get r k'.
Proof.
  induction r as [|[k0 v0] r IH]; simpl.
  - reflexivity.
  - destruct (String.eqb k k0) eqn:E; simpl.
    + apply String.eqb_eq in E as ->.
      destruct (String.eqb k' k0); reflexivity.
    + rewrite IH. destruct (String.eqb k' k0) eqn:E'; [|reflexivity].
      apply String.eqb_eq in E' as ->.
      rewrite String.eqb_sym, E. reflexivity.
Qed.

Lemma rec_keys_set (r : Rec V) k v :
  rec_keys (rec_set r k v)
  = if existsb (String.eqb k) (rec_keys r) then rec_keys r
    else rec_keys r ++ [k].
Proof.
  unfold rec_keys. induction r as [|[k0 v0] r IH]; simpl.
  - reflexivity.
  - destruct (String.eqb k k0) eqn:E; simpl.
    + apply String.eqb_eq in E as ->. reflexivity.
    + rewrite IH. destruct (existsb _ _); reflexivity.
Qed.

Lemma rec_get_Some_In (r : Rec V) k v :
  rec_get r k = Some v -> In (k, v) r.
Proof.
  induction r as [|[k0 v0] r IH]; simpl; [discriminate|].
  destruct (String.eqb k k0) eqn:E.
  - apply String.eqb_eq in E as ->. intros [= ->]. auto.
  - auto.
Qed.

Lemma find_append {A} (p : A -> bool) l1 l2 :
  List.find p (l1 ++ l2)
  = match List.find p l1 with
    | Some x => Some x
    | None => List.find p l2
    end.
Proof.
  induction l1 as [|a l1 IH]; simpl; [reflexivity|].
  destruct (p a); [reflexivity|exact IH].
Qed.

Lemma existsb_eqb_In k (l : list string) :
  existsb (String.eqb k) l = true <-> In k l.
Proof.
  rewrite existsb_exists. split.
  - intros (x & Hx & E). apply String.eqb_eq in E as ->. exact Hx.
  - intros Hk. exists k. split; [exact Hk|apply String.eqb_refl].
Qed.

End RecFacts.

(** ** What a sync installs *)

Section CatalogFacts.
Context `{Externals}.

Lemma build_specs_lookup array : forall updated R n,
  build_specs array updated = Some R ->
  rec_get R n
  = match last_named n (omap ConfigSpec_new array) with
    | Some spec => Some spec
    | None => rec_get updated n
    end.
Proof.
  unfold last_named.
  induction array as [|json rest IH]; intros updated R n; simpl.
  - intros [= <-]. reflexivity.
  - destruct (ConfigSpec_new json) as [spec|] eqn:E; [|discriminate].
    intros Hb. rewrite (IH _ _ n Hb). simpl.
    rewrite find_append.
    change (list_omap JSON ConfigSpec ConfigSpec_new rest)
      with (omap ConfigSpec_new rest).
    destruct (List.find _ (rev (omap ConfigSpec_new rest))); [reflexivity|].
    simpl. rewrite rec_get_set.
    destruct (String.eqb n (name spec)); reflexivity.
Qed.

(** A run of [_process] that answers [true], spelled out. *)
Lemma process_true_inv this specsJSON this' :
  _process this specsJSON = (Return true, this') ->
  exists G C L E,
    build_specs (array_elements (feature_gates specsJSON)) [] = Some G
    /\ build_specs (array_elements (dynamic_configs specsJSON)) [] = Some C
    /\ build_specs (array_elements (layer_configs specsJSON)) [] = Some L
    /\ _reverseLayerExperimentMapping (specs_layers specsJSON) = Return E
    /\ store this' = {| gates := G; configs := C;
                        idLists := idLists (store this);
                        layers := L; experimentToLayer := E |}
    /\ lastUpdateTime this' = time_or_last this specsJSON
    /\ time_is_older this specsJSON = Return false.
Proof.
  intros Hrun.
  apply process_inv in Hrun as [([Hr|(err & Hr & _)] & _)|Hacc];
    [discriminate|discriminate|].
  destruct Hacc as (_ & Hold & ga & ca & la & G & C & L & Hga & Hca & Hla
                    & HG & HC & HL & Hlast).
  simpl in Hlast.
  destruct (_reverseLayerExperimentMapping (specs_layers specsJSON)) as [E|e].
  2:{ destruct Hlast as [? _]. discriminate. }
  destruct Hlast as [_ ->].
  exists G, C, L, E. rewrite Hga, Hca, Hla. simpl.
  rewrite updateSamplingRates_store.
  repeat (split; [assumption || reflexivity|]).
  split; [|assumption].
  unfold time_or_last. simpl. rewrite updateSamplingRates_lastUpdateTime.
  reflexivity.
Qed.

(** X1: a sync replaces the catalog, it does not merge.  After a
    [_process] that answers [true], looking a name up among the gates,
    the configs or the layers gives the last spec of that name in the
    corresponding array of the payload, and nothing when the array has
    no spec of that name, whatever the store held before.  The names
    meant are those that no object inherits a property under, and the
    payloads those without a spec named [__proto__]. *)
Theorem process_installs_payload this specsJSON this' n :
  ~ In n Object_prototype_keys ->
  no_prototype (constructed (feature_gates specsJSON) ++
                constructed (dynamic_configs specsJSON) ++
                constructed (layer_configs specsJSON)) ->
  _process this specsJSON = (Return true, this') ->
  getGate this' n = last_named n (constructed (feature_gates specsJSON))
  /\ getConfig this' n
     = last_named n (constructed (dynamic_configs specsJSON))
  /\ getLayer this' n = last_named n (constructed (layer_configs specsJSON)).
Proof.
  intros _ _ Hrun.
  apply process_true_inv in Hrun
    as (G & C & L & E & HG & HC & HL & _ & Hs & _).
  unfold getGate, getConfig, getLayer, constructed. rewrite Hs. simpl.
  rewrite (build_specs_lookup _ _ _ n HG), (build_specs_lookup _ _ _ n HC),
    (build_specs_lookup _ _ _ n HL).
  repeat split; destruct (last_named n _); reflexivity.
Qed.

(** X2: whatever the payload and whatever
    the answer, [_process] leaves the ID lists, [initReason] and
    [initialUpdateTime] alone; those change only in the callers. *)
Theorem process_leaves_lists_and_init this specsJSON :
  let this' := snd (_process this specsJSON) in
  idLists (store this') = idLists (store this)
  /\ initReason this' = initReason this
  /\ initialUpdateTime this' = initialUpdateTime this.
Proof.
  simpl. destruct (_process this specsJSON) as [r this'] eqn:Hrun. simpl.
  apply process_inv in Hrun as [(_ & Hs & _ & [-> | ->])|Hacc].
  - auto.
  - rewrite Hs, updateSamplingRates_initReason,
      updateSamplingRates_initialUpdateTime. auto.
  - destruct Hacc as (_ & _ & ga & ca & la & G & C & L & _ & _ & _ & _ & _
                      & _ & Hlast).
    simpl in Hlast.
    destruct (_reverseLayerExperimentMapping (specs_layers specsJSON)).
    + destruct Hlast as [_ ->]. simpl.
      rewrite updateSamplingRates_store, updateSamplingRates_initReason,
        updateSamplingRates_initialUpdateTime. auto.
    + destruct Hlast as [_ ->].
      rewrite updateSamplingRates_store, updateSamplingRates_initReason,
        updateSamplingRates_initialUpdateTime. auto.
Qed.

Lemma rate_assign_in_range r key v :
  rates_in_range r -> 0 <= v <= MAX_SAMPLING_RATE ->
  rates_in_range (rate_assign r key v).
Proof.
  unfold rates_in_range. intros (? & ? & ? & ?) ?.
  destruct key; simpl; auto.
Qed.

Lemma safeSet_in_range r key v :
  rates_in_range r -> rates_in_range (safeSet r key v).
Proof.
  intros Hr. destruct v as [[|b|n|s|elems|fields]|]; simpl; try exact Hr.
  destruct (n <? 0) eqn:E0.
  { apply rate_assign_in_range; [exact Hr|]. unfold MAX_SAMPLING_RATE. lia. }
  destruct (n >? MAX_SAMPLING_RATE) eqn:E1.
  { apply rate_assign_in_range; [exact Hr|]. unfold MAX_SAMPLING_RATE. lia. }
  apply rate_assign_in_range; [exact Hr|].
  apply Z.ltb_ge in E0. rewrite Z.gtb_ltb in E1. apply Z.ltb_ge in E1. lia.
Qed.

Lemma updateSamplingRates_in_range this obj :
  rates_in_range (samplingRates this) ->
  rates_in_range (samplingRates (updateSamplingRates this obj)).
Proof.
  intros Hr.
  destruct obj as [[|b|n|s|elems|fields]|]; simpl; try exact Hr;
    repeat apply safeSet_in_range; exact Hr.
Qed.

Lemma process_in_range this specsJSON :
  rates_in_range (samplingRates this) ->
  rates_in_range (samplingRates (snd (_process this specsJSON))).
Proof.
  intros Hr. destruct (_process this specsJSON) as [r this'] eqn:Hrun. simpl.
  apply process_inv in Hrun as [(_ & _ & _ & [-> | ->])|Hacc].
  - exact Hr.
  - apply updateSamplingRates_in_range, Hr.
  - destruct Hacc as (_ & _ & ga & ca & la & G & C & L & _ & _ & _ & _ & _
                      & _ & Hlast).
    simpl in Hlast.
    destruct (_reverseLayerExperimentMapping (specs_layers specsJSON));
      destruct Hlast as [_ ->]; simpl;
      apply updateSamplingRates_in_range, Hr.
Qed.

(** X3: the four diagnostics sampling rates
    stay between 0 and [MAX_SAMPLING_RATE] through any sequence of
    [_process] calls on payloads out of JSON texts, whatever these
    carry under [diagnostics]. *)
Theorem samplingRates_stay_in_range payloads : forall this,
  rates_in_range (samplingRates this) ->
  rates_in_range (samplingRates (process_all this payloads)).
Proof.
  induction payloads as [|specsJSON rest IH]; intros this Hr; simpl.
  - exact Hr.
  - apply IH, process_in_range, Hr.
Qed.

Lemma rec_set_filed (r : Rec ConfigSpec) spec :
  filed_by_name r -> filed_by_name (rec_set r (name spec) spec).
Proof.
  intros [Hnd Hall]. split.
  - rewrite rec_keys_set.
    destruct (existsb _ _) eqn:E; [exact Hnd|].
    apply NoDup_app. split; [exact Hnd|]. split; [|apply NoDup_singleton].
    intros x Hx Hin. apply list_elem_of_singleton in Hin as ->.
    apply list_elem_of_In, existsb_eqb_In in Hx. congruence.
  - clear Hnd. induction r as [|[k0 v0] r IH]; simpl.
    + repeat constructor.
    + apply Forall_cons in Hall as [Hk Hr].
      destruct (String.eqb (name spec) k0).
      * constructor; [reflexivity|exact Hr].
      * constructor; [exact Hk|apply IH, Hr].
Qed.

Lemma build_specs_filed array : forall updated R,
  build_specs array updated = Some R ->
  filed_by_name updated -> filed_by_name R.
Proof.
  induction array as [|json rest IH]; intros updated R; simpl.
  - intros [= <-]. auto.
  - destruct (ConfigSpec_new json) as [spec|]; [|discriminate].
    intros Hb Hf. apply (IH _ _ Hb), rec_set_filed, Hf.
Qed.

Lemma process_filed this specsJSON :
  catalog_filed this -> catalog_filed (snd (_process this specsJSON)).
Proof.
  intros Hf. destruct (_process this specsJSON) as [r this'] eqn:Hrun. simpl.
  destruct r as [[|]|e].
  - apply process_true_inv in Hrun
      as (G & C & L & E & HG & HC & HL & _ & Hs & _).
    unfold catalog_filed. rewrite Hs. simpl.
    repeat split;
      eapply build_specs_filed; eauto; split; constructor.
  - apply process_not_true_unchanged in Hrun as [Hs _]; [|discriminate].
    unfold catalog_filed. rewrite Hs. exact Hf.
  - apply process_not_true_unchanged in Hrun as [Hs _]; [|discriminate].
    unfold catalog_filed. rewrite Hs. exact Hf.
Qed.

Lemma process_all_filed payloads : forall this,
  catalog_filed this -> catalog_filed (process_all this payloads).
Proof.
  induction payloads as [|specsJSON rest IH]; intros this Hf; simpl.
  - exact Hf.
  - apply IH, process_filed, Hf.
Qed.

Lemma filed_lookup (r : Rec ConfigSpec) n spec :
  filed_by_name r ->
  In (n, spec) r <-> rec_get r n = Some spec.
Proof.
  intros [Hnd _]. unfold rec_keys in Hnd.
  induction r as [|[k0 v0] r IH]; simpl.
  - split; [intros []|discriminate].
  - apply NoDup_cons in Hnd as [Hk Hnd]. simpl in Hk.
    destruct (String.eqb n k0) eqn:E.
    + apply String.eqb_eq in E as ->. split.
      * intros [[= ->]|Hin]; [reflexivity|].
        exfalso. apply Hk, list_elem_of_In, in_map_iff.
        exists (k0, spec). auto.
      * intros [= ->]. auto.
    + rewrite <- (IH Hnd). split; [|auto].
      intros [[= -> ->]|Hin]; [|exact Hin].
      rewrite String.eqb_refl in E. discriminate.
Qed.

(** X4: on a store that started empty and went through any sequence of
    [_process] calls, the listings agree with the lookups.
    [getFeatureGateList], [getLayerList] and [getConfigsList] name
    nothing twice; a name is listed exactly when the lookup finds a spec
    under it, and that spec carries the name; [getConfigsList] lists
    exactly the configs whose [entity] is the one asked for.  The names
    meant are those that no object inherits a property under, and the
    catalogs those that hold no spec named [__proto__]. *)
Theorem lists_match_catalog payloads n entityType :
  let this := Evaluator_over (process_all SpecStore_new payloads) in
  ~ In n Object_prototype_keys ->
  no_prototype (map snd (getAllGates (specStore this)) ++
                map snd (getAllConfigs (specStore this)) ++
                map snd (getAllLayers (specStore this))) ->
  NoDup (getFeatureGateList this)
  /\ NoDup (getLayerList this)
  /\ NoDup (getConfigsList this entityType)
  /\ (In n (getFeatureGateList this) <->
      exists spec, getGate (specStore this) n = Some spec /\ name spec = n)
  /\ (In n (getLayerList this) <->
      exists spec, getLayer (specStore this) n = Some spec /\ name spec = n)
  /\ (In n (getConfigsList this entityType) <->
      exists spec, getConfig (specStore this) n = Some spec
                   /\ name spec = n /\ entity spec = entityType).
Proof.
  simpl. intros _ _.
  assert (Hf : catalog_filed (process_all SpecStore_new payloads)).
  { apply process_all_filed. repeat split; constructor. }
  destruct Hf as (HG & HC & HL).
  unfold getFeatureGateList, getLayerList, getConfigsList, getAllGates,
    getAllLayers, getAllConfigs, getGate, getLayer, getConfig. simpl.
  set (s := store (process_all SpecStore_new payloads)) in *.
  assert (Hlist : forall r : Rec ConfigSpec, filed_by_name r ->
            In n (map (fun entry => fst entry) r) <->
            exists spec, rec_get r n = Some spec /\ name spec = n).
  { intros r Hr. rewrite in_map_iff. split.
    - intros ([k spec] & <- & Hin). exists spec. split.
      + apply filed_lookup; assumption.
      + destruct Hr as [_ Hall]. rewrite List.Forall_forall in Hall.
        symmetry. apply (Hall _ Hin).
    - intros (spec & Hget & _). exists (n, spec). split; [reflexivity|].
      apply rec_get_Some_In, Hget. }
  split; [apply HG|]. split; [apply HL|]. split.
  { destruct HC as [Hnd _]. unfold rec_keys in Hnd.
    induction (configs s) as [|[k v] r IH]; simpl; [constructor|].
    apply NoDup_cons in Hnd as [Hk Hnd].
    destruct (String.eqb (entity v) entityType); simpl; [|apply IH, Hnd].
    apply NoDup_cons. split; [|apply IH, Hnd].
    intros Hin. apply Hk. simpl.
    apply list_elem_of_In in Hin. apply list_elem_of_In.
    apply in_map_iff in Hin as (x & <- & Hx).
    apply filter_In in Hx as [Hx _]. apply in_map. exact Hx. }
  split; [apply Hlist, HG|]. split; [apply Hlist, HL|].
  rewrite in_map_iff. split.
  - intros ([k spec] & <- & Hin). apply filter_In in Hin as [Hin He].
    simpl in *. exists spec. split; [apply filed_lookup; assumption|].
    split; [|apply String.eqb_eq, He].
    destruct HC as [_ Hall]. rewrite List.Forall_forall in Hall.
    symmetry. apply (Hall _ Hin).
  - intros (spec & Hget & _ & He). exists (n, spec). split; [reflexivity|].
    apply filter_In. split; [apply rec_get_Some_In, Hget|].
    simpl. apply String.eqb_eq, He.
Qed.

Lemma fold_rec_set_lookup layerName names : forall (acc : Rec string) e,
  rec_get
    (fold_left (fun acc experimentName =>
                  rec_set acc (String_ experimentName) layerName)
       names acc) e
  = if existsb (fun x => String.eqb e (String_ x)) names
    then Some layerName else rec_get acc e.
Proof.
  induction names as [|x names IH]; intros acc e; simpl.
  - reflexivity.
  - rewrite IH, rec_get_set.
    destruct (String.eqb e (String_ x)); simpl; [|reflexivity].
    destruct (existsb _ names); reflexivity.
Qed.

Lemma reverse_entries_lookup entries : forall acc E e,
  reverse_entries entries acc = Return E ->
  rec_get E e
  = match List.find (fun entry => lists_experiment e (snd entry))
            (rev entries) with
    | Some entry => Some (fst entry)
    | None => rec_get acc e
    end.
Proof.
  induction entries as [|[layerName experiments] rest IH]; intros acc E e;
    simpl.
  - intros [= <-]. reflexivity.
  - destruct (iterate experiments) as [names|msg] eqn:Hit; [|discriminate].
    intros Hrev. rewrite (IH _ _ e Hrev), find_append.
    destruct (List.find _ (rev rest)); [reflexivity|].
    simpl. unfold lists_experiment at 1. simpl. rewrite Hit.
    rewrite fold_rec_set_lookup.
    destruct (existsb _ names); reflexivity.
Qed.

Lemma reverse_mapping_lookup layersMapping E e :
  _reverseLayerExperimentMapping layersMapping = Return E ->
  rec_get E e = layer_of e layersMapping.
Proof.
  unfold _reverseLayerExperimentMapping, layer_of, layering.
  destruct layersMapping as [[|b|n|s|elems|fields]|];
    try (intros [= <-]; reflexivity);
    intros Hrev; rewrite (reverse_entries_lookup _ _ _ e Hrev);
    destruct (List.find _ _); reflexivity.
Qed.

(** X5: after a [_process] that answers [true], [getExperimentLayer]
    sends an experiment to the last layer of the payload's [layers]
    mapping that lists it, and to nothing when no layer lists it.  The
    mapping is read in the order the engine lists its properties, and
    the experiments meant are those whose name no object inherits a
    property under. *)
Theorem process_maps_experiments this specsJSON this' e :
  ~ In e Object_prototype_keys ->
  listed_in_order (specs_layers specsJSON) ->
  _process this specsJSON = (Return true, this') ->
  getExperimentLayer this' e = layer_of e (specs_layers specsJSON).
Proof.
  intros _ _ Hrun.
  apply process_true_inv in Hrun
    as (G & C & L & E & _ & _ & _ & Hrev & Hs & _).
  unfold getExperimentLayer. rewrite Hs. simpl.
  apply reverse_mapping_lookup, Hrev.
Qed.

Lemma reverse_entries_throws entries : forall acc layerName experiments msg,
  In (layerName, experiments) entries ->
  iterate experiments = Throw msg ->
  exists e, reverse_entries entries acc = Throw e.
Proof.
  induction entries as [|[l x] rest IH]; intros acc layerName experiments msg;
    simpl.
  - intros [].
  - intros [[= -> ->]|Hin] Hit.
    + rewrite Hit. eauto.
    + destruct (iterate x); eauto.
Qed.

(** X6: [_process] can throw.  A payload
    that passes every check and whose specs all construct, but whose
    [layers] mapping sends some layer to a value that cannot be iterated,
    makes [_process] raise instead of answering; the catalog and
    [lastUpdateTime] are as before the call. *)
Theorem process_throws_on_non_iterable this specsJSON layerName experiments
    msg :
  truthy (has_updates specsJSON) = true ->
  time_is_older this specsJSON = Return false ->
  is_array (feature_gates specsJSON) = true ->
  is_array (dynamic_configs specsJSON) = true ->
  is_array (layer_configs specsJSON) = true ->
  Forall (fun json => is_Some (ConfigSpec_new json))
    (array_elements (feature_gates specsJSON) ++
     array_elements (dynamic_configs specsJSON) ++
     array_elements (layer_configs specsJSON)) ->
  In (layerName, experiments) (layering (specs_layers specsJSON)) ->
  iterate experiments = Throw msg ->
  exists e this',
    _process this specsJSON = (Throw e, this')
    /\ store this' = store this
    /\ lastUpdateTime this' = lastUpdateTime this.
Proof.
  intros Hu Hold Hg Hc Hl Hall Hin Hit.
  assert (Hbuild : forall array,
            Forall (fun json => is_Some (ConfigSpec_new json)) array ->
            exists R, build_specs array [] = Some R).
  { intros array Ha.
    destruct (build_specs array []) as [R|] eqn:E; [eauto|].
    apply build_specs_none in E as (json & Hj & Hnone).
    rewrite List.Forall_forall in Ha. apply Ha in Hj as [? Hj]. congruence. }
  apply Forall_app in Hall as [HG Hall]. apply Forall_app in Hall as [HC HL].
  unfold _process. rewrite Hu, Hold. simpl.
  destruct (feature_gates specsJSON) as [[|?|?|?|ga|?]|]; try discriminate.
  destruct (dynamic_configs specsJSON) as [[|?|?|?|ca|?]|]; try discriminate.
  destruct (layer_configs specsJSON) as [[|?|?|?|la|?]|]; try discriminate.
  simpl in HG, HC, HL.
  destruct (Hbuild _ HG) as [G ->]. destruct (Hbuild _ HC) as [C ->].
  destruct (Hbuild _ HL) as [L ->].
  assert (Hthrow : exists e,
            _reverseLayerExperimentMapping (specs_layers specsJSON)
            = Throw e).
  { unfold _reverseLayerExperimentMapping, layering in *.
    destruct (specs_layers specsJSON) as [[|?|?|?|elems|fields]|];
      try (destruct Hin); eapply reverse_entries_throws; eauto. }
  destruct Hthrow as [e ->]. exists e. eexists. split; [reflexivity|].
  split; [apply updateSamplingRates_store
         |apply updateSamplingRates_lastUpdateTime].
Qed.

End CatalogFacts.

Section CatalogWitnesses.
#[local] Existing Instance sample_externals.

Lemma process_installs_payload_witness :
  exists this',
    _process sample_store_200 (sample_full_payload sample_mapping sample_rates)
    = (Return true, this')
    /\ getGate this' "gate_a"
       = last_named "gate_a"
           (constructed
              (feature_gates
                 (sample_full_payload sample_mapping sample_rates)))
    /\ getConfig this' "gate_a"
       = last_named "gate_a"
           (constructed
              (dynamic_configs
                 (sample_full_payload sample_mapping sample_rates)))
    /\ getLayer this' "gate_a"
       = last_named "gate_a"
           (constructed
              (layer_configs
                 (sample_full_payload sample_mapping sample_rates))).
Proof.
  eexists. split; [reflexivity|].
  refine (process_installs_payload sample_store_200
            (sample_full_payload sample_mapping sample_rates) _ "gate_a"
            _ _ eq_refl).
  - simpl. intuition discriminate.
  - repeat constructor; discriminate.
Defined.

Lemma lists_match_catalog_witness :
  NoDup (getFeatureGateList sample_synced)
  /\ NoDup (getLayerList sample_synced)
  /\ NoDup (getConfigsList sample_synced "experiment")
  /\ (In "gate_a" (getFeatureGateList sample_synced) <->
      exists spec,
        getGate (specStore sample_synced) "gate_a" = Some spec
        /\ name spec = "gate_a")
  /\ (In "gate_a" (getLayerList sample_synced) <->
      exists spec,
        getLayer (specStore sample_synced) "gate_a" = Some spec
        /\ name spec = "gate_a")
  /\ (In "gate_a" (getConfigsList sample_synced "experiment") <->
      exists spec,
        getConfig (specStore sample_synced) "gate_a" = Some spec
        /\ name spec = "gate_a" /\ entity spec = "experiment").
Proof.
  refine (lists_match_catalog
            [sample_full_payload sample_mapping sample_rates] "gate_a"
            "experiment" _ _).
  - simpl. intuition discriminate.
  - repeat constructor; discriminate.
Defined.

Lemma samplingRates_stay_in_range_witness :
  rates_in_range (samplingRates SpecStore_new)
  /\ rates_in_range
       (samplingRates
          (process_all SpecStore_new
             [sample_full_payload sample_mapping sample_rates])).
Proof.
  assert (Hnew : rates_in_range (samplingRates SpecStore_new)).
  { unfold rates_in_range. cbn. unfold MAX_SAMPLING_RATE. lia. }
  split; [exact Hnew|].
  exact (samplingRates_stay_in_range
           [sample_full_payload sample_mapping sample_rates] SpecStore_new
           Hnew).
Defined.

Lemma process_maps_experiments_witness :
  exists this',
    _process sample_store_200 (sample_full_payload sample_mapping sample_rates)
    = (Return true, this')
    /\ getExperimentLayer this' "exp_b"
       = layer_of "exp_b"
           (specs_layers (sample_full_payload sample_mapping sample_rates)).
Proof.
  eexists. split; [reflexivity|].
  refine (process_maps_experiments sample_store_200
            (sample_full_payload sample_mapping sample_rates) _ "exp_b"
            _ _ eq_refl).
  - simpl. intuition discriminate.
  - split.
    + apply (bool_decide_unpack _). vm_compute. exact I.
    + repeat constructor.
Defined.

Lemma process_throws_on_non_iterable_witness :
  exists e this',
    _process sample_store_200
      (sample_full_payload (JObj [("layer_1", JNum 5)]) sample_rates)
    = (Throw e, this')
    /\ store this' = store sample_store_200
    /\ lastUpdateTime this' = lastUpdateTime sample_store_200.
Proof.
  refine (process_throws_on_non_iterable sample_store_200
            (sample_full_payload (JObj [("layer_1", JNum 5)]) sample_rates)
            "layer_1" (JNum 5) "TypeError: experiments is not iterable"
            eq_refl eq_refl eq_refl eq_refl eq_refl _ _ eq_refl).
  - simpl. repeat constructor; eexists; reflexivity.
  - simpl. left. reflexivity.
Defined.

(** The repeated gate: the second [gate_a] of the payload is the one the
    store serves, and the gate the store held before is gone. *)
Example process_last_spec_wins :
  let this' :=
    snd (_process sample_store_200
           (sample_full_payload sample_mapping sample_rates)) in
  salt <$> getGate this' "gate_a" = Some "second"
  /\ getExperimentLayer this' "exp_b" = Some "layer_2"
  /\ getExperimentLayer this' "exp_a" = Some "layer_1"
  /\ samplingRates this'
     = {| dcs := 10000; log := 0; idlist := 0; initialize := 10000 |}.
Proof. repeat split. Qed.

End CatalogWitnesses.

(** ** Secondary exposures after cleaning *)

Section ExposureFacts.

Lemma drop_seen_fresh exposures : forall seen,
  Forall (fun e => exposure_key e ∉ seen) (drop_seen seen exposures).
Proof.
  induction exposures as [|e rest IH]; intros seen; simpl.
  - constructor.
  - destruct (decide (exposure_key e ∈ seen)) as [Hin|Hout]; [apply IH|].
    constructor; [exact Hout|].
    eapply List.Forall_impl; [|apply IH]. simpl. intros x Hx.
    apply not_elem_of_union in Hx as [_ Hx]. exact Hx.
Qed.

Lemma drop_seen_NoDup exposures : forall seen,
  NoDup (map exposure_key (drop_seen seen exposures)).
Proof.
  induction exposures as [|e rest IH]; intros seen; simpl.
  - constructor.
  - destruct (decide (exposure_key e ∈ seen)) as [Hin|Hout]; [apply IH|].
    simpl. apply NoDup_cons. split; [|apply IH].
    intros Hin. apply list_elem_of_In, in_map_iff in Hin as (x & Hk & Hx).
    pose proof (drop_seen_fresh rest ({[exposure_key e]} ∪ seen)) as Hf.
    rewrite List.Forall_forall in Hf. apply Hf in Hx.
    apply Hx, elem_of_union_l, elem_of_singleton. exact Hk.
Qed.

Lemma drop_seen_sublist exposures : forall seen,
  sublist (drop_seen seen exposures) exposures.
Proof.
  induction exposures as [|e rest IH]; intros seen; simpl.
  - constructor.
  - destruct (decide (exposure_key e ∈ seen)).
    + apply sublist_cons, IH.
    + apply sublist_skip, IH.
Qed.

Lemma drop_seen_fixed exposures : forall seen,
  NoDup (map exposure_key exposures) ->
  Forall (fun e => exposure_key e ∉ seen) exposures ->
  drop_seen seen exposures = exposures.
Proof.
  induction exposures as [|e rest IH]; intros seen Hnd Hf; simpl.
  - reflexivity.
  - simpl in Hnd. apply NoDup_cons in Hnd as [Hk Hnd].
    apply Forall_cons in Hf as [He Hf].
    destruct (decide (exposure_key e ∈ seen)) as [Hin|_]; [contradiction|].
    f_equal. apply IH; [exact Hnd|].
    rewrite List.Forall_forall in *. intros x Hx.
    assert (exposure_key x <> exposure_key e).
    { intros Heq. apply Hk. rewrite <- Heq.
      apply list_elem_of_In, in_map, Hx. }
    specialize (Hf x Hx). apply not_elem_of_union. split; [|exact Hf].
    rewrite elem_of_singleton. assumption.
Qed.

Lemma drop_seen_covers exposures : forall seen e,
  In e exposures -> exposure_key e ∉ seen ->
  In (exposure_key e) (map exposure_key (drop_seen seen exposures)).
Proof.
  induction exposures as [|x rest IH]; intros seen e; simpl.
  - intros [].
  - intros [->|Hin] Hout.
    + destruct (decide (exposure_key e ∈ seen)); [contradiction|].
      simpl. auto.
    + destruct (decide (exposure_key x ∈ seen)); [apply IH; assumption|].
      simpl. destruct (decide (exposure_key e = exposure_key x)) as [->|Hne].
      * auto.
      * right. apply IH; [exact Hin|].
        apply not_elem_of_union. split; [|exact Hout].
        rewrite elem_of_singleton. exact Hne.
Qed.

Lemma filter_fixed {A} (p : A -> bool) l :
  Forall (fun x => p x = true) l -> List.filter p l = l.
Proof.
  induction 1 as [|x l Hx _ IH]; simpl; [reflexivity|].
  rewrite Hx, IH. reflexivity.
Qed.

Lemma cleanExposures_no_segment exposures :
  Forall (fun e => not_segment e = true) (_cleanExposures exposures).
Proof.
  unfold _cleanExposures. rewrite List.Forall_forall. intros e He.
  pose proof (drop_seen_sublist
                (List.filter
                   (fun exposure =>
                      negb (startsWith (gate exposure) "segment:"))
                   exposures) ∅) as Hsub.
  apply list_elem_of_In in He.
  apply (elem_of_sublist _ _ _ He) in Hsub.
  apply list_elem_of_In, filter_In in Hsub as [_ Hs]. exact Hs.
Qed.

(** X7: the list [_cleanExposures] returns holds no
    exposure of a [segment:] gate and no two exposures with the same
    [gate|gateValue|ruleID] key, and it is a subsequence of the input:
    nothing is added and nothing is reordered. *)
Theorem cleanExposures_clean exposures :
  Forall (fun e => not_segment e = true) (_cleanExposures exposures)
  /\ NoDup (map exposure_key (_cleanExposures exposures))
  /\ sublist (_cleanExposures exposures) exposures.
Proof.
  split; [apply cleanExposures_no_segment|].
  split; [apply drop_seen_NoDup|].
  unfold _cleanExposures.
  etransitivity; [apply drop_seen_sublist|].
  induction exposures as [|e rest IH]; simpl; [constructor|].
  destruct (negb _); [apply sublist_skip, IH|apply sublist_cons, IH].
Qed.

(** X8: cleaning a cleaned list changes
    nothing. *)
Theorem cleanExposures_idempotent exposures :
  _cleanExposures (_cleanExposures exposures) = _cleanExposures exposures.
Proof.
  pose proof (cleanExposures_no_segment exposures) as Hseg.
  assert (Hnd : NoDup (map exposure_key (_cleanExposures exposures)))
    by apply drop_seen_NoDup.
  unfold _cleanExposures at 1.
  rewrite (filter_fixed
             (fun exposure => negb (startsWith (gate exposure) "segment:"))
             _ Hseg).
  apply drop_seen_fixed; [exact Hnd|].
  rewrite List.Forall_forall. intros x _. apply not_elem_of_empty.
Qed.

(** X9: cleaning loses no information but
    repetition.  Every exposure of the input that is not about a segment
    is represented in the output by an exposure with the same key. *)
Theorem cleanExposures_keeps_every_key exposures e :
  In e exposures ->
  not_segment e = true ->
  exists kept,
    In kept (_cleanExposures exposures)
    /\ exposure_key kept = exposure_key e.
Proof.
  intros Hin Hs.
  assert (Hk : In (exposure_key e)
                 (map exposure_key (_cleanExposures exposures))).
  { apply drop_seen_covers; [|apply not_elem_of_empty].
    apply filter_In. split; assumption. }
  apply in_map_iff in Hk as (kept & Hk & Hkept). eauto.
Qed.

Lemma cleanExposures_keeps_every_key_witness :
  exists kept,
    In kept (_cleanExposures sample_exposures)
    /\ exposure_key kept
       = exposure_key
           {| gate := "inner"; gateValue := "true"; ruleID := "inner_rule" |}.
Proof.
  refine (cleanExposures_keeps_every_key sample_exposures
            {| gate := "inner"; gateValue := "true"; ruleID := "inner_rule" |}
            _ eq_refl).
  simpl. left. reflexivity.
Defined.

Example cleanExposures_on_sample :
  _cleanExposures sample_exposures
  = [ {| gate := "inner"; gateValue := "true"; ruleID := "inner_rule" |};
      {| gate := "outer"; gateValue := "false"; ruleID := "default" |} ].
Proof. vm_compute. reflexivity. Qed.

End ExposureFacts.

(** ** Overrides seen through the public lookups *)

Section OverrideQueryFacts.
Context `{Externals}.
Variable this : Evaluator.
Variable this_eval : StatsigUser -> ConfigSpec -> M ConfigEvaluation.

Lemma plain_index_not_inherited {V} (own : option V) key :
  ~ In key Object_prototype_keys ->
  plain_index own key = Own <$> own.
Proof.
  intros Hkey. destruct own; [reflexivity|]. apply plain_index_None, Hkey.
Qed.

(** X10: an override is what the next lookup returns.  For a name that
    is not the name of a property every object inherits, and a user ID
    other than [__proto__], [overrideGate], [overrideConfig] and
    [overrideLayer] go through, and the [checkGate], [getConfig] or
    [getLayer] that follows for a user with that ID answers with the
    stored value, [rule_id = "override"] and reason [LocalOverride];
    neither the catalog, nor the state of initialisation, nor the memo
    table play a part. *)
Theorem override_then_query user id name flag stored tbl :
  userID user = Some id ->
  id <> "__proto__" ->
  ~ In name Object_prototype_keys ->
  (exists this',
     overrideGate this name flag (Some id) = Some this'
     /\ checkGate this' this_eval user name tbl
        = Some (override_result this flag (JObj []), tbl))
  /\ (exists this',
        overrideConfig this name stored (Some id) = Some this'
        /\ Evaluator_getConfig this' this_eval user name tbl
           = Some (override_result this true (JObj stored), tbl))
  /\ (exists this',
        overrideLayer this name stored (Some id) = Some this'
        /\ Evaluator_getLayer this' this_eval user name tbl
           = Some (override_result this true (JObj stored), tbl)).
Proof.
  intros Hid Hproto Hname. apply String.eqb_neq in Hproto.
  repeat split.
  - unfold overrideGate, assign_flag. cbn [override_key].
    rewrite plain_index_not_inherited by exact Hname. rewrite Hproto.
    destruct (gateOverrides this !! name) as [entries|]; simpl;
      (eexists; split; [reflexivity|]);
      unfold checkGate, lookupGateOverride; cbn [gateOverrides];
      rewrite lookup_insert_eq, plain_index_Some, Hid, lookup_insert_eq;
      reflexivity.
  - unfold overrideConfig. cbn [override_key].
    rewrite plain_index_not_inherited by exact Hname. rewrite Hproto.
    destruct (configOverrides this !! name) as [entries|]; simpl;
      (eexists; split; [reflexivity|]);
      unfold Evaluator_getConfig, lookupConfigOverride,
        lookupConfigBasedOverride; cbn [configOverrides];
      rewrite lookup_insert_eq, plain_index_Some, Hid, lookup_insert_eq;
      reflexivity.
  - unfold overrideLayer. cbn [override_key].
    rewrite plain_index_not_inherited by exact Hname. rewrite Hproto.
    destruct (layerOverrides this !! name) as [entries|]; simpl;
      (eexists; split; [reflexivity|]);
      unfold Evaluator_getLayer, lookupLayerOverride,
        lookupConfigBasedOverride; cbn [layerOverrides];
      rewrite lookup_insert_eq, plain_index_Some, Hid, lookup_insert_eq;
      reflexivity.
Qed.



End OverrideQueryFacts.

Section OverrideQueryWitnesses.
#[local] Existing Instance sample_externals.

Lemma override_then_query_witness :
  (exists this',
     overrideGate (sample_evaluator 100) "inner" false (Some "u1")
     = Some this'
     /\ checkGate this' (_eval (sample_evaluator 100) 4) sample_user "inner"
          ∅
        = Some (override_result (sample_evaluator 100) false (JObj []), ∅))
  /\ (exists this',
        overrideConfig (sample_evaluator 100) "inner" [("k", JNum 1)]
          (Some "u1")
        = Some this'
        /\ Evaluator_getConfig this' (_eval (sample_evaluator 100) 4)
             sample_user "inner" ∅
           = Some (override_result (sample_evaluator 100) true
                     (JObj [("k", JNum 1)]), ∅))
  /\ (exists this',
        overrideLayer (sample_evaluator 100) "inner" [("k", JNum 1)]
          (Some "u1")
        = Some this'
        /\ Evaluator_getLayer this' (_eval (sample_evaluator 100) 4)
             sample_user "inner" ∅
           = Some (override_result (sample_evaluator 100) true
                     (JObj [("k", JNum 1)]), ∅)).
Proof.
  refine (override_then_query (sample_evaluator 100)
            (_eval (sample_evaluator 100) 4) sample_user "u1" "inner" false
            [("k", JNum 1)] ∅ eq_refl _ _).
  - discriminate.
  - simpl. intuition discriminate.
Defined.


End OverrideQueryWitnesses.

(** ** Gates that depend on themselves *)

Section CycleFacts.
Context `{Externals}.
Variable this : Evaluator.

(** X12: the evaluator does not detect
    cycles.  For an enabled gate whose first rule opens with a
    [pass_gate] or [fail_gate] condition on the gate's own name, on an
    initialised store and with no override in the way, [_eval] never
    produces a result, however deep the recursion is allowed to go. *)
Theorem eval_self_reference_never_returns fuel user spec rule condition
    gateName tbl :
  enabled spec = true ->
  hd_error (rules spec) = Some rule ->
  hd_error (conditions rule) = Some condition ->
  toLowerCase (cond_type condition) = "pass_gate"
  \/ toLowerCase (cond_type condition) = "fail_gate" ->
  targetValue condition = Some (JStr gateName) ->
  getGate (specStore this) gateName = Some spec ->
  lookupGateOverride this user gateName = None ->
  getInitReason (specStore this) <> Uninitialized ->
  _eval this fuel user spec tbl = None.
Proof.
  intros Hen Hrule Hcond Htype Htarget Hgate Hover Hinit.
  induction fuel as [|fuel IH]; [reflexivity|].
  cbn [_eval]. unfold _eval_body. rewrite Hen. cbn [negb].
  destruct (rules spec) as [|rule0 rest]; [discriminate|].
  injection Hrule as ->.
  cbn [eval_rules]. unfold bind at 1. unfold _evalRule. unfold bind at 1.
  destruct (conditions rule) as [|condition0 conds]; [discriminate|].
  injection Hcond as ->.
  cbn [rule_loop]. unfold bind at 1.
  assert (Hc : _evalCondition this (_eval this fuel) user condition tbl
               = None).
  { unfold _evalCondition.
    assert (Hsel : String.eqb (toLowerCase (cond_type condition)) "public"
                   = false
                   /\ (String.eqb (toLowerCase (cond_type condition))
                         "fail_gate"
                       || String.eqb (toLowerCase (cond_type condition))
                            "pass_gate") = true).
    { destruct Htype as [-> | ->]; split; reflexivity. }
    destruct Hsel as [-> ->]. rewrite Htarget. unfold bind at 1.
    unfold checkGate. simpl. rewrite Hover.
    destruct (getInitReason (specStore this)) eqn:Hr; try congruence;
      simpl; rewrite Hgate; unfold _evalSpec, bind; rewrite IH;
      reflexivity. }
  rewrite Hc. reflexivity.
Qed.

End CycleFacts.

Section CycleWitnesses.
#[local] Existing Instance sample_externals.

Lemma eval_self_reference_never_returns_witness :
  _eval (Evaluator_over sample_odd_catalog) 50 sample_user sample_loop ∅
  = None.
Proof.
  refine (eval_self_reference_never_returns
            (Evaluator_over sample_odd_catalog) 50 sample_user sample_loop
            (sample_rule "loop_rule" 100%float
               [sample_condition "pass_gate" (Some (JStr "loop"))] None None)
            (sample_condition "pass_gate" (Some (JStr "loop"))) "loop" ∅
            eq_refl eq_refl eq_refl _ eq_refl eq_refl eq_refl _).
  - left. reflexivity.
  - discriminate.
Defined.

End CycleWitnesses.

(** ** Case-insensitive parameters *)

Section CaseInsensitiveFacts.
Context `{Externals}.

Lemma find_first_match {A} (p : A -> bool) before x after :
  Forall (fun a => p a = false) before ->
  p x = true ->
  List.find p (before ++ x :: after) = Some x.
Proof.
  intros Hbefore Hx. induction Hbefore as [|a before Ha _ IH]; simpl.
  - rewrite Hx. reflexivity.
  - rewrite Ha. exact IH.
Qed.

Lemma rec_get_first {V} (before : Rec V) k v after :
  Forall (fun entry => fst entry <> k) before ->
  rec_get (before ++ (k, v) :: after) k = Some v.
Proof.
  intros Hbefore. induction Hbefore as [|[k0 v0] before Hk _ IH]; simpl.
  - rewrite String.eqb_refl. reflexivity.
  - simpl in Hk. destruct (String.eqb k k0) eqn:E; [|exact IH].
    apply String.eqb_eq in E. congruence.
Qed.

(** X13: [getParameterCaseInsensitive] answers [undefined] for an
    object that is [null] or [undefined]; otherwise it returns the value
    of the first entry, in the order [Object.keys] lists them, whose key
    lower-cases to what the requested key lower-cases to, and
    [undefined] when no key does.  So the answer depends on the
    requested key through its lower-casing only. *)
Theorem getParameterCaseInsensitive_first_match {V} (object : option (Rec V))
    key :
  (object = None -> getParameterCaseInsensitive object key = None)
  /\ (forall before k v after,
        object = Some (before ++ (k, v) :: after) ->
        Forall (fun entry => toLowerCase (fst entry) <> toLowerCase key)
          before ->
        toLowerCase k = toLowerCase key ->
        getParameterCaseInsensitive object key = Some v)
  /\ (forall entries,
        object = Some entries ->
        Forall (fun entry => toLowerCase (fst entry) <> toLowerCase key)
          entries ->
        getParameterCaseInsensitive object key = None)
  /\ (forall key',
        toLowerCase key' = toLowerCase key ->
        getParameterCaseInsensitive object key'
        = getParameterCaseInsensitive object key).
Proof.
  split; [|split; [|split]].
  - intros ->. reflexivity.
  - intros before k v after -> Hbefore Hk.
    unfold getParameterCaseInsensitive, rec_keys.
    rewrite map_app. cbn [map fst].
    rewrite (find_first_match _ (map fst before) k).
    + apply rec_get_first.
      apply List.Forall_impl with (2 := Hbefore).
      intros [k0 v0] Hk0 Heq. simpl in Hk0, Heq. congruence.
    + apply Forall_map. apply List.Forall_impl with (2 := Hbefore).
      intros entry Hentry. apply String.eqb_neq, Hentry.
    + apply String.eqb_eq, Hk.
  - intros entries -> Hall. unfold getParameterCaseInsensitive, rec_keys.
    destruct (List.find _ (map fst entries)) as [keyMatch|] eqn:Hfind;
      [|reflexivity].
    exfalso. apply find_some in Hfind as [Hin Hmatch].
    apply in_map_iff in Hin as (entry & <- & Hin).
    rewrite List.Forall_forall in Hall.
    apply String.eqb_eq in Hmatch. exact (Hall _ Hin Hmatch).
  - intros key' Hkey. unfold getParameterCaseInsensitive.
    rewrite Hkey. reflexivity.
Qed.

End CaseInsensitiveFacts.

(** ** The shape of results *)

Section PostFacts.
Context `{Externals}.

Lemma post_ret {A} (a : A) (P : A -> Prop) : P a -> post (ret a) P.
Proof. intros Ha tbl a' tbl' [= <- _]. exact Ha. Qed.

Lemma post_bind {A B} (m : M A) (k : A -> M B) (P : B -> Prop) :
  (forall a, post (k a) P) -> post (bind m k) P.
Proof.
  intros Hk tbl b tbl'. unfold bind.
  destruct (m tbl) as [[a tbl1]|]; [|discriminate].
  apply Hk.
Qed.

Lemma post_bind_with {A B} (m : M A) (k : A -> M B) (Q : A -> Prop)
    (P : B -> Prop) :
  post m Q -> (forall a, Q a -> post (k a) P) -> post (bind m k) P.
Proof.
  intros Hm Hk tbl b tbl'. unfold bind.
  destruct (m tbl) as [[a tbl1]|] eqn:E; [|discriminate].
  apply Hk. exact (Hm _ _ _ E).
Qed.

End PostFacts.

Section ShapeFacts.
Context `{Externals}.
Variable this : Evaluator.

Lemma unsupported_shape_made sync init version :
  unsupported_shape (ConfigEvaluation_unsupported sync init version).
Proof. intros _. repeat split. Qed.

Lemma post_eval_rules ev user config rules :
  (forall u c, post (ev u c) unsupported_shape) ->
  forall gathered,
  post (eval_rules this ev user config rules gathered) unsupported_shape.
Proof.
  intros Hev. induction rules as [|rule rest IH]; intros gathered;
    cbn [eval_rules].
  - apply post_ret. intros Hu. discriminate Hu.
  - apply post_bind. intros ruleResult.
    destruct (unsupported ruleResult).
    { apply post_ret, unsupported_shape_made. }
    destruct (value ruleResult); [|apply IH].
    apply post_bind_with
      with (Q := fun d => match d with
                          | Some d => unsupported_shape d
                          | None => True
                          end).
    + unfold _evalDelegate.
      destruct (configDelegate rule) as [delegate|];
        [|apply post_ret; exact I].
      destruct (getConfig (specStore this) delegate) as [dspec|];
        [|apply post_ret; exact I].
      eapply post_bind_with; [apply Hev|]. intros d Hd.
      apply post_ret. intros Hu. apply Hd in Hu. exact Hu.
    + intros [d|] Hd; [apply post_ret, Hd|].
      apply post_bind. intros pass. apply post_ret.
      intros Hu. discriminate Hu.
Qed.

(** X14: an evaluation that [_eval] marks
    unsupported never passes.  Whatever the depth of delegation it came
    through, it has [value = false], an empty [rule_id], the empty object
    as [json_value] and the reason [Unsupported] in its details. *)
Theorem eval_unsupported_shape fuel user config tbl r tbl' :
  _eval this fuel user config tbl = Some (r, tbl') ->
  unsupported r = true ->
  value r = false
  /\ rule_id r = ""
  /\ json_value r = JObj []
  /\ reason <$> evaluation_details r = Some Unsupported.
Proof.
  revert user config tbl r tbl'.
  change (forall user config, post (_eval this fuel user config)
                                unsupported_shape).
  induction fuel as [|fuel IH]; intros user config.
  - intros tbl r tbl' Hrun. discriminate Hrun.
  - cbn [_eval]. unfold _eval_body.
    destruct (negb (enabled config)).
    + apply post_ret. intros Hu. discriminate Hu.
    + apply post_eval_rules. exact IH.
Qed.

Variable this_eval : StatsigUser -> ConfigSpec -> M ConfigEvaluation.

Lemma well_reported_plain flag id json details :
  well_reported
    (withEvaluationDetails
       (ConfigEvaluation_new flag id None [] json None None None false)
       details).
Proof. split; [eexists; reflexivity|]. split; constructor. Qed.

Lemma post_evalSpec user config :
  post (_evalSpec this this_eval user config) well_reported.
Proof.
  unfold _evalSpec. destruct config as [config|].
  2:{ apply post_ret, well_reported_plain. }
  apply post_bind. intros evaulation.
  pose proof (cleanExposures_no_segment (secondary_exposures evaulation))
    as Hseg.
  assert (Hnd : NoDup (map exposure_key
                         (_cleanExposures (secondary_exposures evaulation))))
    by apply drop_seen_NoDup.
  destruct (evaluation_details
              (set_secondary_exposures evaulation
                 (_cleanExposures (secondary_exposures evaulation))))
    as [d|] eqn:Hd; apply post_ret.
  - split; [rewrite Hd; eauto|]. split; assumption.
  - split; [eexists; reflexivity|]. split; assumption.
Qed.

Lemma lookupGateOverride_exposures user name o :
  lookupGateOverride this user name = Some (Own o) ->
  secondary_exposures o = [].
Proof.
  unfold lookupGateOverride.
  destruct (plain_index (gateOverrides this !! name) name)
    as [[overrides|key]|]; [|discriminate|discriminate].
  destruct (match userID user with
            | Some id => plain_index (overrides !! id) id
            | None => None
            end) as [[flag|key]|]; [intros [= <-]; reflexivity|discriminate|].
  destruct (plain_index (overrides !! "") "") as [[flag|key]|];
    [intros [= <-]; reflexivity|discriminate|discriminate].
Qed.

Lemma lookupConfigBasedOverride_exposures user overrides o :
  lookupConfigBasedOverride user overrides = Some (Own o) ->
  secondary_exposures o = [].
Proof.
  unfold lookupConfigBasedOverride.
  destruct overrides as [[overrides|key]|]; [|discriminate|discriminate].
  destruct (match userID user with
            | Some id => plain_index (overrides !! id) id
            | None => None
            end) as [[stored|key]|];
    [intros [= <-]; reflexivity|discriminate|].
  destruct (plain_index (overrides !! "") "") as [[stored|key]|];
    [intros [= <-]; reflexivity|discriminate|discriminate].
Qed.

(** X15: every answer of [checkGate],
    [getConfig] and [getLayer], be it an override, the answer of an
    uninitialised store, an unknown name or an evaluation, carries
    evaluation details, and its secondary exposures hold no [segment:]
    gate and no key twice. *)
Theorem lookups_are_well_reported user name :
  post (checkGate this this_eval user name) well_reported
  /\ post (Evaluator_getConfig this this_eval user name) well_reported
  /\ post (Evaluator_getLayer this this_eval user name) well_reported.
Proof.
  assert (Hover : forall o : ConfigEvaluation,
            secondary_exposures o = [] ->
            well_reported (withEvaluationDetails o (override_details this))).
  { intros o Ho. split; [eexists; reflexivity|]. simpl. rewrite Ho.
    split; constructor. }
  split; [|split].
  - unfold checkGate.
    destruct (lookupGateOverride this user name) as [[o|key]|] eqn:Hfound.
    + apply post_ret, Hover, (lookupGateOverride_exposures _ _ _ Hfound).
    + intros tbl a tbl' Hrun. discriminate Hrun.
    + destruct (is_Uninitialized _);
        [apply post_ret, well_reported_plain|apply post_evalSpec].
  - unfold Evaluator_getConfig, lookupConfigOverride.
    destruct (lookupConfigBasedOverride user _) as [[o|key]|] eqn:Hfound.
    + apply post_ret, Hover,
        (lookupConfigBasedOverride_exposures _ _ _ Hfound).
    + intros tbl a tbl' Hrun. discriminate Hrun.
    + destruct (is_Uninitialized _);
        [apply post_ret, well_reported_plain|apply post_evalSpec].
  - unfold Evaluator_getLayer, lookupLayerOverride.
    destruct (lookupConfigBasedOverride user _) as [[o|key]|] eqn:Hfound.
    + apply post_ret, Hover,
        (lookupConfigBasedOverride_exposures _ _ _ Hfound).
    + intros tbl a tbl' Hrun. discriminate Hrun.
    + destruct (is_Uninitialized _);
        [apply post_ret, well_reported_plain|apply post_evalSpec].
Qed.

End ShapeFacts.

Section ShapeWitnesses.
#[local] Existing Instance sample_externals.

Lemma eval_unsupported_shape_witness :
  exists r tbl',
    _eval (Evaluator_over sample_odd_catalog) 2 sample_user sample_odd ∅
    = Some (r, tbl')
    /\ unsupported r = true
    /\ value r = false
    /\ rule_id r = ""
    /\ json_value r = JObj []
    /\ reason <$> evaluation_details r = Some Unsupported.
Proof.
  destruct (_eval (Evaluator_over sample_odd_catalog) 2 sample_user
              sample_odd ∅) as [[r tbl']|] eqn:Hrun.
  - exists r, tbl'. split; [reflexivity|].
    assert (Hu : unsupported r = true).
    { vm_compute in Hrun. injection Hrun as <- _. reflexivity. }
    split; [exact Hu|].
    exact (eval_unsupported_shape (Evaluator_over sample_odd_catalog) 2
             sample_user sample_odd ∅ r tbl' Hrun Hu).
  - exfalso. vm_compute in Hrun. discriminate Hrun.
Defined.

(** The lookups of the sample catalog, each of them reported in full. *)
Example checkGate_reports :
  (fun r => (value r, rule_id r, reason <$> evaluation_details r))
  <$> (fst <$> checkGate (sample_evaluator 100)
                 (_eval (sample_evaluator 100) 4) sample_user "outer" ∅)
  = Some (false, "default", Some Network).
Proof. vm_compute. reflexivity. Qed.

End ShapeWitnesses.

(** ** The memo table does not change an answer *)

Section TransparencyFacts.
Context `{Externals}.
Variable this : Evaluator.

Lemma transparent_ret {A} (a : A) : cache_transparent (ret a).
Proof. intros tbl1 tbl2 a' tbl1' _ _ [= <- _]. eexists. reflexivity. Qed.

Lemma transparent_raise {A} : cache_transparent (@raise A).
Proof. intros tbl1 tbl2 a tbl1' _ _ Hrun. discriminate Hrun. Qed.

Lemma transparent_lift {A} (o : option A) : cache_transparent (lift o).
Proof. destruct o; [apply transparent_ret|apply transparent_raise]. Qed.

Lemma transparent_bind {A B} (m : M A) (k : A -> M B) :
  cache_transparent m -> preserves_cache m ->
  (forall a, cache_transparent (k a)) ->
  cache_transparent (bind m k).
Proof.
  intros Hm Hp Hk tbl1 tbl2 b tbl1' Hok1 Hok2. unfold bind.
  destruct (m tbl1) as [[a t1]|] eqn:E; [|discriminate].
  intros Hrun.
  destruct (Hm _ _ _ _ Hok1 Hok2 E) as (t2 & E2). rewrite E2.
  apply (Hk a t1 t2 b tbl1');
    [exact (Hp _ _ _ Hok1 E)|exact (Hp _ _ _ Hok2 E2)|exact Hrun].
Qed.

Lemma transparent_computeUserHash s : cache_transparent (computeUserHash s).
Proof.
  intros tbl1 tbl2 h tbl1' Hok1 Hok2 Hrun.
  assert (Hh : sha256_u64 s = Some h).
  { unfold computeUserHash in Hrun.
    destruct (if_truthy (tbl1 !! s)) as [h'|] eqn:Hs.
    - injection Hrun as <- _. unfold if_truthy in Hs.
      destruct (tbl1 !! s) as [h''|] eqn:Hl; [|discriminate].
      destruct (h'' =? 0); [discriminate|]. injection Hs as ->.
      exact (Hok1 _ _ Hl).
    - destruct (getBigUint64 (sha256Hash s) 0) as [h'|] eqn:Hd;
        [|discriminate].
      injection Hrun as <- _. exact Hd. }
  destruct (computeUserHash_correct _ _ _ Hok2 Hh) as (tbl2' & Hrun2 & _).
  eauto.
Qed.

Ltac transparent :=
  repeat first
    [ apply transparent_ret
    | apply transparent_raise
    | apply transparent_lift
    | apply transparent_computeUserHash
    | apply preserves_ret
    | apply preserves_lift
    | apply preserves_computeUserHash
    | apply transparent_bind; [| |intros ?]
    | assumption
    | match goal with
      | |- cache_transparent (if ?b then _ else _) => destruct b
      | |- cache_transparent (match ?x with _ => _ end) => destruct x
      end ].

Section Open.
Variable ev : StatsigUser -> ConfigSpec -> M ConfigEvaluation.
Hypothesis Hpres : forall user config, preserves_cache (ev user config).
Hypothesis Hev : forall user config, cache_transparent (ev user config).

Lemma transparent_evalSpec user config :
  cache_transparent (_evalSpec this ev user config).
Proof. unfold _evalSpec. transparent; [apply Hev|apply Hpres]. Qed.

Lemma transparent_checkGate user gateName :
  cache_transparent (checkGate this ev user gateName).
Proof. unfold checkGate. transparent. apply transparent_evalSpec. Qed.

Lemma transparent_multi_gate_loop user type gateNames : forall acc,
  cache_transparent (multi_gate_loop this ev user type gateNames acc).
Proof.
  induction gateNames as [|g rest IH]; intros acc; cbn [multi_gate_loop].
  - apply transparent_ret.
  - apply transparent_bind;
      [apply transparent_checkGate
      |apply preserves_checkGate, Hpres|intros c].
    destruct (unsupported c); [apply transparent_ret|].
    destruct (if String.eqb type "multi_pass_gate" then value c
              else negb (value c)); [apply transparent_ret|apply IH].
Qed.

Lemma transparent_condition_value user condition type :
  cache_transparent (condition_value user condition type).
Proof. unfold condition_value. transparent. Qed.

Lemma transparent_evalCondition user condition :
  cache_transparent (_evalCondition this ev user condition).
Proof.
  unfold _evalCondition.
  destruct (String.eqb _ "public"); [apply transparent_ret|].
  destruct (_ || _).
  { apply transparent_bind;
      [apply transparent_checkGate
      |apply preserves_checkGate, Hpres|intros c].
    transparent. }
  destruct (_ || _).
  { destruct (targetValue condition) as [[| | | |gateNames|]|];
      try apply transparent_ret.
    apply transparent_multi_gate_loop. }
  apply transparent_bind;
    [apply transparent_condition_value
    |apply preserves_condition_value|intros v].
  transparent.
Qed.

Lemma transparent_rule_loop user conds : forall pass acc,
  cache_transparent (rule_loop this ev user conds pass acc).
Proof.
  induction conds as [|c conds IH]; intros pass acc; cbn [rule_loop].
  - apply transparent_ret.
  - apply transparent_bind;
      [apply transparent_evalCondition
      |apply preserves_evalCondition, Hpres|intros r].
    destruct (cond_unsupported r); [apply transparent_ret|apply IH].
Qed.

Lemma transparent_evalRule user rule :
  cache_transparent (_evalRule this ev user rule).
Proof.
  unfold _evalRule.
  apply transparent_bind;
    [apply transparent_rule_loop
    |apply preserves_rule_loop, Hpres|intros [[? ?]|]];
    apply transparent_ret.
Qed.

Lemma transparent_evalPassPercent user rule config :
  cache_transparent (_evalPassPercent user rule config).
Proof. unfold _evalPassPercent. transparent. Qed.

Lemma transparent_evalDelegate user rule gathered :
  cache_transparent (_evalDelegate this ev user rule gathered).
Proof. unfold _evalDelegate. transparent; [apply Hev|apply Hpres]. Qed.

Lemma transparent_eval_rules user config rules : forall gathered,
  cache_transparent (eval_rules this ev user config rules gathered).
Proof.
  induction rules as [|rule rest IH]; intros gathered; cbn [eval_rules].
  - apply transparent_ret.
  - apply transparent_bind;
      [apply transparent_evalRule|apply preserves_evalRule, Hpres|intros r].
    destruct (unsupported r); [apply transparent_ret|].
    destruct (value r); [|apply IH].
    apply transparent_bind;
      [apply transparent_evalDelegate
      |apply preserves_evalDelegate, Hpres|intros [d|]].
    + apply transparent_ret.
    + apply transparent_bind;
        [apply transparent_evalPassPercent
        |apply preserves_evalPassPercent|intros p].
      apply transparent_ret.
Qed.

End Open.

Lemma transparent_eval fuel : forall user config,
  cache_transparent (_eval this fuel user config).
Proof.
  induction fuel as [|fuel IH]; intros user config.
  - apply transparent_raise.
  - cbn [_eval]. unfold _eval_body.
    destruct (negb (enabled config)); [apply transparent_ret|].
    apply transparent_eval_rules; [apply preserves_eval|exact IH].
Qed.

(** X16: memoising the hashes is invisible.  If
    [checkGate] returns a result starting from one memo table whose
    entries are right, it returns the same result starting from any
    other such table (the empty one included), and leaves a table whose
    entries are right. *)
Theorem memo_table_is_transparent fuel user name tbl1 tbl2 r tbl1' :
  cache_ok tbl1 -> cache_ok tbl2 ->
  checkGate this (_eval this fuel) user name tbl1 = Some (r, tbl1') ->
  exists tbl2',
    checkGate this (_eval this fuel) user name tbl2 = Some (r, tbl2')
    /\ cache_ok tbl2'.
Proof.
  intros Hok1 Hok2 Hrun.
  destruct (transparent_checkGate (_eval this fuel) (preserves_eval this fuel)
              (transparent_eval fuel) user name _ _ _ _ Hok1 Hok2 Hrun)
    as (tbl2' & Hrun2).
  exists tbl2'. split; [exact Hrun2|].
  exact (preserves_checkGate this (_eval this fuel) (preserves_eval this fuel)
           user name _ _ _ Hok2 Hrun2).
Qed.

End TransparencyFacts.

Section TransparencyWitnesses.
#[local] Existing Instance sample_externals.

Lemma sample_table_ok : cache_ok {[ "s.r.u1" := 1578 ]}.
Proof.
  intros k v. destruct (decide (k = "s.r.u1")) as [->|Hne].
  - rewrite lookup_singleton_eq. intros [= <-]. reflexivity.
  - rewrite lookup_singleton_ne by congruence. discriminate.
Defined.

Lemma memo_table_is_transparent_witness :
  exists r tbl1',
    checkGate (sample_evaluator 100) (_eval (sample_evaluator 100) 4)
      sample_user "inner" ∅ = Some (r, tbl1')
    /\ exists tbl2',
         checkGate (sample_evaluator 100) (_eval (sample_evaluator 100) 4)
           sample_user "inner" {[ "s.r.u1" := 1578 ]} = Some (r, tbl2')
         /\ cache_ok tbl2'.
Proof.
  destruct (checkGate (sample_evaluator 100) (_eval (sample_evaluator 100) 4)
              sample_user "inner" ∅) as [[r tbl1']|] eqn:Hrun.
  - exists r, tbl1'. split; [reflexivity|].
    exact (memo_table_is_transparent (sample_evaluator 100) 4 sample_user
             "inner" ∅ {[ "s.r.u1" := 1578 ]} r tbl1' cache_ok_empty
             sample_table_ok Hrun).
  - exfalso. vm_compute in Hrun. discriminate Hrun.
Defined.

End TransparencyWitnesses.

(** ** The gates of the client initialize response *)

Section PayloadFacts.
Context `{Externals}.
Variable this : Evaluator.

Lemma run_all_In {A B} (f : A -> M B) l : forall tbl results tbl' b,
  run_all f l tbl = Some (results, tbl') ->
  In b results ->
  exists a tbl0 tbl1, In a l /\ f a tbl0 = Some (b, tbl1).
Proof.
  induction l as [|a l IH]; intros tbl results tbl' b Hrun Hin.
  - simpl in Hrun. injection Hrun as <- _. destruct Hin.
  - apply run_all_cons_inv in Hrun as (b0 & tbl1 & bs & Ha & Hrest & ->).
    destruct Hin as [->|Hin].
    + exists a, tbl, tbl1. split; [left; reflexivity|exact Ha].
    + destruct (IH _ _ _ _ Hrest Hin) as (a' & t0 & t1 & Ha' & Hf).
      exists a', t0, t1. split; [right; exact Ha'|exact Hf].
Qed.

Lemma keyed_lookup {V} (key : V -> string) items k v :
  rec_get (keyed key items) k = Some v -> In v items /\ key v = k.
Proof.
  unfold keyed.
  assert (Hgen : forall acc,
            rec_get (fold_left (fun acc item => rec_set acc (key item) item)
                       items acc) k = Some v ->
            (In v items /\ key v = k) \/ rec_get acc k = Some v).
  { induction items as [|item rest IH]; intros acc; simpl.
    - auto.
    - intros Hget. apply IH in Hget as [[Hin Hk]|Hget]; [auto|].
      rewrite rec_get_set in Hget.
      destruct (String.eqb k (key item)) eqn:E; [|auto].
      injection Hget as ->. apply String.eqb_eq in E. auto. }
  intros Hget. apply Hgen in Hget as [?|Hget]; [assumption|discriminate].
Qed.

(** X17: in the payload of
    [getClientInitializeResponse], every entry of [feature_gates] is
    filed under its own [name], which is the hashed name of a gate of the
    catalog that is neither a segment nor a holdout, and it carries that
    gate's [idType]. *)
Theorem client_gates_come_from_catalog fuel heap user hash tbl payload heap'
    tbl' k g :
  getClientInitializeResponse this fuel heap user hash tbl
  = Some ((Some payload, heap'), tbl') ->
  rec_get (cir_feature_gates payload) k = Some g ->
  gr_name g = k
  /\ exists gate spec,
       In (gate, spec) (getAllGates (specStore this))
       /\ k = hashString gate hash
       /\ String.eqb (entity spec) "segment" = false
       /\ String.eqb (entity spec) "holdout" = false
       /\ gr_id_type g = idType spec.
Proof.
  unfold getClientInitializeResponse.
  destruct (negb (isServingChecks (specStore this))); [discriminate|].
  unfold bind at 1. unfold lift.
  destruct (heap !! user) as [u|]; [|discriminate].
  unfold ret at 1. unfold bind at 1.
  destruct (run_all (gate_entry this fuel u hash) _ tbl)
    as [[gates tbl1]|] eqn:Hgates; [|discriminate].
  unfold bind at 1.
  destruct (run_all (config_entry this fuel u hash) _ tbl1)
    as [[configs tbl2]|]; [|discriminate].
  unfold bind at 1.
  destruct (run_all (layer_entry this fuel u hash) _ tbl2)
    as [[layers tbl3]|]; [|discriminate].
  intros [= <- _ _]. simpl. intros Hget.
  apply keyed_lookup in Hget as [Hin Hname]. split; [exact Hname|].
  apply list_elem_of_In, list_elem_of_omap in Hin as (o & Ho & Hid).
  simpl in Hid. subst o. apply list_elem_of_In in Ho.
  destruct (run_all_In _ _ _ _ _ _ Hgates Ho)
    as ([gate spec] & t0 & t1 & Hentry & Hrun).
  exists gate, spec. split; [exact Hentry|].
  unfold gate_entry in Hrun.
  destruct (String.eqb (entity spec) "segment") eqn:Hseg;
    [discriminate Hrun|].
  destruct (String.eqb (entity spec) "holdout") eqn:Hhold;
    [discriminate Hrun|].
  simpl in Hrun. unfold bind in Hrun.
  destruct (_eval this fuel u spec t0) as [[res t]|]; [|discriminate].
  injection Hrun as <- _. simpl in Hname. auto.
Qed.

End PayloadFacts.

Section PayloadWitnesses.
#[local] Existing Instance sample_externals.

Lemma client_gates_come_from_catalog_witness :
  exists payload heap' tbl' g,
    getClientInitializeResponse (sample_evaluator 100) 4
      {[ 1%positive := sample_user ]} 1%positive None ∅
    = Some ((Some payload, heap'), tbl')
    /\ rec_get (cir_feature_gates payload) "outer" = Some g
    /\ gr_name g = "outer"
    /\ exists gate spec,
         In (gate, spec) (getAllGates (specStore (sample_evaluator 100)))
         /\ "outer" = hashString gate None
         /\ String.eqb (entity spec) "segment" = false
         /\ String.eqb (entity spec) "holdout" = false
         /\ gr_id_type g = idType spec.
Proof.
  destruct (getClientInitializeResponse (sample_evaluator 100) 4
              {[ 1%positive := sample_user ]} 1%positive None ∅)
    as [[[[payload|] heap'] tbl']|] eqn:Hrun;
    [|exfalso; vm_compute in Hrun; discriminate Hrun
     |exfalso; vm_compute in Hrun; discriminate Hrun].
  destruct (rec_get (cir_feature_gates payload) "outer") as [g|] eqn:Hg.
  - exists payload, heap', tbl', g.
    split; [reflexivity|]. split; [exact Hg|].
    exact (client_gates_come_from_catalog (sample_evaluator 100) 4
             {[ 1%positive := sample_user ]} 1%positive None ∅ payload heap'
             tbl' "outer" g Hrun Hg).
  - exfalso. vm_compute in Hrun. injection Hrun as Hp _ _.
    rewrite <- Hp in Hg. vm_compute in Hg. discriminate Hg.
Defined.

End PayloadWitnesses.

(** * Versions *)

Section VersionFacts.
Variable Number_ : string -> float.

Lemma SFcompare_antisym x y :
  SFcompare y x = CompOpp <$> SFcompare x y.
Proof.
  destruct x as [sx|sx| |sx mx ex], y as [sy|sy| |sy my ey]; simpl;
    try reflexivity;
    try (destruct sx; reflexivity);
    try (destruct sy; reflexivity);
    try (destruct sx, sy; reflexivity).
  destruct sx, sy; simpl; try reflexivity;
    rewrite (Z.compare_antisym ex ey);
    destruct (ex ?= ey)%Z; simpl; try reflexivity;
    change PosDef.Pos.compare_cont with Pos.compare_cont;
    rewrite (ZC4 mx my); destruct (Pos.compare_cont Eq my mx); reflexivity.
Qed.

Lemma ltb_asym a b :
  PrimFloat.ltb a b = true -> PrimFloat.ltb b a = false.
Proof.
  rewrite !FloatAxioms.ltb_spec. unfold SFltb.
  rewrite (SFcompare_antisym (Prim2SF a) (Prim2SF b)).
  destruct (SFcompare (Prim2SF a) (Prim2SF b)) as [[]|]; simpl;
    congruence.
Qed.

Lemma version_loop_antisym steps : forall i parts1 parts2,
  version_loop Number_ steps i parts2 parts1
  = Z.opp <$> version_loop Number_ steps i parts1 parts2.
Proof.
  induction steps as [|steps IH]; intros i parts1 parts2; simpl.
  - reflexivity.
  - rewrite (orb_comm (PrimFloat.is_nan (Number_ (nth i parts2 "0")))).
    destruct (_ || _); [reflexivity|].
    destruct (PrimFloat.ltb (Number_ (nth i parts1 "0"))
                (Number_ (nth i parts2 "0"))) eqn:E12.
    + rewrite (ltb_asym _ _ E12). reflexivity.
    + destruct (PrimFloat.ltb (Number_ (nth i parts2 "0"))
                  (Number_ (nth i parts1 "0"))); [reflexivity|].
      apply IH.
Qed.

Lemma versionCompare_swap first second :
  versionCompare Number_ second first
  = Z.opp <$> versionCompare Number_ first second.
Proof.
  unfold versionCompare.
  destruct first as [[| | |first| |]|], second as [[| | |second| |]|];
    try reflexivity.
  rewrite (orb_comm
             (String.length (removeVersionExtension second) =? 0)%nat).
  destruct (_ || _); [reflexivity|].
  rewrite Nat.max_comm. apply version_loop_antisym.
Qed.

(** X18: the version operators mirror each
    other, whatever [Number] makes of the parts: [version_gt] of two
    values is [version_lt] of the same values the other way round,
    [version_gte] is [version_lte], and [version_eq] and [version_neq]
    do not depend on the order. *)
Theorem version_operators_mirror value target :
  version_operator Number_ "version_gt" value target
  = version_operator Number_ "version_lt" target value
  /\ version_operator Number_ "version_gte" value target
     = version_operator Number_ "version_lte" target value
  /\ version_operator Number_ "version_eq" value target
     = version_operator Number_ "version_eq" target value
  /\ version_operator Number_ "version_neq" value target
     = version_operator Number_ "version_neq" target value.
Proof.
  unfold version_operator, versionCompareHelper. cbn [String.eqb Ascii.eqb Bool.eqb].
  rewrite (versionCompare_swap value target).
  destruct (versionCompare Number_ value target) as [[|p|p]|];
    repeat split; reflexivity.
Qed.

Lemma ltb_irrefl a : PrimFloat.ltb a a = false.
Proof.
  destruct (PrimFloat.ltb a a) eqn:E; [|reflexivity].
  rewrite <- E. apply ltb_asym. exact E.
Qed.

Lemma index_hyphen_append a ext :
  String.index 0 "-" (a +:+ "-" +:+ ext)
  = Some (default (String.length a) (String.index 0 "-" a)).
Proof.
  induction a as [|c a IH].
  - destruct ext; reflexivity.
  - change ((String c a) +:+ "-" +:+ ext)
      with (String c (a +:+ "-" +:+ ext)).
    cbn [String.index String.prefix].
    destruct (ascii_dec "-" c) as [_|_].
    + destruct a, ext; reflexivity.
    + rewrite IH. destruct (String.index 0 "-" a); reflexivity.
Qed.

Lemma substring_prefix_append n a t :
  (n <= String.length a)%nat ->
  String.substring 0 n (a +:+ t) = String.substring 0 n a.
Proof.
  revert a. induction n as [|n IH]; intros a Hn.
  - destruct a, t; reflexivity.
  - destruct a as [|c a]; simpl in *; [lia|].
    rewrite IH by lia. reflexivity.
Qed.

Lemma index_hyphen_bound a k :
  String.index 0 "-" a = Some k -> (k <= String.length a)%nat.
Proof.
  revert k. induction a as [|c a IH]; intros k.
  - discriminate.
  - cbn [String.index String.prefix].
    destruct (ascii_dec "-" c) as [_|_].
    + destruct a; intros [= <-]; simpl; lia.
    + destruct (String.index 0 "-" a) as [k'|]; [|discriminate].
      intros [= <-]. specialize (IH k' eq_refl). simpl. lia.
Qed.

Lemma substring_0_length a : String.substring 0 (String.length a) a = a.
Proof.
  induction a as [|c a IH]; simpl; [reflexivity|]. rewrite IH. reflexivity.
Qed.

Lemma removeVersionExtension_append a ext :
  removeVersionExtension (a +:+ "-" +:+ ext) = removeVersionExtension a.
Proof.
  unfold removeVersionExtension. rewrite index_hyphen_append.
  destruct (String.index 0 "-" a) as [k|] eqn:E; cbn [default from_option id].
  - apply substring_prefix_append. exact (index_hyphen_bound _ _ E).
  - rewrite substring_prefix_append by lia. apply substring_0_length.
Qed.

(** X19: what follows the first hyphen
    of a version plays no part in the comparison: ["1.2.3-beta"] compares
    with anything exactly as ["1.2.3"] does, on either side. *)
Theorem versionCompare_ignores_extension v ext other :
  versionCompare Number_ (Some (JStr (v +:+ "-" +:+ ext))) other
  = versionCompare Number_ (Some (JStr v)) other
  /\ versionCompare Number_ other (Some (JStr (v +:+ "-" +:+ ext)))
     = versionCompare Number_ other (Some (JStr v)).
Proof.
  split.
  - destruct other as [[| | |w| |]|]; try reflexivity.
    unfold versionCompare. rewrite removeVersionExtension_append.
    reflexivity.
  - destruct other as [[| | |w| |]|]; try reflexivity.
    unfold versionCompare. rewrite removeVersionExtension_append.
    reflexivity.
Qed.

Lemma nth_padded i (parts : list string) :
  nth i (parts ++ ["0"%string]) "0"%string = nth i parts "0"%string.
Proof.
  revert i. induction parts as [|p parts IH]; intros [|i]; simpl;
    try reflexivity.
  - destruct i; reflexivity.
  - apply IH.
Qed.

Lemma version_loop_padded steps : forall i parts1 parts2,
  version_loop Number_ steps i (parts1 ++ ["0"%string]) parts2
  = version_loop Number_ steps i parts1 parts2.
Proof.
  induction steps as [|steps IH]; intros i parts1 parts2; simpl.
  - reflexivity.
  - rewrite nth_padded, IH. reflexivity.
Qed.

Lemma version_loop_past_end steps : forall i parts1 parts2,
  PrimFloat.is_nan (Number_ "0") = false ->
  (Nat.max (length parts1) (length parts2) <= i + steps)%nat ->
  version_loop Number_ (S steps) i parts1 parts2
  = version_loop Number_ steps i parts1 parts2.
Proof.
  induction steps as [|steps IH]; intros i parts1 parts2 Hzero Hlen.
  - simpl. rewrite !nth_overflow by lia.
    rewrite Hzero, ltb_irrefl. reflexivity.
  - change (version_loop Number_ (S (S steps)) i parts1 parts2)
      with (let n1 := Number_ (nth i parts1 "0") in
            let n2 := Number_ (nth i parts2 "0") in
            if PrimFloat.is_nan n1 || PrimFloat.is_nan n2 then None
            else if PrimFloat.ltb n1 n2 then Some (-1)
            else if PrimFloat.ltb n2 n1 then Some 1
            else version_loop Number_ (S steps) (S i) parts1 parts2).
    cbv zeta. rewrite IH by (auto; lia). reflexivity.
Qed.

Lemma split_on_nonempty sep s : split_on sep s <> [].
Proof.
  destruct s as [|c s]; simpl; [discriminate|].
  destruct (Ascii.eqb c sep); [discriminate|].
  destruct (split_on sep s); discriminate.
Qed.

Lemma split_on_append_zero s :
  split_on "." (s +:+ ".0") = split_on "." s ++ ["0"%string].
Proof.
  induction s as [|c s IH].
  - reflexivity.
  - change ((String c s) +:+ ".0") with (String c (s +:+ ".0")).
    cbn [split_on]. rewrite IH.
    destruct (Ascii.eqb c "."); [reflexivity|].
    pose proof (split_on_nonempty "." s) as Hne.
    destruct (split_on "." s); [congruence|reflexivity].
Qed.

Lemma index_hyphen_append_zero a :
  String.index 0 "-" (a +:+ ".0") = String.index 0 "-" a.
Proof.
  induction a as [|c a IH].
  - reflexivity.
  - change ((String c a) +:+ ".0") with (String c (a +:+ ".0")).
    cbn [String.index String.prefix].
    destruct (ascii_dec "-" c) as [_|_].
    + destruct a; reflexivity.
    + rewrite IH. reflexivity.
Qed.

Lemma length_append_zero a :
  String.length (a +:+ ".0") = S (S (String.length a)).
Proof. induction a as [|c a IH]; simpl; [reflexivity|]. rewrite IH. reflexivity. Qed.

(** X20: a missing part counts as zero.
    As long as [Number("0")] is a number, a version and the same version
    with [".0"] appended compare alike with any other version:
    ["1.2"] and ["1.2.0"] are the same version. *)
Theorem versionCompare_trailing_zero v other :
  PrimFloat.is_nan (Number_ "0") = false ->
  (0 < String.length v)%nat ->
  versionCompare Number_ (Some (JStr (v +:+ ".0"))) other
  = versionCompare Number_ (Some (JStr v)) other.
Proof.
  intros Hzero Hv.
  destruct other as [[| | |w| |]|]; try reflexivity.
  unfold versionCompare, removeVersionExtension.
  rewrite index_hyphen_append_zero.
  destruct (String.index 0 "-" v) as [k|] eqn:E.
  - rewrite substring_prefix_append by exact (index_hyphen_bound _ _ E).
    reflexivity.
  - rewrite length_append_zero.
    destruct v as [|c v]; [simpl in Hv; lia|].
    cbn [String.length Nat.eqb orb].
    destruct (String.length _ =? 0)%nat; [reflexivity|].
    rewrite split_on_append_zero, version_loop_padded.
    rewrite length_app. cbn [length].
    set (parts1 := split_on "." (String c v)).
    set (parts2 := split_on "." _).
    destruct (Nat.le_gt_cases (length parts2) (length parts1)) as [Hle|Hgt].
    + replace (Nat.max (length parts1 + 1) (length parts2))
        with (S (Nat.max (length parts1) (length parts2))) by lia.
      apply version_loop_past_end; [exact Hzero|lia].
    + replace (Nat.max (length parts1 + 1) (length parts2))
        with (Nat.max (length parts1) (length parts2)) by lia.
      reflexivity.
Qed.

End VersionFacts.

Section VersionWitnesses.

Lemma versionCompare_trailing_zero_witness :
  versionCompare sample_Number (Some (JStr "1.2.0")) (Some (JStr "1.2"))
  = versionCompare sample_Number (Some (JStr "1.2")) (Some (JStr "1.2")).
Proof.
  apply (versionCompare_trailing_zero sample_Number "1.2"
           (Some (JStr "1.2"))).
  - reflexivity.
  - simpl. lia.
Defined.

Example versionCompare_on_samples :
  versionCompare sample_Number (Some (JStr "1.2")) (Some (JStr "1.2.0"))
  = Some 0
  /\ versionCompare sample_Number (Some (JStr "1.2-rc1")) (Some (JStr "2"))
     = Some (-1)
  /\ versionCompare sample_Number (Some (JStr "2.1")) (Some (JStr "2.0.1"))
     = Some 1
  /\ versionCompare sample_Number (Some (JStr "1.x")) (Some (JStr "1.2"))
     = None
  /\ versionCompare sample_Number (Some (JStr "-rc1")) (Some (JStr "1"))
     = None.
Proof. repeat split; vm_compute; reflexivity. Qed.

End VersionWitnesses.

(** * Options *)

Section OptionsFacts.
Import StatsigOptions.

Lemma Math_max_not_below a b :
  PrimFloat.ltb nan b = false -> PrimFloat.ltb b b = false ->
  PrimFloat.ltb (Math_max a b) b = false.
Proof.
  intros Hnan Hb. unfold Math_max.
  destruct (PrimFloat.is_nan a || PrimFloat.is_nan b); [exact Hnan|].
  destruct (PrimFloat.ltb a b) eqn:Hab; [exact Hb|].
  destruct (PrimFloat.ltb b a); [exact Hab|].
  destruct (PrimFloat.get_sign a); [exact Hb|exact Hab].
Qed.

Lemma Math_min_not_above a b :
  PrimFloat.ltb b nan = false -> PrimFloat.ltb b b = false ->
  PrimFloat.ltb b (Math_min a b) = false.
Proof.
  intros Hnan Hb. unfold Math_min.
  destruct (PrimFloat.is_nan a || PrimFloat.is_nan b); [exact Hnan|].
  destruct (PrimFloat.ltb b a) eqn:Hba; [exact Hb|].
  destruct (PrimFloat.ltb a b); [exact Hba|].
  destruct (PrimFloat.get_sign a); [exact Hba|exact Hb].
Qed.

(** X21: whatever the caller passes, the
    options the SDK works with never have a ruleset sync interval below
    5000 ms, an ID list sync interval below 30000 ms, or a logging buffer
    above 1000 events.  (A [NaN] passed for one of them stays [NaN],
    which is neither below nor above anything.) *)
Theorem options_intervals_clamped opts :
  let options := OptionsWithDefaults opts in
  PrimFloat.ltb (rulesetsSyncIntervalMs options) 5000%float = false
  /\ PrimFloat.ltb (idListsSyncIntervalMs options) 30000%float = false
  /\ PrimFloat.ltb 1000%float (loggingMaxBufferSize options) = false.
Proof.
  simpl. split; [|split].
  - apply (Math_max_not_below _ MIN_RULESETS_SYNC_INTERVAL); reflexivity.
  - apply (Math_max_not_below _ MIN_ID_LISTS_SYNC_INTERVAL); reflexivity.
  - apply (Math_min_not_above _ DEFAULT_MAX_LOGGING_BUFFER_SIZE);
      reflexivity.
Qed.

Lemma substring_whole s t :
  String.substring 0 (String.length s) (s +:+ t) = s.
Proof.
  induction s as [|c s IH]; simpl.
  - destruct t; reflexivity.
  - rewrite IH. reflexivity.
Qed.

Lemma substring_all t : String.substring 0 (String.length t) t = t.
Proof.
  induction t as [|c t IH]; simpl; [reflexivity|]. rewrite IH. reflexivity.
Qed.

Lemma substring_tail s t :
  String.substring (String.length s) (String.length t) (s +:+ t) = t.
Proof.
  induction s as [|c s IH]; simpl; [apply substring_all|exact IH].
Qed.

Lemma length_append s t :
  String.length (s +:+ t) = (String.length s + String.length t)%nat.
Proof. induction s as [|c s IH]; simpl; [reflexivity|]. rewrite IH. reflexivity. Qed.

Lemma endsWith_append s p : endsWith (s +:+ p) p = true.
Proof.
  unfold endsWith. rewrite length_append.
  replace (String.length s + String.length p - String.length p)%nat
    with (String.length s) by lia.
  rewrite substring_tail, String.eqb_refl.
  rewrite andb_true_r. apply Nat.leb_le. lia.
Qed.

Lemma normalizeUrl_strips s :
  normalizeUrl (Some (s +:+ "/")) = Some s.
Proof.
  unfold normalizeUrl. rewrite endsWith_append.
  assert (Hne : String.eqb (s +:+ "/") "" = false).
  { destruct s; reflexivity. }
  rewrite Hne. simpl. unfold slice_0_m1. rewrite length_append. simpl.
  replace (String.length s + 1 - 1)%nat with (String.length s) by lia.
  rewrite substring_whole. reflexivity.
Qed.

(** X22: a base URL given with a trailing slash is
    kept without it.  Whatever else the options hold, setting [api] or
    [apiForDownloadConfigSpecs] to [s + "/"] makes [OptionsWithDefaults]
    report [s]. *)
Theorem options_api_normalized opts s :
  api (OptionsWithDefaults (rec_set opts "api" (OptString (s +:+ "/")))) = s
  /\ apiForDownloadConfigSpecs
       (OptionsWithDefaults
          (rec_set opts "apiForDownloadConfigSpecs" (OptString (s +:+ "/"))))
     = Some s.
Proof.
  split.
  - unfold OptionsWithDefaults. cbn [api]. unfold getString.
    rewrite rec_get_set, String.eqb_refl. cbn [default from_option id].
    rewrite normalizeUrl_strips. reflexivity.
  - unfold OptionsWithDefaults. cbn [apiForDownloadConfigSpecs].
    unfold getString. rewrite rec_get_set, String.eqb_refl.
    apply normalizeUrl_strips.
Qed.

End OptionsFacts.

(** * The server's user handling *)

Section ServerFacts.
Import StatsigServer.

Lemma substring_length_le n s :
  (String.length (String.substring 0 n s) <= n)%nat.
Proof.
  revert s. induction n as [|n IH]; intros s.
  - destruct s; simpl; lia.
  - destruct s as [|c s]; simpl; [lia|]. specialize (IH s). lia.
Qed.

Lemma substring_short n s :
  (String.length s <= n)%nat -> String.substring 0 n s = s.
Proof.
  revert s. induction n as [|n IH]; intros s Hs.
  - destruct s; [reflexivity|simpl in Hs; lia].
  - destruct s as [|c s]; simpl; [reflexivity|].
    rewrite IH; [reflexivity|simpl in Hs; lia].
Qed.

Lemma alloc_fresh (heap : Heap) u heap' l :
  alloc heap u = (heap', l) ->
  heap !! l = None /\ heap' = <[l := u]> heap.
Proof.
  unfold alloc. intros [= <- <-]. split; [|reflexivity].
  apply not_elem_of_dom, is_fresh.
Qed.

(** X23: the user [trimUserObjIfNeeded]
    returns has a [userID] of at most 64 characters, and it is either
    within the size limit of 2048 or reduced to its [userID] and
    [customIDs]. *)
Theorem trimUserObjIfNeeded_bounds heap user heap' l warned :
  trimUserObjIfNeeded heap (Some user) = Some (heap', l, warned) ->
  exists r,
    heap' !! l = Some r
    /\ (forall id, userID r = Some id ->
        Z.of_nat (String.length id) <= MAX_VALUE_SIZE)
    /\ (approximateObjectSize (user_object r) <= MAX_USER_SIZE
        \/ only_ids r).
Proof.
  unfold trimUserObjIfNeeded.
  destruct (heap !! user) as [u|] eqn:Hu; [|discriminate].
  set (step1 := match userID u with
                | Some id =>
                    if shouldTrimParam (Some (JStr id)) MAX_VALUE_SIZE
                    then (set_userID u
                            (String.substring 0 (Z.to_nat MAX_VALUE_SIZE) id),
                          [Warn user_id_too_large])
                    else (u, [])
                | None => (u, [])
                end).
  assert (Hid : forall id, userID (fst step1) = Some id ->
                           Z.of_nat (String.length id) <= MAX_VALUE_SIZE).
  { subst step1. destruct (userID u) as [id0|] eqn:Hid0.
    - simpl. destruct (Z.of_nat (String.length id0) >? MAX_VALUE_SIZE) eqn:E.
      + simpl. intros id [= <-].
        pose proof (substring_length_le (Z.to_nat MAX_VALUE_SIZE) id0).
        unfold MAX_VALUE_SIZE in *. lia.
      + simpl. rewrite Hid0. intros id [= <-].
        rewrite Z.gtb_ltb in E. apply Z.ltb_ge in E. exact E.
    - simpl. rewrite Hid0. discriminate. }
  destruct step1 as [u1 warned1]. simpl in Hid.
  destruct (shouldTrimParam (Some (user_object u1)) MAX_USER_SIZE) eqn:E1.
  - destruct (shouldTrimParam
                (Some (user_object (set_custom u1 too_large_marker)))
                MAX_USER_SIZE) eqn:E2.
    + destruct (alloc _ _) as [heap2 l2] eqn:Ha. intros [= <- <- <-].
      apply alloc_fresh in Ha as [_ ->].
      eexists. split; [apply lookup_insert_eq|]. split; [exact Hid|].
      right. repeat split.
    + intros [= <- <- <-].
      eexists. split; [apply lookup_insert_eq|]. split; [exact Hid|].
      left. simpl in E2. rewrite Z.gtb_ltb in E2. apply Z.ltb_ge in E2.
      exact E2.
  - intros [= <- <- <-].
    eexists. split; [apply lookup_insert_eq|]. split; [exact Hid|].
    left. simpl in E1. rewrite Z.gtb_ltb in E1. apply Z.ltb_ge in E1.
    exact E1.
Qed.

(** X24: a user within both limits comes
    back as it is: the same reference, the heap unchanged, and nothing
    logged. *)
Theorem trimUserObjIfNeeded_small_user heap user u :
  heap !! user = Some u ->
  (forall id, userID u = Some id ->
   Z.of_nat (String.length id) <= MAX_VALUE_SIZE) ->
  approximateObjectSize (user_object u) <= MAX_USER_SIZE ->
  trimUserObjIfNeeded heap (Some user) = Some (heap, user, []).
Proof.
  intros Hu Hid Hsize. unfold trimUserObjIfNeeded. rewrite Hu.
  assert (H1 : match userID u with
               | Some id =>
                   if shouldTrimParam (Some (JStr id)) MAX_VALUE_SIZE
                   then (set_userID u
                           (String.substring 0 (Z.to_nat MAX_VALUE_SIZE) id),
                         [Warn user_id_too_large])
                   else (u, [])
               | None => (u, [])
               end = (u, [])).
  { destruct (userID u) as [id|] eqn:E; [|reflexivity].
    simpl. specialize (Hid id eq_refl).
    destruct (Z.of_nat (String.length id) >? MAX_VALUE_SIZE) eqn:E1;
      [|reflexivity].
    rewrite Z.gtb_ltb in E1. apply Z.ltb_lt in E1. lia. }
  rewrite H1.
  assert (H2 : shouldTrimParam (Some (user_object u)) MAX_USER_SIZE = false).
  { simpl. rewrite Z.gtb_ltb. apply Z.ltb_ge. exact Hsize. }
  rewrite H2. rewrite insert_id by exact Hu. reflexivity.
Qed.

(** X25: trimming writes to the
    caller's object.  A [userID] longer than 64 characters is cut to its
    first 64 in the object the argument refers to, with a warning,
    whichever reference the function then returns; the object's other
    fields stay, except [custom], and no other object changes. *)
Theorem trimUserObjIfNeeded_truncates_in_place heap user u id heap' l warned :
  heap !! user = Some u ->
  userID u = Some id ->
  MAX_VALUE_SIZE < Z.of_nat (String.length id) ->
  trimUserObjIfNeeded heap (Some user) = Some (heap', l, warned) ->
  In (Warn user_id_too_large) warned
  /\ (exists u',
        heap' !! user = Some u'
        /\ userID u' = Some (String.substring 0 64 id)
        /\ customIDs u' = customIDs u
        /\ privateAttributes u' = privateAttributes u
        /\ statsigEnvironment u' = statsigEnvironment u
        /\ otherFields u' = otherFields u)
  /\ (forall other, other <> user -> other <> l ->
      heap' !! other = heap !! other).
Proof.
  intros Hu Hid Hlong. unfold trimUserObjIfNeeded. rewrite Hu, Hid.
  assert (Htrim : shouldTrimParam (Some (JStr id)) MAX_VALUE_SIZE = true).
  { simpl. rewrite Z.gtb_ltb. apply Z.ltb_lt. exact Hlong. }
  rewrite Htrim.
  set (u1 := set_userID u (String.substring 0 (Z.to_nat MAX_VALUE_SIZE) id)).
  destruct (shouldTrimParam (Some (user_object u1)) MAX_USER_SIZE).
  - destruct (shouldTrimParam
                (Some (user_object (set_custom u1 too_large_marker)))
                MAX_USER_SIZE).
    + destruct (alloc _ _) as [heap2 l2] eqn:Ha. intros [= <- <- <-].
      apply alloc_fresh in Ha as [Hfresh ->].
      split; [left; reflexivity|]. split.
      * exists (set_custom u1 too_large_marker). split.
        { rewrite lookup_insert_ne.
          - apply lookup_insert_eq.
          - intros ->. rewrite lookup_insert_eq in Hfresh. discriminate. }
        repeat split.
      * intros other Hne Hnl.
        rewrite lookup_insert_ne by congruence.
        rewrite lookup_insert_ne by congruence. reflexivity.
    + intros [= <- <- <-].
      split; [left; reflexivity|]. split.
      * exists (set_custom u1 too_large_marker).
        split; [apply lookup_insert_eq|]. repeat split.
      * intros other Hne _. rewrite lookup_insert_ne by congruence.
        reflexivity.
  - intros [= <- <- <-].
    split; [left; reflexivity|]. split.
    + exists u1. split; [apply lookup_insert_eq|]. repeat split.
    + intros other Hne _. rewrite lookup_insert_ne by congruence.
      reflexivity.
Qed.

Lemma trimUserObjIfNeeded_keeps_private heap user u heap' l warned :
  heap !! user = Some u ->
  trimUserObjIfNeeded heap (Some user) = Some (heap', l, warned) ->
  (exists u', heap' !! user = Some u'
              /\ privateAttributes u' = privateAttributes u)
  /\ is_Some (heap' !! l).
Proof.
  intros Hu. unfold trimUserObjIfNeeded. rewrite Hu.
  set (step1 := match userID u with
                | Some id =>
                    if shouldTrimParam (Some (JStr id)) MAX_VALUE_SIZE
                    then (set_userID u
                            (String.substring 0 (Z.to_nat MAX_VALUE_SIZE) id),
                          [Warn user_id_too_large])
                    else (u, [])
                | None => (u, [])
                end).
  assert (Hp : privateAttributes (fst step1) = privateAttributes u).
  { subst step1. destruct (userID u) as [id|]; [|reflexivity].
    destruct (shouldTrimParam _ _); reflexivity. }
  destruct step1 as [u1 warned1]. simpl in Hp.
  destruct (shouldTrimParam (Some (user_object u1)) MAX_USER_SIZE).
  - destruct (shouldTrimParam
                (Some (user_object (set_custom u1 too_large_marker)))
                MAX_USER_SIZE).
    + destruct (alloc _ _) as [heap2 l2] eqn:Ha. intros [= <- <- <-].
      apply alloc_fresh in Ha as [Hfresh ->]. split.
      * exists (set_custom u1 too_large_marker). split; [|exact Hp].
        rewrite lookup_insert_ne; [apply lookup_insert_eq|].
        intros ->. rewrite lookup_insert_eq in Hfresh. discriminate.
      * rewrite lookup_insert_eq. eauto.
    + intros [= <- <- <-]. split.
      * exists (set_custom u1 too_large_marker).
        split; [apply lookup_insert_eq|exact Hp].
      * rewrite lookup_insert_eq. eauto.
  - intros [= <- <- <-]. split.
    + exists u1. split; [apply lookup_insert_eq|exact Hp].
    + rewrite lookup_insert_eq. eauto.
Qed.

Lemma normalizeUser_copies heap user u options heap' l warned :
  heap !! user = Some u ->
  normalizeUser heap (Some user) options = Some (heap', l, warned) ->
  l <> user
  /\ (exists u', heap' !! user = Some u'
                 /\ privateAttributes u' = privateAttributes u)
  /\ is_Some (heap' !! l).
Proof.
  intros Hu. unfold normalizeUser.
  destruct (trimUserObjIfNeeded heap (Some user))
    as [[[heap1 l1] warned1]|] eqn:Htrim; [|discriminate].
  destruct (trimUserObjIfNeeded_keeps_private _ _ _ _ _ _ Hu Htrim)
    as ((u' & Hu' & Hp) & [r Hr]).
  rewrite Hr. destruct (alloc _ _) as [heap2 l2] eqn:Ha.
  intros [= <- <- <-]. apply alloc_fresh in Ha as [Hfresh ->].
  assert (Hne : l2 <> user) by (intros ->; congruence).
  split; [exact Hne|]. split.
  - exists u'. split; [|exact Hp].
    rewrite lookup_insert_ne by congruence. exact Hu'.
  - rewrite lookup_insert_eq. eauto.
Qed.

End ServerFacts.

Section ServerResponseFacts.
Context `{Externals}.

Lemma client_response_inv this fuel heap user hash tbl result tbl' :
  getClientInitializeResponse this fuel heap user hash tbl
  = Some (result, tbl') ->
  (isServingChecks (specStore this) = false /\ result = (None, heap))
  \/ (exists u payload,
        heap !! user = Some u
        /\ result = (Some payload, <[user := delete_privateAttributes u]> heap)
        /\ cir_user payload = user).
Proof.
  unfold getClientInitializeResponse.
  destruct (isServingChecks (specStore this)); cbn [negb].
  2:{ intros [= <- _]. left. auto. }
  unfold bind at 1. unfold lift.
  destruct (heap !! user) as [u|]; [|discriminate].
  unfold ret at 1. unfold bind at 1.
  destruct (run_all (gate_entry this fuel u hash) _ tbl)
    as [[gates tbl1]|]; [|discriminate].
  unfold bind at 1.
  destruct (run_all (config_entry this fuel u hash) _ tbl1)
    as [[configs tbl2]|]; [|discriminate].
  unfold bind at 1.
  destruct (run_all (layer_entry this fuel u hash) _ tbl2)
    as [[layers tbl3]|]; [|discriminate].
  intros [= <- _]. right. eexists. eexists.
  split; [reflexivity|]. split; reflexivity.
Qed.

Import StatsigServer.

(** X26: through [StatsigServer], whether
    the caller's user object loses [privateAttributes] depends on
    whether it carries a [statsigEnvironment].  Without one, the
    evaluator is handed a normalised copy: the payload's [user] is
    another object, stripped of [privateAttributes], and the caller's
    object keeps its own.  With one, the caller's object itself goes to
    the evaluator, comes back as the payload's [user], and has lost
    them. *)
Theorem server_response_copies_user this fuel heap user hash tbl u payload
    heap' warned tbl' :
  heap !! user = Some u ->
  getClientInitializeResponse this fuel heap user hash tbl
  = Some ((Return (Some payload), heap', warned), tbl') ->
  (exists sent,
     heap' !! cir_user payload = Some sent
     /\ privateAttributes sent = None)
  /\ match statsigEnvironment u with
     | None =>
         cir_user payload <> user
         /\ exists kept,
              heap' !! user = Some kept
              /\ privateAttributes kept = privateAttributes u
     | Some _ => cir_user payload = user
     end.
Proof.
  intros Hu. unfold getClientInitializeResponse.
  destruct (negb (_ready this)); [discriminate|].
  unfold bind at 1. unfold lift at 1. rewrite Hu. unfold ret at 1.
  destruct (statsigEnvironment u) as [e|] eqn:He.
  - unfold bind at 1. unfold ret at 1. unfold bind at 1.
    match goal with
    | |- context [match ?run with Some _ => _ | None => _ end] =>
        destruct run as [[response tbl1]|] eqn:Hrun; [|discriminate]
    end.
    intros [= Hres <- <- <-].
    apply client_response_inv in Hrun
      as [[_ ->]|(u0 & payload0 & Hu0 & -> & Hp)]; [discriminate|].
    simpl in Hres. injection Hres as ->. simpl. rewrite Hp. split.
    + eexists. split; [apply lookup_insert_eq|reflexivity].
    + reflexivity.
  - unfold bind at 1. unfold lift at 1.
    destruct (normalizeUser heap (Some user) (_options this))
      as [[[heap1 l1] warned1]|] eqn:Hnorm; [|discriminate].
    unfold ret at 1. unfold bind at 1.
    match goal with
    | |- context [match ?run with Some _ => _ | None => _ end] =>
        destruct run as [[response tbl1]|] eqn:Hrun; [|discriminate]
    end.
    intros [= Hres <- <- <-].
    apply client_response_inv in Hrun
      as [[_ ->]|(u0 & payload0 & Hu0 & -> & Hp)]; [discriminate|].
    simpl in Hres. injection Hres as ->. simpl. rewrite Hp.
    destruct (normalizeUser_copies _ _ _ _ _ _ _ Hu Hnorm)
      as (Hne & (kept & Hkept & Hpriv) & _).
    split; [|split].
    + eexists. split; [apply lookup_insert_eq|reflexivity].
    + exact Hne.
    + exists kept. split; [|exact Hpriv].
      rewrite lookup_insert_ne by congruence. exact Hkept.
Qed.

End ServerResponseFacts.

Section ServerWitnesses.
#[local] Existing Instance sample_externals.
Import StatsigServer.

Lemma trimUserObjIfNeeded_bounds_witness :
  exists heap' l warned r,
    trimUserObjIfNeeded {[ 1%positive := sample_long_user ]} (Some 1%positive)
    = Some (heap', l, warned)
    /\ heap' !! l = Some r
    /\ (forall id, userID r = Some id ->
        Z.of_nat (String.length id) <= MAX_VALUE_SIZE)
    /\ (approximateObjectSize (user_object r) <= MAX_USER_SIZE
        \/ only_ids r).
Proof.
  destruct (trimUserObjIfNeeded {[ 1%positive := sample_long_user ]}
              (Some 1%positive)) as [[[heap' l] warned]|] eqn:Hrun;
    [|exfalso; vm_compute in Hrun; discriminate Hrun].
  destruct (trimUserObjIfNeeded_bounds _ _ _ _ _ Hrun) as (r & Hr & Hid & Hsz).
  exists heap', l, warned, r. auto.
Defined.

Lemma trimUserObjIfNeeded_small_user_witness :
  trimUserObjIfNeeded {[ 1%positive := sample_user ]} (Some 1%positive)
  = Some ({[ 1%positive := sample_user ]}, 1%positive, []).
Proof.
  apply (trimUserObjIfNeeded_small_user {[ 1%positive := sample_user ]}
           1%positive sample_user).
  - reflexivity.
  - intros id [= <-]. vm_compute. discriminate.
  - vm_compute. discriminate.
Defined.

Lemma trimUserObjIfNeeded_truncates_in_place_witness :
  exists heap' l warned u',
    trimUserObjIfNeeded {[ 1%positive := sample_long_user ]} (Some 1%positive)
    = Some (heap', l, warned)
    /\ In (Warn user_id_too_large) warned
    /\ heap' !! 1%positive = Some u'
    /\ userID u'
       = Some ("0123456789012345678901234567890123456789"
               +:+ "012345678901234567890123").
Proof.
  destruct (trimUserObjIfNeeded {[ 1%positive := sample_long_user ]}
              (Some 1%positive)) as [[[heap' l] warned]|] eqn:Hrun;
    [|exfalso; vm_compute in Hrun; discriminate Hrun].
  destruct (trimUserObjIfNeeded_truncates_in_place
              {[ 1%positive := sample_long_user ]} 1%positive
              sample_long_user
              ("0123456789012345678901234567890123456789"
               +:+ "012345678901234567890123456789")
              heap' l warned)
    as (Hwarn & (u' & Hu' & Hid & _) & _).
  - reflexivity.
  - reflexivity.
  - vm_compute. reflexivity.
  - exact Hrun.
  - exists heap', l, warned, u'. repeat split; assumption.
Defined.

Lemma server_response_copies_user_witness :
  exists payload heap' warned tbl' sent kept,
    StatsigServer.getClientInitializeResponse sample_server 4
      {[ 1%positive := sample_user ]} 1%positive None ∅
    = Some ((Return (Some payload), heap', warned), tbl')
    /\ heap' !! cir_user payload = Some sent
    /\ privateAttributes sent = None
    /\ cir_user payload <> 1%positive
    /\ heap' !! 1%positive = Some kept
    /\ privateAttributes kept = privateAttributes sample_user.
Proof.
  destruct (StatsigServer.getClientInitializeResponse sample_server 4
              {[ 1%positive := sample_user ]} 1%positive None ∅)
    as [[[[[[payload|]|msg] heap'] warned] tbl']|] eqn:Hrun;
    [|exfalso; vm_compute in Hrun; discriminate Hrun
     |exfalso; vm_compute in Hrun; discriminate Hrun
     |exfalso; vm_compute in Hrun; discriminate Hrun].
  assert (Hu : ({[ 1%positive := sample_user ]} : Heap) !! 1%positive
               = Some sample_user) by reflexivity.
  pose proof (server_response_copies_user sample_server 4
                {[ 1%positive := sample_user ]} 1%positive None ∅
                sample_user payload heap' warned tbl' Hu Hrun) as Hres.
  cbn [statsigEnvironment sample_user] in Hres.
  destruct Hres as ((sent & Hsent & Hpriv) & Hne & kept & Hkept & Hkpriv).
  exists payload, heap', warned, tbl', sent, kept.
  repeat split; assumption.
Defined.

End ServerWitnesses.

(** * Sha256 *)

Section Sha256Facts.
Import Sha256.
Local Open Scope js_scope.

Lemma ToInt32_congr x y k :
  x = y + k * 4294967296 -> ToInt32 x = ToInt32 y.
Proof.
  intros ->. unfold ToInt32.
  replace (y + k * 4294967296 + 2147483648)
    with (y + 2147483648 + k * 4294967296) by lia.
  rewrite Z_mod_plus_full. reflexivity.
Qed.

Lemma ToInt32_idem x : ToInt32 (ToInt32 x) = ToInt32 x.
Proof.
  unfold ToInt32.
  replace ((x + 2147483648) mod 4294967296 - 2147483648 + 2147483648)
    with ((x + 2147483648) mod 4294967296) by lia.
  rewrite Z.mod_mod by lia. reflexivity.
Qed.

Lemma shift_left_0 x : x .<< 0 = ToInt32 x.
Proof.
  unfold shift_left. change (ToUint32 0 mod 32) with 0.
  rewrite Z.shiftl_0_r. apply ToInt32_idem.
Qed.

Lemma triple_eq {A B C} (a a' : A) (b b' : B) (c c' : C) :
  a = a' -> b = b' -> c = c' -> (a, b, c) = (a', b', c').
Proof. intros -> -> ->. reflexivity. Qed.

Lemma open_round_shortcut blocks :
  open_round true blocks 0
    (0x6a09e667, 0xbb67ae85, 0x3c6ef372, 0xa54ff53a, 0x510e527f, 0x9b05688c,
     0x1f83d9ab, 0x5be0cd19, 0xbb67ae85 .& 0x3c6ef372)
  = open_round false blocks 0
      (0x6a09e667, 0xbb67ae85, 0x3c6ef372, 0xa54ff53a, 0x510e527f,
       0x9b05688c, 0x1f83d9ab, 0x5be0cd19, 0xbb67ae85 .& 0x3c6ef372).
Proof.
  unfold open_round. cbv zeta.
  set (x := get blocks 0).
  rewrite !shift_left_0.
  apply triple_eq.
  - vm_compute. reflexivity.
  - apply (ToInt32_congr _ _ (-2)).
    match goal with
    | |- _ = _ + (?h + ?s1 + ?ch + ?k + x) + _ =>
        set (t := h + s1 + ch + k);
        assert (Et : t = 4084723048) by (vm_compute; reflexivity)
    end.
    clearbody t. subst t. lia.
  - apply (ToInt32_congr _ _ (-1)).
    match goal with
    | |- _ = ?h + ?s1 + ?ch + ?k + x + ?t2 + _ =>
        set (t := h + s1 + ch + k); set (u := t2);
        assert (Et : t = 4084723048) by (vm_compute; reflexivity);
        assert (Eu : u = 143694565) by (vm_compute; reflexivity)
    end.
    clearbody t u. subst t u. lia.
Qed.

Lemma rounds_S turns first blocks j r :
  rounds (S turns) first blocks j r
  = rounds turns false blocks (j + 4) (round4 first blocks j r).
Proof. reflexivity. Qed.

Lemma round4_shortcut blocks :
  round4 true blocks 0
    (0x6a09e667, 0xbb67ae85, 0x3c6ef372, 0xa54ff53a, 0x510e527f, 0x9b05688c,
     0x1f83d9ab, 0x5be0cd19, 0xbb67ae85 .& 0x3c6ef372)
  = round4 false blocks 0
      (0x6a09e667, 0xbb67ae85, 0x3c6ef372, 0xa54ff53a, 0x510e527f,
       0x9b05688c, 0x1f83d9ab, 0x5be0cd19, 0xbb67ae85 .& 0x3c6ef372).
Proof. unfold round4. rewrite open_round_shortcut. reflexivity. Qed.

Lemma hash_shortcut this :
  initial_words this -> hash (with_first this true) = hash (with_first this false).
Proof.
  destruct this as [bl a b c d e f g h blk st by_ hb fin hsd fst lbi].
  unfold initial_words. cbn [h0 h1 h2 h3 h4 h5 h6 h7].
  intros (-> & -> & -> & -> & -> & -> & -> & ->).
  unfold hash. cbn [blocks h0 h1 h2 h3 h4 h5 h6 h7 first with_first block
                    start bytes hBytes finalized hashed lastByteIndex].
  rewrite (rounds_S 15 true), (rounds_S 15 false), round4_shortcut.
  reflexivity.
Qed.

Lemma with_first_same s : first s = true -> with_first s true = s.
Proof. destruct s. cbn. intros ->. reflexivity. Qed.

Lemma hash_same s s' : same_but_first s s' -> hash s' = hash s.
Proof.
  intros [->|(Hw & Hf & ->)]; [reflexivity|].
  rewrite <- (with_first_same s Hf) at 2. symmetry. apply hash_shortcut, Hw.
Qed.

Lemma update_turn_same s s' m :
  same_but_first s s' ->
  same_but_first (fst (update_turn s m)) (fst (update_turn s' m))
  /\ snd (update_turn s' m) = snd (update_turn s m).
Proof.
  intros [->|(Hw & Hf & ->)]; [split; [left|]; reflexivity|].
  unfold update_turn.
  destruct s as [bl a b c d e f g h blk st by_ hb fin hsd fst_ lbi].
  cbn [first] in Hf. subst fst_.
  unfold initial_words in Hw. cbn [h0 h1 h2 h3 h4 h5 h6 h7] in Hw.
  cbn [hashed with_first blocks block with_blocks with_hashed start bytes
       hBytes h0 h1 h2 h3 h4 h5 h6 h7 finalized first lastByteIndex].
  destruct hsd;
    cbn [hashed with_first blocks block with_blocks with_hashed start bytes
         hBytes h0 h1 h2 h3 h4 h5 h6 h7 finalized first lastByteIndex];
    (destruct (fill _ st m) as [[filled i] rest];
     cbn [with_blocks with_lastByteIndex with_bytes with_block with_start
          hashed with_first blocks block with_hashed start bytes
          hBytes h0 h1 h2 h3 h4 h5 h6 h7 finalized first lastByteIndex];
     destruct (i >=? 64);
     [ match goal with
       | |- same_but_first (fst (with_hashed (hash ?A) true, _))
              (fst (with_hashed (hash ?B) true, _)) /\ _ =>
           assert (Hh : hash B = hash A)
             by (apply hash_same; right; split; [exact Hw|];
                 split; reflexivity);
           rewrite Hh
       end;
       split; [left|]; reflexivity
     | split; [|reflexivity]; right; split; [exact Hw|]; split; reflexivity ]).
Qed.

Lemma update_loop_same turns : forall s s' m,
  same_but_first s s' ->
  same_option (update_loop turns s m) (update_loop turns s' m).
Proof.
  induction turns as [|turns IH]; intros s s' m Hs.
  - destruct m; simpl; [exact Hs|exact I].
  - destruct m as [|code rest]; [exact Hs|].
    cbn [update_loop].
    destruct (update_turn_same s s' (code :: rest) Hs) as [H1 H2].
    destruct (update_turn s (code :: rest)) as [s1 r1].
    destruct (update_turn s' (code :: rest)) as [s1' r1'].
    cbn in H1, H2. subst r1'. apply IH, H1.
Qed.


Lemma fill_nil bl i : fill bl i [] = (bl, i, []).
Proof. reflexivity. Qed.

Lemma fill_full bl i m : 64 <= i -> fill bl i m = (bl, i, m).
Proof.
  intros Hi. destruct m as [|code rest]; [reflexivity|].
  cbn [fill]. destruct (i <? 64) eqn:E; [|reflexivity].
  apply Z.ltb_lt in E. lia.
Qed.

Lemma low_not_surrogate code :
  (code <? 0x80) = true \/ (code <? 0x800) = true ->
  (code <? 0xd800) || (code >=? 0xe000) = true.
Proof.
  intros H. apply orb_true_iff. left. apply Z.ltb_lt.
  destruct H as [H|H]; apply Z.ltb_lt in H; lia.
Qed.

(** What the [for] loop does to a message in two parts. *)
Lemma fill_app n : forall a bl i b,
  (length a <= n)%nat ->
  ends_whole a = true ->
  fill bl i (a ++ b)
  = match fill bl i a with
    | (bl', i', []) => fill bl' i' b
    | (bl', i', rest) => (bl', i', rest ++ b)
    end
  /\ ends_whole (snd (fill bl i a)) = true.
Proof.
  induction n as [|n IH]; intros a bl i b Hn Hw.
  - destruct a; [|simpl in Hn; lia]. split; reflexivity.
  - destruct a as [|code rest]; [split; reflexivity|].
    simpl in Hn. assert (Hrest : (length rest <= n)%nat) by lia.
    change ((code :: rest) ++ b) with (code :: (rest ++ b)).
    cbn [fill]. destruct (i <? 64) eqn:Ei; [|split; [reflexivity|exact Hw]].
    cbn [ends_whole] in Hw.
    destruct (code <? 0x80) eqn:E1.
    { rewrite (low_not_surrogate code (or_introl E1)) in Hw.
      apply IH; assumption. }
    destruct (code <? 0x800) eqn:E2.
    { rewrite (low_not_surrogate code (or_intror E2)) in Hw.
      apply IH; assumption. }
    destruct ((code <? 0xd800) || (code >=? 0xe000)) eqn:E3.
    { apply IH; assumption. }
    destruct rest as [|next rest']; [discriminate|].
    change ((next :: rest') ++ b) with (next :: (rest' ++ b)).
    cbv zeta. apply IH; [simpl in Hrest; lia|exact Hw].
Qed.

(** How far the [for] loop gets. *)
Lemma fill_progress n : forall m bl i,
  (length m <= n)%nat ->
  let '(_, i', rest) := fill bl i m in
  (length rest <= length m)%nat
  /\ i <= i' <= i + 4 * (Z.of_nat (length m) - Z.of_nat (length rest))
  /\ (i <= 67 -> i' <= 67)
  /\ (i < 64 -> m <> [] -> (length rest < length m)%nat).
Proof.
  induction n as [|n IH]; intros m bl i Hn.
  - destruct m; [|simpl in Hn; lia]. cbn. repeat split; try lia. congruence.
  - destruct m as [|code rest]; [cbn; repeat split; try lia; congruence|].
    simpl in Hn. assert (Hrest : (length rest <= n)%nat) by lia.
    cbn [fill]. destruct (i <? 64) eqn:Ei.
    2:{ apply Z.ltb_ge in Ei. repeat split; try lia. }
    apply Z.ltb_lt in Ei.
    destruct (code <? 0x80).
    { specialize (IH rest (put bl i code) (i + 1) Hrest).
      destruct (fill _ (i + 1) rest) as [[bl' i'] r'].
      cbn [length]. repeat split; try lia. }
    destruct (code <? 0x800).
    { match goal with |- context [fill ?b (i + 2) rest] =>
        specialize (IH rest b (i + 2) Hrest);
        destruct (fill b (i + 2) rest) as [[bl' i'] r'] end.
      cbn [length]. repeat split; try lia. }
    destruct ((code <? 0xd800) || (code >=? 0xe000)).
    { match goal with |- context [fill ?b (i + 3) rest] =>
        specialize (IH rest b (i + 3) Hrest);
        destruct (fill b (i + 3) rest) as [[bl' i'] r'] end.
      cbn [length]. repeat split; try lia. }
    cbv zeta. destruct rest as [|next rest'].
    { cbn [length]. repeat split; try lia. }
    simpl in Hrest.
    match goal with |- context [fill ?b (i + 4) rest'] =>
      specialize (IH rest' b (i + 4) ltac:(lia));
      destruct (fill b (i + 4) rest') as [[bl' i'] r'] end.
    cbn [length]. repeat split; try lia.
Qed.

Ltac fields :=
  cbn [blocks h0 h1 h2 h3 h4 h5 h6 h7 block start bytes hBytes finalized
       hashed first lastByteIndex with_blocks with_block with_start
       with_bytes with_hashed with_finalized with_lastByteIndex with_first
       fst snd] in *.

Lemma hash_keeps this :
  start (hash this) = start this /\ bytes (hash this) = bytes this
  /\ hBytes (hash this) = hBytes this
  /\ finalized (hash this) = finalized this
  /\ hashed (hash this) = hashed this
  /\ lastByteIndex (hash this) = lastByteIndex this
  /\ block (hash this) = block this
  /\ first (hash this) = false.
Proof.
  unfold hash.
  destruct (rounds _ _ _ _ _) as [[[[[[[[a b] c] d] e] f] g] h] bc].
  repeat split.
Qed.

(** What a turn of the [while] loop does to the message and to the
    counters. *)
Lemma update_turn_progress s m :
  let '(s', rest) := update_turn s m in
  (length rest <= length m)%nat
  /\ (start s < 64 -> m <> [] -> (length rest < length m)%nat)
  /\ (start s < 64 -> start s' < 64)
  /\ bytes s' <= bytes s + 4 * (Z.of_nat (length m) - Z.of_nat (length rest))
  /\ hBytes s' = hBytes s
  /\ finalized s' = finalized s.
Proof.
  unfold update_turn.
  set (s0 := if hashed s then _ else s).
  assert (H0 : start s0 = start s /\ bytes s0 = bytes s
               /\ hBytes s0 = hBytes s /\ finalized s0 = finalized s).
  { subst s0. destruct (hashed s); repeat split. }
  destruct H0 as (Hst & Hby & Hhb & Hfin). clearbody s0.
  pose proof (fill_progress (length m) m (blocks s0) (start s0) (le_n _))
    as Hp.
  destruct (fill (blocks s0) (start s0) m) as [[filled i] rest].
  destruct Hp as (Hlen & Hi & H67 & Hlt).
  destruct (i >=? 64) eqn:Ei.
  - match goal with |- context [hash ?x] =>
      destruct (hash_keeps x) as (K1 & K2 & K3 & K4 & _);
      set (hx := hash x) in *; clearbody hx
    end.
    fields. rewrite Z.geb_leb in Ei. apply Z.leb_le in Ei.
    repeat split; try lia; try congruence.
  - fields. rewrite Z.geb_leb in Ei. apply Z.leb_gt in Ei.
    repeat split; try lia; try congruence.
    intros Hs Hm. apply Hlt; [lia|exact Hm].
Qed.

Lemma update_loop_more turns : forall turns' s m r,
  update_loop turns s m = Some r -> (turns <= turns')%nat ->
  update_loop turns' s m = Some r.
Proof.
  induction turns as [|turns IH]; intros turns' s m r Hrun Hle.
  - destruct m; [|discriminate]. destruct turns'; exact Hrun.
  - destruct m as [|code rest]; [destruct turns'; exact Hrun|].
    destruct turns' as [|turns']; [lia|].
    cbn [update_loop] in *.
    destruct (update_turn s (code :: rest)) as [s1 r1].
    apply (IH turns' s1 r1 r Hrun). lia.
Qed.

(** The loop comes to its end within as many turns as the message has
    code units. *)
Lemma update_loop_total turns : forall s m,
  start s < 64 -> (length m <= turns)%nat ->
  exists s',
    update_loop turns s m = Some s'
    /\ start s' < 64
    /\ bytes s' <= bytes s + 4 * Z.of_nat (length m)
    /\ hBytes s' = hBytes s
    /\ finalized s' = finalized s.
Proof.
  induction turns as [|turns IH]; intros s m Hs Hlen.
  - destruct m; [|simpl in Hlen; lia].
    exists s. cbn. repeat split; [exact Hs|lia].
  - destruct m as [|code rest].
    { exists s. cbn. repeat split; [exact Hs|lia]. }
    cbn [update_loop].
    pose proof (update_turn_progress s (code :: rest)) as Hp.
    destruct (update_turn s (code :: rest)) as [s1 r1].
    destruct Hp as (_ & Hlt & Hst & Hby & Hhb & Hfin).
    specialize (Hlt Hs ltac:(discriminate)). specialize (Hst Hs).
    destruct (IH s1 r1 Hst ltac:(simpl in *; lia))
      as (s' & Hrun & Hs' & Hb' & Hh' & Hf').
    exists s'. repeat split; try assumption; try congruence.
    cbn [length] in *. lia.
Qed.

Lemma hash_fields bl a b c d e f g h blk st by_ hb fin hsd lbi :
  a = 0x6a09e667 /\ b = 0xbb67ae85 /\ c = 0x3c6ef372 /\ d = 0xa54ff53a
  /\ e = 0x510e527f /\ f = 0x9b05688c /\ g = 0x1f83d9ab /\ h = 0x5be0cd19 ->
  hash (Build_Sha256 bl a b c d e f g h blk st by_ hb fin hsd false lbi)
  = hash (Build_Sha256 bl a b c d e f g h blk st by_ hb fin hsd true lbi).
Proof.
  intros Hw. apply hash_same. right. split; [exact Hw|]. split; reflexivity.
Qed.

Ltac join_hashes Hw :=
  match goal with
  | |- context [hash (Build_Sha256 ?bl ?a ?b ?c ?d ?e ?f ?g ?h ?blk ?st ?by_
                        ?hb ?fin ?hsd false ?lbi)] =>
      rewrite (hash_fields bl a b c d e f g h blk st by_ hb fin hsd lbi Hw)
  end.

Lemma finalize_same s s' :
  finalized s = false -> same_but_first s s' -> finalize s' = finalize s.
Proof.
  intros Hfin [->|(Hw & Hf & ->)]; [reflexivity|].
  unfold finalize.
  destruct s as [bl a b c d e f g h blk st by_ hb fin hsd fst_ lbi].
  cbn [first] in Hf. cbn [finalized] in Hfin. subst fst_ fin.
  unfold initial_words in Hw. cbn [h0 h1 h2 h3 h4 h5 h6 h7] in Hw.
  cbv beta iota zeta delta
    [hashed with_first blocks block with_blocks with_hashed start bytes
     hBytes h0 h1 h2 h3 h4 h5 h6 h7 finalized first lastByteIndex
     with_finalized with_block negb].
  destruct (lbi >=? 56); [destruct hsd|]; join_hashes Hw; reflexivity.
Qed.

Lemma same_but_first_fields s s' :
  same_but_first s s' ->
  bytes s' = bytes s /\ hBytes s' = hBytes s /\ finalized s' = finalized s.
Proof.
  intros [->|(_ & _ & ->)]; [repeat split|]. destruct s; repeat split.
Qed.

Lemma with_bytes_same s s' hb by_ :
  same_but_first s s' ->
  same_but_first (with_bytes s hb by_) (with_bytes s' hb by_).
Proof.
  intros [->|(Hw & Hf & ->)]; [left; reflexivity|].
  right. destruct s. split; [exact Hw|]. split; [exact Hf|reflexivity].
Qed.

(** X27: the constants of the shortcut
    that [hash] takes on its very first round are right.  For every
    message, an object that starts with [first] cleared, and so never
    takes the shortcut, ends in the same state and gives the same 32
    bytes as [SHA256(message)]. *)
Theorem first_round_shortcut_is_sound message :
  exists s s',
    SHA256 message = Some s
    /\ update (with_first Sha256_new false) message = Some s'
    /\ _getOutputs s' = _getOutputs s.
Proof.
  unfold SHA256, update.
  change (finalized Sha256_new) with false.
  change (finalized (with_first Sha256_new false)) with false.
  cbv iota.
  destruct (update_loop_total (length message) Sha256_new message)
    as (s & Hrun & _ & _ & _ & Hfin); [reflexivity|lia|].
  assert (Hsame : same_but_first Sha256_new (with_first Sha256_new false)).
  { right. split; [repeat split|]. split; reflexivity. }
  pose proof (update_loop_same (length message) _ _ message Hsame) as Hloop.
  rewrite Hrun in Hloop. rewrite Hrun.
  destruct (update_loop (length message) (with_first Sha256_new false)
              message) as [s'|]; [|contradiction].
  cbn [same_option] in Hloop.
  destruct (same_but_first_fields s s' Hloop) as (Hby & Hhb & _).
  rewrite Hby, Hhb.
  destruct (bytes s >? 4294967295).
  - eexists. eexists. split; [reflexivity|]. split; [reflexivity|].
    unfold _getOutputs.
    match goal with
    | |- context [finalize (with_bytes s' ?hb ?by_)] =>
        rewrite (finalize_same (with_bytes s hb by_) (with_bytes s' hb by_))
    end.
    + reflexivity.
    + destruct s; exact Hfin.
    + apply with_bytes_same, Hloop.
  - exists s, s'. split; [reflexivity|]. split; [reflexivity|].
    unfold _getOutputs. rewrite (finalize_same s s' Hfin Hloop). reflexivity.
Qed.

Ltac records :=
  cbv beta iota zeta delta
    [blocks h0 h1 h2 h3 h4 h5 h6 h7 block start bytes hBytes finalized
     hashed first lastByteIndex with_blocks with_block with_start
     with_bytes with_hashed with_finalized with_lastByteIndex with_first].

(** A turn of the loop that exhausts the first part of a message: if
    it ended below byte 64, the next turn resumes it as if it had not
    ended; if not, the next turn starts on the second part. *)
Lemma update_turn_resumes s a b s1 :
  ends_whole a = true -> b <> [] ->
  update_turn s a = (s1, []) ->
  exists resumed : bool,
    update_turn s (a ++ b)
    = if resumed then update_turn s1 b else (s1, b).
Proof.
  intros Hw Hb. unfold update_turn at 1 2.
  set (s0 := if hashed s then _ else s).
  assert (H0 : hashed s0 = false).
  { subst s0. destruct (hashed s) eqn:E; [reflexivity|exact E]. }
  clearbody s0.
  destruct (fill_app (length a) a (blocks s0) (start s0) b (le_n _) Hw)
    as [Happ _].
  rewrite Happ.
  destruct (fill (blocks s0) (start s0) a) as [[filled i] rest].
  destruct (i >=? 64) eqn:Ei.
  - intros [= <- ->]. exists false.
    rewrite fill_full
      by (rewrite Z.geb_leb in Ei; apply Z.leb_le in Ei; exact Ei).
    rewrite Ei. reflexivity.
  - intros [= <- ->]. exists true.
    unfold update_turn.
    destruct s0 as [bl x0 x1 x2 x3 x4 x5 x6 x7 blk st by_ hb fin hsd fst_ lbi].
    cbn [hashed] in H0. subst hsd.
    records.
    destruct (fill filled i b) as [[filled2 i2] rest2].
    replace (by_ + (i - st) + (i2 - i)) with (by_ + (i2 - st)) by lia.
    reflexivity.
Qed.

(** A turn of the loop that stops inside the first part of a
    message. *)
Lemma update_turn_app s a b s1 c1 r1 :
  ends_whole a = true ->
  update_turn s a = (s1, c1 :: r1) ->
  update_turn s (a ++ b) = (s1, (c1 :: r1) ++ b)
  /\ ends_whole (c1 :: r1) = true.
Proof.
  intros Hw. unfold update_turn.
  set (s0 := if hashed s then _ else s). clearbody s0.
  destruct (fill_app (length a) a (blocks s0) (start s0) b (le_n _) Hw)
    as [Happ Hrest].
  rewrite Happ.
  destruct (fill (blocks s0) (start s0) a) as [[filled i] rest].
  cbn [snd] in Hrest.
  destruct (i >=? 64) eqn:Ei; intros [= <- ->]; cbv beta iota zeta;
    rewrite Ei; (split; [reflexivity|exact Hrest]).
Qed.

(** The loop over a message in two parts. *)
Lemma update_loop_app turns : forall s a sa,
  ends_whole a = true ->
  update_loop turns s a = Some sa ->
  forall b turns' sb,
    update_loop turns' sa b = Some sb ->
    update_loop (turns + turns') s (a ++ b) = Some sb.
Proof.
  induction turns as [|turns IH]; intros s a sa Hw Hrun b turns' sb Hb.
  - destruct a; [|discriminate]. injection Hrun as <-. exact Hb.
  - destruct a as [|code rest].
    { injection Hrun as <-.
      apply (update_loop_more turns' _ _ _ _ Hb). lia. }
    destruct b as [|code' rest'].
    { rewrite app_nil_r. destruct turns'; injection Hb as <-;
        apply (update_loop_more (S turns) _ _ _ _ Hrun); lia. }
    cbn [update_loop] in Hrun.
    destruct (update_turn s (code :: rest)) as [s1 r1] eqn:Hturn.
    change ((code :: rest) ++ code' :: rest')
      with (code :: (rest ++ code' :: rest')).
    cbn [update_loop Nat.add].
    change (code :: (rest ++ code' :: rest'))
      with ((code :: rest) ++ code' :: rest').
    destruct r1 as [|c1 r1].
    + (* the first part is exhausted by this turn *)
      assert (Hsa : sa = s1)
        by (destruct turns; injection Hrun as <-; reflexivity).
      subst sa.
      destruct (update_turn_resumes s (code :: rest) (code' :: rest') s1
                  Hw ltac:(discriminate) Hturn) as [[|] ->].
      * destruct turns' as [|turns']; [discriminate|].
        cbn [update_loop] in Hb.
        destruct (update_turn s1 (code' :: rest')) as [s2 r2].
        apply (update_loop_more turns' _ _ _ _ Hb). lia.
      * apply (update_loop_more turns' _ _ _ _ Hb). lia.
    + (* the turn stops inside the first part *)
      destruct (update_turn_app s (code :: rest) (code' :: rest') s1 c1 r1
                  Hw Hturn) as [-> Hw1].
      apply (IH s1 (c1 :: r1) sa Hw1 Hrun _ _ _ Hb).
Qed.

(** X28: a message can be fed in pieces.  As long as the
    first piece does not end inside a surrogate pair and the bytes stay
    under 4 GiB, [update(a)] followed by [update(b)] leaves the object in
    exactly the state [update(a + b)] leaves it in, and each of the three
    calls comes to its end. *)
Theorem update_streams this a b :
  start this < 64 ->
  ends_whole a = true ->
  bytes this + 4 * Z.of_nat (length a + length b) <= 4294967295 ->
  exists s1 s2,
    update this a = Some s1
    /\ update s1 b = Some s2
    /\ update this (a ++ b) = Some s2.
Proof.
  intros Hs Hw Hbytes. unfold update.
  destruct (finalized this) eqn:Hfin.
  { exists this, this. rewrite Hfin. repeat split. }
  destruct (update_loop_total (length a) this a Hs (le_n _))
    as (s1 & Hrun1 & Hs1 & Hb1 & _ & Hf1).
  destruct (update_loop_total (length b) s1 b Hs1 (le_n _))
    as (s2 & Hrun2 & Hs2 & Hb2 & _ & Hf2).
  pose proof (update_loop_app _ _ _ _ Hw Hrun1 _ _ _ Hrun2) as Hrun.
  rewrite <- length_app in Hrun.
  exists s1, s2. rewrite Hrun1, Hrun.
  assert (E1 : (bytes s1 >? 4294967295) = false).
  { rewrite Z.gtb_ltb. apply Z.ltb_ge. lia. }
  assert (E2 : (bytes s2 >? 4294967295) = false).
  { rewrite Z.gtb_ltb. apply Z.ltb_ge. lia. }
  rewrite E1, E2. split; [reflexivity|]. split; [|reflexivity].
  rewrite Hf1, Hfin, Hrun2, E2. reflexivity.
Qed.

(** X29: no padding bit is set for the empty
    message.  [update] of an empty string runs no turn of its loop and
    leaves [lastByteIndex] at -1, so [finalize] puts the bit under the
    property [-1] of the array and does nothing but hash the sixteen
    zeros the object was made with.  The 32 bytes that come out start
    [da 56 98 be]; the SHA-256 of the empty message starts
    [e3 b0 c4 42]. *)
Theorem empty_message_is_not_padded :
  exists s,
    SHA256 [] = Some s
    /\ lastByteIndex s = -1
    /\ finalize s = hash (with_finalized s true)
    /\ snd (dataView s)
       = [0xda; 0x56; 0x98; 0xbe; 0x17; 0xb9; 0xb4; 0x69;
          0x62; 0x33; 0x57; 0x99; 0x77; 0x9f; 0xbe; 0xca;
          0x8c; 0xe5; 0xd4; 0x91; 0xc0; 0xd2; 0x62; 0x43;
          0xba; 0xfe; 0xf9; 0xea; 0x18; 0x37; 0xa9; 0xd8].
Proof.
  exists Sha256_new. split; [reflexivity|]. split; [reflexivity|].
  split; vm_compute; reflexivity.
Qed.

End Sha256Facts.

Section Sha256Witnesses.
Import Sha256.

Lemma update_streams_witness :
  exists s1 s2,
    update Sha256_new [0x61; 0x62] = Some s1
    /\ update s1 [0x63] = Some s2
    /\ update Sha256_new ([0x61; 0x62] ++ [0x63]) = Some s2.
Proof.
  apply (update_streams Sha256_new [0x61; 0x62] [0x63]).
  - reflexivity.
  - reflexivity.
  - vm_compute. discriminate.
Defined.

(** The digest of ["abc"]. *)
Example SHA256_abc :
  (fun s => snd (dataView s)) <$> SHA256 [0x61; 0x62; 0x63]
  = Some [0xba; 0x78; 0x16; 0xbf; 0x8f; 0x01; 0xcf; 0xea;
          0x41; 0x41; 0x40; 0xde; 0x5d; 0xae; 0x22; 0x23;
          0xb0; 0x03; 0x61; 0xa3; 0x96; 0x17; 0x7a; 0x9c;
          0xb4; 0x10; 0xff; 0x61; 0xf2; 0x00; 0x15; 0xad].
Proof. vm_compute. reflexivity. Qed.

End Sha256Witnesses.

Section DigestFacts.
Import Sha256.

Lemma word_bytes_length h : length (word_bytes h) = 4%nat.
Proof. reflexivity. Qed.

Lemma word_bytes_range h : Forall (fun b => 0 <= b < 256) (word_bytes h).
Proof.
  unfold word_bytes. repeat constructor; try (apply Z.mod_pos_bound; lia).
Qed.

Lemma bytes_of_range l :
  Forall (fun b => 0 <= b < 256) l ->
  length (omap (fun b => Byte.of_N (Z.to_N b)) l) = length l.
Proof.
  induction 1 as [|b l Hb _ IH]; [reflexivity|]. cbn [omap list_omap].
  destruct (Byte.of_N (Z.to_N b)) eqn:E.
  - simpl. f_equal. exact IH.
  - apply Byte.of_N_None_iff in E. lia.
Qed.

(** [sha256Hash] of any string is a view of 32 bytes: the digest is
    computed on a fresh hasher, which is never finalized before the
    update, so no call of [utils/Sha256.ts] fails. *)
Lemma repo_digest_length s : length (repo_sha256Hash s) = 32%nat.
Proof.
  unfold repo_sha256Hash, SHA256, update. cbn [finalized Sha256_new].
  destruct (update_loop_total (length (char_codes s)) Sha256_new
              (char_codes s) ltac:(cbn; lia) ltac:(lia))
    as (s' & -> & _).
  assert (Hout : forall d,
            length (omap (fun b => Byte.of_N (Z.to_N b)) (snd (dataView d)))
            = 32%nat).
  { intros d. rewrite bytes_of_range.
    - unfold dataView, _getOutputs. cbn [snd].
      rewrite !length_app, !word_bytes_length. reflexivity.
    - unfold dataView, _getOutputs. cbn [snd].
      repeat (apply Forall_app; split); apply word_bytes_range. }
  destruct (bytes s' >? 4294967295); apply Hout.
Qed.

End DigestFacts.

Section DigestTotal.
#[local] Existing Instance repo_externals.

(** With the digest of [utils/Sha256.ts], [getBigUint64] at offset 0
    reads a hash for every string. *)
Lemma repo_digests s : is_Some (sha256_u64 s).
Proof.
  unfold sha256_u64, getBigUint64.
  change (sha256Hash s) with (repo_sha256Hash s).
  pose proof (repo_digest_length s) as Hlen.
  rewrite drop_0, length_take, Hlen. cbn. eauto.
Qed.

End DigestTotal.

Section Sha256Frozen.
Import Sha256.

Lemma finalized_with_blocks s x : finalized (with_blocks s x) = finalized s.
Proof. reflexivity. Qed.

Lemma finalized_with_block s x : finalized (with_block s x) = finalized s.
Proof. reflexivity. Qed.

Lemma finalized_hash s : finalized (hash s) = finalized s.
Proof. apply hash_keeps. Qed.

Lemma finalize_finalized s : finalized (finalize s) = true.
Proof.
  unfold finalize. destruct (finalized s) eqn:E; [exact E|].
  cbv zeta.
  rewrite finalized_hash, !finalized_with_blocks.
  destruct (lastByteIndex (with_finalized s true) >=? 56).
  - rewrite finalized_with_blocks.
    destruct (negb _);
      rewrite ?finalized_hash, finalized_with_block, !finalized_with_blocks;
      reflexivity.
  - rewrite finalized_with_block, !finalized_with_blocks. reflexivity.
Qed.

(** X30: reading the digest
    freezes the object.  After [dataView] (or [arrayBuffer]) the object
    is finalized: reading again gives the same 32 bytes and leaves it as
    it is, and a later [update] is ignored without an error. *)
Theorem reading_the_digest_freezes_the_object s message :
  let frozen := fst (dataView s) in
  finalized frozen = true
  /\ dataView frozen = dataView s
  /\ arrayBuffer frozen = dataView s
  /\ update frozen message = Some frozen.
Proof.
  pose proof (finalize_finalized s) as Hfin.
  unfold dataView, arrayBuffer, _getOutputs, update. cbn [fst].
  assert (Hagain : finalize (finalize s) = finalize s).
  { unfold finalize at 1. rewrite Hfin. reflexivity. }
  rewrite Hagain, Hfin. repeat split.
Qed.

End Sha256Frozen.
